(** * Salvage engines of asavalo/atlantis: a shallow embedding

    Source files embedded here:
    - [python/crs_salvage_findings.py]  (the strict engine)
    - [python/crs_salvage_json.py]      (the lenient engine)

    Python text is a sequence of Unicode code points, Python objects are
    the values a JSON decoder can build, exceptions are an explicit
    result type, and a generator is the list of the values it yields. *)

From Stdlib Require Import Ascii String ZArith NArith Lia Bool List Sorted.
From Stdlib Require DecimalFacts DecimalN.
Import ListNotations.

Local Open Scope Z_scope.

(* ================================================================== *)
(** * Part I. Definitions                                              *)
(* ================================================================== *)

(** ** Text *)

(** A Python [str] is a sequence of code points. *)
Definition str := list N.

Definition ch (a : ascii) : N := N_of_ascii a.

(** The code points of an ASCII literal. *)
Fixpoint py (s : string) : str :=
  match s with
  | EmptyString => []
  | String a r => ch a :: py r
  end.

Definition LBRACK : N := Eval cbv in ch "[".
Definition RBRACK : N := Eval cbv in ch "]".
Definition LBRACE : N := Eval cbv in ch "{".
Definition RBRACE : N := Eval cbv in ch "}".
Definition QUOTE : N := 34%N.
Definition BACKSLASH : N := Eval cbv in ch "\".
Definition BACKTICK : N := Eval cbv in ch "`".
Definition COLON : N := Eval cbv in ch ":".
Definition COMMA : N := Eval cbv in ch ",".
(** U+2026 HORIZONTAL ELLIPSIS, the marker appended to a cut snippet. *)
Definition ELLIPSIS : N := 8230%N.

Fixpoint str_eqb (a b : str) : bool :=
  match a, b with
  | [], [] => true
  | x :: a', y :: b' => N.eqb x y && str_eqb a' b'
  | _, _ => false
  end.

Fixpoint prefixb (p s : str) : bool :=
  match p, s with
  | [], _ => true
  | x :: p', y :: s' => N.eqb x y && prefixb p' s'
  | _ :: _, [] => false
  end.

(** [p in s] on two strings. *)
Fixpoint substrb (p s : str) : bool :=
  prefixb p s || match s with [] => false | _ :: s' => substrb p s' end.

(** [text[a:b]] for [0 <= a], [0 <= b]. *)
Definition slice (text : str) (a b : nat) : str :=
  firstn (b - a) (skipn a text).

(** ** Python objects *)

(** A finite float is kept as the decimal number [m * 10^e] (negated
    when [neg]) that its literal denotes.  Python rounds that number to
    the nearest binary64; the engines never compute with a float, and
    the only things they observe of one are whether it is a float,
    whether it is zero, and how it prints; the first two are exact here
    (see [rounds_to_zero] and [overflows]). *)
Inductive pyfloat :=
| FFinite (neg : bool) (m : N) (e : Z)
| FInf
| FNegInf
| FNaN.

(** [m * 10^e] is at most half the least positive binary64, [2^-1075]:
    the nearest binary64 is a zero. *)
Definition rounds_to_zero (m : N) (e : Z) : bool :=
  (N.eqb m 0
   || ((e <? 0) && (Z.of_N m * 2 ^ 1075 <=? 10 ^ (- e))))%bool.

(** [m * 10^e] is at least [2^1024 - 2^970], halfway between the
    greatest binary64 and [2^1024]: the nearest binary64 is infinite. *)
Definition overflows (m : N) (e : Z) : bool :=
  if e <? 0 then (2 ^ 1024 - 2 ^ 970) * 10 ^ (- e) <=? Z.of_N m
  else 2 ^ 1024 - 2 ^ 970 <=? Z.of_N m * 10 ^ e.

(** [dict] keeps insertion order, as Python's does. *)
#[warnings="-register-all"]
Inductive pyval :=
| PNone
| PBool (b : bool)
| PInt (z : Z)
| PFloat (f : pyfloat)
| PStr (s : str)
| PList (l : list pyval)
| PDict (d : list (str * pyval)).

Definition dict := list (str * pyval).

Fixpoint dict_lookup (d : dict) (k : str) : option pyval :=
  match d with
  | [] => None
  | (k', v) :: r => if str_eqb k' k then Some v else dict_lookup r k
  end.

(** [d[k] = v]: an existing key keeps its position. *)
Fixpoint dict_set (d : dict) (k : str) (v : pyval) : dict :=
  match d with
  | [] => [(k, v)]
  | (k', v') :: r =>
      if str_eqb k' k then (k', v) :: r else (k', v') :: dict_set r k v
  end.

Definition isinstance_list (v : pyval) : bool :=
  match v with PList _ => true | _ => false end.
Definition isinstance_dict (v : pyval) : bool :=
  match v with PDict _ => true | _ => false end.
Definition isinstance_str (v : pyval) : bool :=
  match v with PStr _ => true | _ => false end.
(** [isinstance(v, (int, float))]: [bool] is a subclass of [int]. *)
Definition isinstance_int_float (v : pyval) : bool :=
  match v with PInt _ | PFloat _ | PBool _ => true | _ => false end.

(** Truth value of an object, as [if v:] and [v or w] take it. *)
Definition truthy (v : pyval) : bool :=
  match v with
  | PNone => false
  | PBool b => b
  | PInt z => negb (z =? 0)
  | PFloat (FFinite _ m e) => negb (rounds_to_zero m e)
  | PFloat _ => true
  | PStr s => negb (Nat.eqb (length s) 0)
  | PList l => negb (Nat.eqb (length l) 0)
  | PDict d => negb (Nat.eqb (length d) 0)
  end.

(** ** Exceptions *)

Inductive exn :=
| JSONDecodeError
| TypeError
| AttributeError
| KeyError.

Inductive res (A : Type) :=
| Ok (a : A)
| Raise (e : exn).
Arguments Ok {A} a.
Arguments Raise {A} e.

Definition bind {A B} (m : res A) (k : A -> res B) : res B :=
  match m with
  | Ok a => k a
  | Raise e => Raise e
  end.

Notation "x <- m ;; k" := (bind m (fun x => k))
  (at level 61, m at next level, right associativity).

(** [try: m  except Exception: h] (every [exn] is an [Exception]). *)
Definition try_except {A} (m : res A) (h : res A) : res A :=
  match m with
  | Ok a => Ok a
  | Raise _ => h
  end.

(** A [for] loop that threads one local variable. *)
Fixpoint for_each {A S} (l : list A) (s : S) (body : S -> A -> res S)
  : res S :=
  match l with
  | [] => Ok s
  | x :: r => s' <- body s x ;; for_each r s' body
  end.

(** Method and operator calls, which fail on the wrong type. *)
Definition py_get (v : pyval) (k : str) : res pyval :=
  match v with
  | PDict d => Ok (match dict_lookup d k with Some x => x | None => PNone end)
  | _ => Raise AttributeError
  end.

Definition py_keys (v : pyval) : res (list str) :=
  match v with
  | PDict d => Ok (map fst d)
  | _ => Raise AttributeError
  end.

(** [k in v]. *)
Definition py_contains (v : pyval) (k : str) : res bool :=
  match v with
  | PDict d => Ok (match dict_lookup d k with Some _ => true | None => false end)
  | PList l =>
      Ok (existsb (fun x => match x with PStr s => str_eqb s k | _ => false end) l)
  | PStr s => Ok (substrb k s)
  | _ => Raise TypeError
  end.

(** [v[k]] for a string key. *)
Definition py_getitem (v : pyval) (k : str) : res pyval :=
  match v with
  | PDict d =>
      match dict_lookup d k with Some x => Ok x | None => Raise KeyError end
  | _ => Raise TypeError
  end.

(** The elements a [for] loop over [v] visits. *)
Definition py_iter (v : pyval) : res (list pyval) :=
  match v with
  | PList l => Ok l
  | PDict d => Ok (map (fun kv => PStr (fst kv)) d)
  | PStr s => Ok (map (fun c => PStr [c]) s)
  | _ => Raise TypeError
  end.

(** [v.copy()]: a new object with the same items. *)
Definition py_copy (v : pyval) : res pyval :=
  match v with
  | PDict d => Ok (PDict d)
  | PList l => Ok (PList l)
  | _ => Raise AttributeError
  end.

(** [v[k] = x], as the object [v] then is. *)
Definition py_setitem (v : pyval) (k : str) (x : pyval) : res pyval :=
  match v with
  | PDict d => Ok (PDict (dict_set d k x))
  | _ => Raise TypeError
  end.

(** [v[:n]]. *)
Definition py_slice_to (v : pyval) (n : nat) : res pyval :=
  match v with
  | PStr s => Ok (PStr (firstn n s))
  | PList l => Ok (PList (firstn n l))
  | _ => Raise TypeError
  end.

(** [a + b] on two strings or two lists. *)
Definition py_add (a b : pyval) : res pyval :=
  match a, b with
  | PStr x, PStr y => Ok (PStr (x ++ y))
  | PList x, PList y => Ok (PList (x ++ y))
  | _, _ => Raise TypeError
  end.

Definition py_len (v : pyval) : res nat :=
  match v with
  | PList l => Ok (length l)
  | PDict d => Ok (length d)
  | PStr s => Ok (length s)
  | _ => Raise TypeError
  end.

(** ** Generators *)

(** A generator run to its end: the values it yielded, and how it ended. *)
Definition gen (A : Type) := (list pyval * res A)%type.

Definition gen_ret {A} (a : A) : gen A := ([], Ok a).

Definition gen_bind {A B} (m : gen A) (k : A -> gen B) : gen B :=
  match m with
  | (ys, Ok a) => let (zs, r) := k a in (ys ++ zs, r)
  | (ys, Raise e) => (ys, Raise e)
  end.

Notation "x <~ m ;; k" := (gen_bind m (fun x => k))
  (at level 61, m at next level, right associativity).

Definition yield (v : pyval) : gen unit := ([v], Ok tt).

Definition lift {A} (r : res A) : gen A := ([], r).

(** [try: m  except Exception: pass] in a generator body: what was
    yielded before the exception stays yielded. *)
Definition gen_try (m : gen unit) : gen unit :=
  match m with
  | (ys, Ok a) => (ys, Ok a)
  | (ys, Raise _) => (ys, Ok tt)
  end.

Fixpoint gen_for {A} (l : list A) (body : A -> gen unit) : gen unit :=
  match l with
  | [] => gen_ret tt
  | x :: r => _ <~ body x ;; gen_for r body
  end.

(** [for x in g: body], with one threaded local state. *)
Definition for_gen {S} (g : gen unit) (s : S) (body : S -> pyval -> res S)
  : res S :=
  s' <- for_each (fst g) s body ;;
  _ <- snd g ;;
  Ok s'.

(** ** The [re] module, as far as the two patterns of the strict engine
       need it *)

(** [str.isspace] on one code point, which is what [\s] matches in a
    [str] pattern. *)
Definition py_isspace (c : N) : bool :=
  (((9 <=? c) && (c <=? 13)) || ((28 <=? c) && (c <=? 32))
   || (c =? 133) || (c =? 160) || (c =? 5760)
   || ((8192 <=? c) && (c <=? 8202))
   || (c =? 8232) || (c =? 8233) || (c =? 8239) || (c =? 8287)
   || (c =? 12288))%N%bool.

Definition any_char (c : N) : bool := true.
Definition is_char (x : N) (c : N) : bool := N.eqb c x.
Definition not_brace (c : N) : bool :=
  negb (N.eqb c LBRACE || N.eqb c RBRACE).
(** An ASCII letter under [re.IGNORECASE]: both cases, and for [s] also
    U+017F LATIN SMALL LETTER LONG S. *)
Definition is_char_ci (lower upper : N) (c : N) : bool :=
  (N.eqb c lower || N.eqb c upper
   || (N.eqb lower (ch "s") && N.eqb c 383))%bool.

(** A pattern is a sequence of items; every repetition in the two
    patterns is over a single character class. *)
Inductive re_item :=
| RChar (p : N -> bool)          (* one character of the class *)
| RStar (p : N -> bool)          (* [p*], greedy *)
| RLazy (p : N -> bool)          (* [p*?], lazy *)
| ROpen                          (* [(] of group 1 *)
| RClose.                        (* [)] of group 1 *)

Definition regex := list re_item.

Definition RLit (s : string) : regex := map (fun c => RChar (is_char c)) (py s).

(** Backtracking match of [r] at position [i], where [s] is the text
    from [i] on; [g] is the span of group 1 so far.  The result is the
    end of the match and the span of group 1. *)
Fixpoint re_match (r : regex) : str -> nat -> nat * nat -> option (nat * (nat * nat)) :=
  match r with
  | [] => fun s i g => Some (i, g)
  | RChar p :: r' => fun s i g =>
      match s with
      | c :: s' => if p c then re_match r' s' (S i) g else None
      | [] => None
      end
  | RStar p :: r' =>
      fix star (s : str) (i : nat) (g : nat * nat) :=
        match s with
        | c :: s' =>
            if p c then
              match star s' (S i) g with
              | Some m => Some m
              | None => re_match r' s i g
              end
            else re_match r' s i g
        | [] => re_match r' s i g
        end
  | RLazy p :: r' =>
      fix lazy (s : str) (i : nat) (g : nat * nat) :=
        match re_match r' s i g with
        | Some m => Some m
        | None =>
            match s with
            | c :: s' => if p c then lazy s' (S i) g else None
            | [] => None
            end
        end
  | ROpen :: r' => fun s i g => re_match r' s i (i, snd g)
  | RClose :: r' => fun s i g => re_match r' s i (fst g, i)
  end.

(** One match: its span and the span of group 1. *)
Record re_hit := { hit_start : nat; hit_end : nat; hit_group : nat * nat }.

(** [re.finditer]: leftmost matches, the search resuming where the
    previous match ended.  [skip] counts the characters still covered by
    the previous match.  Both patterns need at least one character, so
    no match starts at the end of the text. *)
Fixpoint finditer_from (r : regex) (s : str) (i skip : nat) : list re_hit :=
  match s with
  | [] => []
  | _ :: s' =>
      match skip with
      | S k => finditer_from r s' (S i) k
      | O =>
          match re_match r s i (0%nat, 0%nat) with
          | Some (e, g) =>
              {| hit_start := i; hit_end := e; hit_group := g |}
                :: finditer_from r s' (S i) (e - i - 1)
          | None => finditer_from r s' (S i) 0
          end
      end
  end.

Definition finditer (r : regex) (text : str) : list re_hit :=
  finditer_from r text 0 0.

(** [m.group(0)] and [m.group(1)]. *)
Definition group0 (text : str) (h : re_hit) : str :=
  slice text (hit_start h) (hit_end h).
Definition group1 (text : str) (h : re_hit) : str :=
  slice text (fst (hit_group h)) (snd (hit_group h)).

(** ** [json.dumps(obj, indent=2)] *)

Fixpoint uint_chars (u : Decimal.uint) : str :=
  match u with
  | Decimal.Nil => []
  | Decimal.D0 r => 48%N :: uint_chars r
  | Decimal.D1 r => 49%N :: uint_chars r
  | Decimal.D2 r => 50%N :: uint_chars r
  | Decimal.D3 r => 51%N :: uint_chars r
  | Decimal.D4 r => 52%N :: uint_chars r
  | Decimal.D5 r => 53%N :: uint_chars r
  | Decimal.D6 r => 54%N :: uint_chars r
  | Decimal.D7 r => 55%N :: uint_chars r
  | Decimal.D8 r => 56%N :: uint_chars r
  | Decimal.D9 r => 57%N :: uint_chars r
  end.

Definition repr_nat (n : N) : str := uint_chars (N.to_uint n).

(** [int.__repr__]. *)
Definition repr_int (z : Z) : str :=
  (if z <? 0 then py "-" else []) ++ repr_nat (Z.abs_N z).

(** How a float prints.  Python prints the shortest decimal that reads
    back as the same binary64; the digits printed here for a finite
    non-zero float are those of [m] and [e] instead, a number token all
    the same. *)
Definition repr_float (f : pyfloat) : str :=
  match f with
  | FNaN => py "NaN"
  | FInf => py "Infinity"
  | FNegInf => py "-Infinity"
  | FFinite neg m e =>
      (if neg then py "-" else [])
      ++ (if rounds_to_zero m e then py "0.0"
          else repr_nat m ++ py "e" ++ repr_int e)
  end.

Definition hex_digit (n : N) : N :=
  (if n <? 10 then 48 + n else 87 + n)%N.

(** [format(n, '04x')] for [n < 65536]. *)
Definition hex4 (n : N) : str :=
  [hex_digit (N.shiftr n 12); hex_digit (N.land (N.shiftr n 8) 15);
   hex_digit (N.land (N.shiftr n 4) 15); hex_digit (N.land n 15)].

(** The replacement of one code point by [encode_basestring_ascii]. *)
Definition escape_char (c : N) : str :=
  if N.eqb c QUOTE then [BACKSLASH; QUOTE]
  else if N.eqb c BACKSLASH then [BACKSLASH; BACKSLASH]
  else if N.eqb c 8 then py "\b"
  else if N.eqb c 12 then py "\f"
  else if N.eqb c 10 then py "\n"
  else if N.eqb c 13 then py "\r"
  else if N.eqb c 9 then py "\t"
  else if ((32 <=? c) && (c <=? 126))%N%bool then [c]
  else if (c <? 65536)%N then py "\u" ++ hex4 c
  else
    let n := (c - 65536)%N in
    py "\u" ++ hex4 (N.lor 55296 (N.land (N.shiftr n 10) 1023))
    ++ py "\u" ++ hex4 (N.lor 56320 (N.land n 1023)).

Definition encode_str (s : str) : str :=
  QUOTE :: flat_map escape_char s ++ [QUOTE].

(** A line break and the indentation of nesting level [level]. *)
Definition newline_indent (level : nat) : str :=
  10%N :: repeat 32%N (2 * level).

Fixpoint dumps_at (level : nat) (v : pyval) : str :=
  match v with
  | PNone => py "null"
  | PBool true => py "true"
  | PBool false => py "false"
  | PInt z => repr_int z
  | PFloat f => repr_float f
  | PStr s => encode_str s
  | PList [] => py "[]"
  | PList (x :: r) =>
      py "[" ++ newline_indent (S level) ++ dumps_at (S level) x
      ++ (fix items (l : list pyval) : str :=
            match l with
            | [] => []
            | y :: l' =>
                py "," ++ newline_indent (S level) ++ dumps_at (S level) y
                ++ items l'
            end) r
      ++ newline_indent level ++ py "]"
  | PDict [] => py "{}"
  | PDict ((k, x) :: r) =>
      py "{" ++ newline_indent (S level)
      ++ encode_str k ++ py ": " ++ dumps_at (S level) x
      ++ (fix items (l : list (str * pyval)) : str :=
            match l with
            | [] => []
            | (k', y) :: l' =>
                py "," ++ newline_indent (S level)
                ++ encode_str k' ++ py ": " ++ dumps_at (S level) y
                ++ items l'
            end) r
      ++ newline_indent level ++ py "}"
  end.

Definition json_dumps (v : pyval) : str := dumps_at 0 v.

(** ** Python's JSON decoder *)

Inductive token :=
| TLBrace | TRBrace | TLBrack | TRBrack | TColon | TComma
| TStr (s : str)
| TAtom (v : pyval).

Definition is_json_ws (c : N) : bool :=
  (N.eqb c 32 || N.eqb c 9 || N.eqb c 10 || N.eqb c 13)%bool.

Definition is_digit (c : N) : bool := ((48 <=? c) && (c <=? 57))%N%bool.

Definition hex_value (c : N) : option N :=
  if is_digit c then Some (c - 48)%N
  else if ((97 <=? c) && (c <=? 102))%N%bool then Some (c - 87)%N
  else if ((65 <=? c) && (c <=? 70))%N%bool then Some (c - 55)%N
  else None.

Definition hex4_value (a b c d : N) : option N :=
  match hex_value a, hex_value b, hex_value c, hex_value d with
  | Some x, Some y, Some z, Some w => Some (x * 4096 + y * 256 + z * 16 + w)%N
  | _, _, _, _ => None
  end.

Definition simple_escape (c : N) : option N :=
  if N.eqb c QUOTE then Some QUOTE
  else if N.eqb c BACKSLASH then Some BACKSLASH
  else if N.eqb c (ch "/") then Some (ch "/")
  else if N.eqb c (ch "b") then Some 8%N
  else if N.eqb c (ch "f") then Some 12%N
  else if N.eqb c (ch "n") then Some 10%N
  else if N.eqb c (ch "r") then Some 13%N
  else if N.eqb c (ch "t") then Some 9%N
  else None.

Definition is_high_surrogate (c : N) : bool := ((55296 <=? c) && (c <=? 56319))%N%bool.
Definition is_low_surrogate (c : N) : bool := ((56320 <=? c) && (c <=? 57343))%N%bool.

(** The code point of a high surrogate [c1] joined with the low
    surrogate written by the escape [\ u h1 h2 h3 h4], if it is one. *)
Definition joined_surrogates (c1 b u h1 h2 h3 h4 : N) : option N :=
  if (is_high_surrogate c1 && N.eqb b BACKSLASH && N.eqb u (ch "u"))%bool then
    match hex4_value h1 h2 h3 h4 with
    | Some c2 =>
        if is_low_surrogate c2
        then Some (65536 + (c1 - 55296) * 1024 + (c2 - 56320))%N
        else None
    | None => None
    end
  else None.

(** The body of a string literal, from just after its opening quote:
    the decoded string and the text after the closing quote.  [acc] is
    the decoded part so far, reversed. *)
Fixpoint scan_string (s : str) (acc : str) : option (str * str) :=
  match s with
  | [] => None
  | c :: r =>
      if N.eqb c QUOTE then Some (rev acc, r)
      else if N.eqb c BACKSLASH then
        match r with
        | e :: r' =>
            if N.eqb e (ch "u") then
              match r' with
              | h1 :: h2 :: h3 :: h4 :: r'' =>
                  match hex4_value h1 h2 h3 h4 with
                  | Some c1 =>
                      match r'' with
                      | b :: u :: k1 :: k2 :: k3 :: k4 :: r6 =>
                          match joined_surrogates c1 b u k1 k2 k3 k4 with
                          | Some j => scan_string r6 (j :: acc)
                          | None => scan_string r'' (c1 :: acc)
                          end
                      | _ => scan_string r'' (c1 :: acc)
                      end
                  | None => None
                  end
              | _ => None
              end
            else
              match simple_escape e with
              | Some x => scan_string r' (x :: acc)
              | None => None
              end
        | [] => None
        end
      else if (c <? 32)%N then None
      else scan_string r (c :: acc)
  end.

(** The longest prefix of [s] in the class [p], and what follows it. *)
Fixpoint span (p : N -> bool) (s : str) : str * str :=
  match s with
  | c :: r => if p c then let (a, b) := span p r in (c :: a, b) else ([], s)
  | [] => ([], [])
  end.

Definition is_number_char (c : N) : bool :=
  (is_digit c || N.eqb c (ch "-") || N.eqb c (ch "+") || N.eqb c (ch ".")
   || N.eqb c (ch "e") || N.eqb c (ch "E"))%bool.

Definition digits_value (ds : str) : N :=
  fold_left (fun a d => (a * 10 + (d - 48))%N) ds 0%N.

Definition nonempty {A} (l : list A) : bool :=
  match l with [] => false | _ => true end.

(** [0] or a digit string that does not start with [0]. *)
Definition is_int_part (ds : str) : bool :=
  match ds with
  | [] => false
  | d :: r => (forallb is_digit ds && (negb (N.eqb d 48) || negb (nonempty r)))%bool
  end.

(** The exponent part ([e] or [E], an optional sign, at least one
    digit), or nothing. *)
Definition exponent_value (s : str) : option (option Z) :=
  match s with
  | [] => Some None
  | c :: r =>
      if (N.eqb c (ch "e") || N.eqb c (ch "E"))%bool then
        let (neg, ds) :=
          match r with
          | sg :: r' =>
              if N.eqb sg (ch "-") then (true, r')
              else if N.eqb sg (ch "+") then (false, r')
              else (false, r)
          | [] => (false, r)
          end in
        if (nonempty ds && forallb is_digit ds)%bool
        then Some (Some (if neg then - Z.of_N (digits_value ds)
                         else Z.of_N (digits_value ds)))
        else None
      else None
  end.

(** A whole number token: an optional minus sign, an integer part, an
    optional fraction (a dot and at least one digit), an optional
    exponent.  Without fraction and exponent it is an [int]. *)
Definition number_value (tok : str) : option pyval :=
  let (neg, body) :=
    match tok with
    | c :: r => if N.eqb c (ch "-") then (true, r) else (false, tok)
    | [] => (false, tok)
    end in
  let (ip, rest) := span is_digit body in
  if is_int_part ip then
    let (frac, rest') :=
      match rest with
      | c :: r => if N.eqb c (ch ".") then
                    let (fd, r') := span is_digit r in (Some fd, r')
                  else (None, rest)
      | [] => (None, rest)
      end in
    match frac, exponent_value rest' with
    | Some [], _ => None
    | _, None => None
    | None, Some None =>
        Some (PInt (if neg then - Z.of_N (digits_value ip)
                    else Z.of_N (digits_value ip)))
    | _, Some ex =>
        let fd := match frac with Some d => d | None => [] end in
        let m := digits_value (ip ++ fd) in
        let e := (match ex with Some x => x | None => 0 end
                  - Z.of_nat (length fd)) in
        Some (PFloat (if overflows m e then (if neg then FNegInf else FInf)
                      else FFinite neg m e))
    end
  else None.

(** The words the decoder knows, longest first where one starts another. *)
Definition words : list (str * pyval) :=
  [(py "true", PBool true); (py "false", PBool false); (py "null", PNone);
   (py "NaN", PFloat FNaN); (py "Infinity", PFloat FInf);
   (py "-Infinity", PFloat FNegInf)].

Fixpoint match_word (ws : list (str * pyval)) (s : str) : option (pyval * str) :=
  match ws with
  | [] => None
  | (w, v) :: r =>
      if prefixb w s then Some (v, skipn (length w) s) else match_word r s
  end.

(** One token at the head of [s] (or [None] for white space) and the
    text after it. *)
Definition lex_one (s : str) : option (option token * str) :=
  match s with
  | [] => None
  | c :: r =>
      if is_json_ws c then Some (None, r)
      else if N.eqb c LBRACE then Some (Some TLBrace, r)
      else if N.eqb c RBRACE then Some (Some TRBrace, r)
      else if N.eqb c LBRACK then Some (Some TLBrack, r)
      else if N.eqb c RBRACK then Some (Some TRBrack, r)
      else if N.eqb c COLON then Some (Some TColon, r)
      else if N.eqb c COMMA then Some (Some TComma, r)
      else if N.eqb c QUOTE then
        match scan_string r [] with
        | Some (x, r') => Some (Some (TStr x), r')
        | None => None
        end
      else
        match match_word words s with
        | Some (v, r') => Some (Some (TAtom v), r')
        | None =>
            let (tok, r') := span is_number_char s in
            match number_value tok with
            | Some v => Some (Some (TAtom v), r')
            | None => None
            end
        end
  end.

Fixpoint lex (fuel : nat) (s : str) : option (list token) :=
  match s with
  | [] => Some []
  | _ :: _ =>
      match fuel with
      | O => None
      | S f =>
          match lex_one s with
          | Some (t, r) =>
              match lex f r with
              | Some ts => Some (match t with Some x => x :: ts | None => ts end)
              | None => None
              end
          | None => None
          end
      end
  end.

(** Recursive descent over the tokens.  A repeated key keeps its first
    position and its last value, as in the [dict] Python builds. *)
Fixpoint parse_value (fuel : nat) (ts : list token) : option (pyval * list token) :=
  match fuel with
  | O => None
  | S f =>
      match ts with
      | TAtom v :: r => Some (v, r)
      | TStr x :: r => Some (PStr x, r)
      | TLBrack :: TRBrack :: r => Some (PList [], r)
      | TLBrack :: r => parse_elems f r []
      | TLBrace :: TRBrace :: r => Some (PDict [], r)
      | TLBrace :: r => parse_members f r []
      | _ => None
      end
  end
with parse_elems (fuel : nat) (ts : list token) (acc : list pyval)
  : option (pyval * list token) :=
  match fuel with
  | O => None
  | S f =>
      match parse_value f ts with
      | Some (v, TComma :: r) => parse_elems f r (acc ++ [v])
      | Some (v, TRBrack :: r) => Some (PList (acc ++ [v]), r)
      | _ => None
      end
  end
with parse_members (fuel : nat) (ts : list token) (acc : list (str * pyval))
  : option (pyval * list token) :=
  match fuel with
  | O => None
  | S f =>
      match ts with
      | TStr k :: TColon :: r =>
          match parse_value f r with
          | Some (v, TComma :: r') => parse_members f r' (dict_set acc k v)
          | Some (v, TRBrace :: r') => Some (PDict (dict_set acc k v), r')
          | _ => None
          end
      | _ => None
      end
  end.

(** [json.loads] on a [str], [None] standing for [JSONDecodeError].
    Two limits of the interpreter are left out: the recursion limit on
    deeply nested input and the limit on the digits of an integer. *)
Definition json_decode (text : str) : option pyval :=
  match lex (length text) text with
  | Some ts =>
      match parse_value (2 * length ts + 2) ts with
      | Some (v, []) => Some v
      | _ => None
      end
  | None => None
  end.

(** ** The two engines *)

Section Engines.

(** [json.loads] on a [str]: the decoded object, or [None] for the
    exception it raises on text it does not accept.  The engines are
    defined, and their general properties proved, for any decoder;
    [json_decode] below is Python's. *)
Variable json_loads : str -> option pyval.

(** [json.loads(x)] on any object. *)
Definition py_json_loads (x : pyval) : res pyval :=
  match x with
  | PStr s =>
      match json_loads s with
      | Some v => Ok v
      | None => Raise JSONDecodeError
      end
  | _ => Raise TypeError
  end.

(** *** crs_salvage_findings.py *)

Definition REQUIRED : list str :=
  [py "path"; py "cwe_guess"; py "severity"; py "confidence"; py "lines";
   py "snippet"; py "evidence"; py "reasoning"; py "fix"].

Definition issubset (a b : list str) : bool :=
  forallb (fun k => existsb (str_eqb k) b) a.

Definition fence_re : regex :=
  [RChar (is_char BACKTICK); RChar (is_char BACKTICK); RChar (is_char BACKTICK);
   RChar (is_char_ci (ch "j") (ch "J")); RChar (is_char_ci (ch "s") (ch "S"));
   RChar (is_char_ci (ch "o") (ch "O")); RChar (is_char_ci (ch "n") (ch "N"));
   RStar py_isspace; ROpen; RLazy any_char; RClose;
   RChar (is_char BACKTICK); RChar (is_char BACKTICK); RChar (is_char BACKTICK)].

Definition findings_re : regex :=
  [RChar (is_char LBRACE); RStar not_brace]
  ++ RChar (is_char QUOTE) :: RLit "findings" ++ [RChar (is_char QUOTE)]
  ++ [RStar py_isspace; RChar (is_char COLON); RStar py_isspace;
      RChar (is_char LBRACK); RLazy any_char; RChar (is_char RBRACK);
      RStar not_brace; RChar (is_char RBRACE)].

(** The loop of strategy 5.  [rest] is the text from index [i] on, the
    top of [stack] is its head, [arrays] grows at its end. *)
Fixpoint scan_arrays (text rest : str) (i : nat) (stack : list nat)
  (arrays : list str) : list str :=
  match rest with
  | [] => arrays
  | c :: rest' =>
      if N.eqb c LBRACK then scan_arrays text rest' (S i) (i :: stack) arrays
      else if N.eqb c RBRACK then
        match stack with
        | start :: stack' =>
            let arrays' := arrays ++ [slice text start (i + 1)] in
            if (40 <=? length arrays')%nat then arrays'
            else scan_arrays text rest' (S i) stack' arrays'
        | [] => scan_arrays text rest' (S i) stack arrays
        end
      else scan_arrays text rest' (S i) stack arrays
  end.

Definition balanced_arrays (text : str) : list str :=
  scan_arrays text text 0 [] [].

Definition wrapper_keys : list str :=
  [py "message"; py "output"; py "response"; py "content"; py "text"].

Definition json_candidates (text : str) : gen unit :=
  (* 1) Direct top-level JSON *)
  _ <~ gen_try (obj <~ lift (py_json_loads (PStr text)) ;; yield obj) ;;
  (* 2) Common wrappers *)
  _ <~ gen_try
        (obj <~ lift (py_json_loads (PStr text)) ;;
         if isinstance_dict obj then
           gen_for wrapper_keys (fun k =>
             v <~ lift (py_get obj k) ;;
             inner <~ lift (if isinstance_dict v then
                              has <- py_contains v (py "content") ;;
                              if has then
                                c <- py_getitem v (py "content") ;;
                                Ok (isinstance_str c)
                              else Ok false
                            else Ok false) ;;
             if inner then
               c <~ lift (py_getitem v (py "content")) ;; yield c
             else if isinstance_str v then yield v
             else gen_ret tt)
         else gen_ret tt) ;;
  (* 3) Code fences *)
  _ <~ gen_for (finditer fence_re text) (fun m => yield (PStr (group1 text m))) ;;
  (* 4) Any {... "findings":[ ... ] ...} *)
  _ <~ gen_for (finditer findings_re text) (fun m => yield (PStr (group0 text m))) ;;
  (* 5) All balanced arrays *)
  gen_for (balanced_arrays text) (fun frag => yield (PStr frag)).

Definition load_json (x : pyval) : res pyval :=
  if (isinstance_dict x || isinstance_list x)%bool then Ok x
  else try_except (py_json_loads x) (Ok PNone).

(** One round of the [for it in objs] loop of [score_array]. *)
Definition score_item (ok : Z) (it : pyval) : res Z :=
  ks <- py_keys it ;;
  if issubset REQUIRED ks then
    path <- py_get it (py "path") ;;
    if isinstance_str path then
      cwe <- py_get it (py "cwe_guess") ;;
      if isinstance_str cwe then
        sev <- py_get it (py "severity") ;;
        if isinstance_str sev then
          conf <- py_get it (py "confidence") ;;
          if isinstance_int_float conf then
            lines <- py_get it (py "lines") ;;
            if isinstance_list lines then
              lines' <- py_get it (py "lines") ;;
              if truthy lines' then Ok (ok + 1) else Ok ok
            else Ok ok
          else Ok ok
        else Ok ok
      else Ok ok
    else Ok ok
  else Ok ok.

Definition score_array (arr : pyval) : res (Z * Z) :=
  if negb (isinstance_list arr) then Ok (-1, 0)
  else
    its <- py_iter arr ;;
    let objs := filter isinstance_dict its in
    if negb (truthy (PList objs)) then Ok (0, 0)
    else
      ok <- for_each objs 0 score_item ;;
      Ok (ok, Z.of_nat (length objs)).

(** [a > b] on two pairs of integers. *)
Definition tuple_gt (a b : Z * Z) : bool :=
  ((fst b <? fst a) || ((fst a =? fst b) && (snd b <? snd a)))%bool.

(** The unwrapping at the head of the selection loop. *)
Definition unwrap_findings (obj : pyval) : res pyval :=
  wrapped <- (if isinstance_dict obj then
                f <- py_get obj (py "findings") ;; Ok (isinstance_list f)
              else Ok false) ;;
  if wrapped then py_getitem obj (py "findings") else Ok obj.

(** One round of the selection loop; the state is [(best, best_score)]. *)
Definition select_step (st : pyval * (Z * Z)) (cand : pyval)
  : res (pyval * (Z * Z)) :=
  obj <- load_json cand ;;
  arr <- unwrap_findings obj ;;
  sc <- score_array arr ;;
  if tuple_gt sc (snd st) then Ok (arr, sc) else Ok st.

(** One round of the trimming loop; the state is [out]. *)
Definition trim_step (out : list pyval) (it : pyval) : res (list pyval) :=
  it' <- (if isinstance_dict it then
            sn <- py_get it (py "snippet") ;;
            long <- (if isinstance_str sn then
                       n <- py_len sn ;; Ok (1600 <? n)%nat
                     else Ok false) ;;
            if long then
              cp <- py_copy it ;;
              cut <- py_slice_to sn 1600 ;;
              new <- py_add cut (PStr [ELLIPSIS]) ;;
              py_setitem cp (py "snippet") new
            else Ok it
          else Ok it) ;;
  Ok (out ++ [it']).

Definition is_none (v : pyval) : bool :=
  match v with PNone => true | _ => false end.

Definition best_findings (text : str) : res (list pyval) :=
  st <- for_gen (json_candidates text) (PNone, (-1, 0)) select_step ;;
  let best := fst st in
  accept <- (if negb (is_none best) then
               sc <- score_array best ;; Ok (0 <? fst sc)
             else Ok false) ;;
  if accept then
    its <- py_iter best ;;
    for_each its [] trim_step
  else Ok [].

(** [main], from the text that [readall] returned: the lines printed. *)
Definition main_findings (s : str) : res (list str) :=
  arr <- best_findings s ;;
  Ok [json_dumps (PList arr)].

(** *** crs_salvage_json.py *)

(** One round of the loop of [last_array]; the state is
    [(start, depth, last)]. *)
Definition last_step (st : option nat * nat * option (nat * nat))
  (ic : nat * N) : option nat * nat * option (nat * nat) :=
  let '(start, depth, last) := st in
  let (i, c) := ic in
  if N.eqb c LBRACK then
    ((if Nat.eqb depth 0 then Some i else start), S depth, last)
  else if N.eqb c RBRACK then
    match depth with
    | S d =>
        (start, d,
         match d, start with
         | O, Some s => Some (s, (i + 1)%nat)
         | _, _ => last
         end)
    | O => st
    end
  else st.

Definition enumerate (text : str) : list (nat * N) :=
  combine (seq 0 (length text)) text.

Definition last_span (text : str) : option (nat * nat) :=
  snd (fold_left last_step (enumerate text) (None, 0%nat, None)).

(** [last_array] returns a list or [None]. *)
Definition last_array (text : str) : res (option (list pyval)) :=
  match last_span text with
  | None => Ok None
  | Some (a, b) =>
      let frag := slice text a b in
      try_except
        (arr <- py_json_loads (PStr frag) ;;
         Ok (match arr with PList l => Some l | _ => None end))
        (Ok None)
  end.

(** The loop over the four plain wrapper keys, left at the first string. *)
Fixpoint first_str_value (obj : pyval) (ks : list str) : res (option str) :=
  match ks with
  | [] => Ok None
  | k :: r =>
      v <- py_get obj k ;;
      match v with
      | PStr x => Ok (Some x)
      | _ => first_str_value obj r
      end
  end.

(** [try_message_content] returns a string or [None]. *)
Definition try_message_content (s : str) : res (option str) :=
  try_except
    (obj <- py_json_loads (PStr s) ;;
     if isinstance_dict obj then
       m <- py_get obj (py "message") ;;
       let msg := if truthy m then m else PDict [] in
       c <- py_get msg (py "content") ;;
       match c with
       | PStr x => Ok (Some x)
       | _ => first_str_value obj
                [py "output"; py "response"; py "content"; py "text"]
       end
     else Ok None)
    (Ok None).

(** [try_top_struct] returns a list or [None]. *)
Definition try_top_struct (s : str) : res (option (list pyval)) :=
  try_except
    (obj <- py_json_loads (PStr s) ;;
     match obj with
     | PList l => Ok (Some l)
     | _ =>
         wrapped <- (if isinstance_dict obj then
                       f <- py_get obj (py "findings") ;; Ok (isinstance_list f)
                     else Ok false) ;;
         if wrapped then
           f <- py_getitem obj (py "findings") ;;
           Ok (match f with PList l => Some l | _ => None end)
         else Ok None
     end)
    (Ok None).

(** [a or b] on two values that are a list or [None]. *)
Definition or_else (a : option (list pyval)) (b : res (option (list pyval)))
  : res (option (list pyval)) :=
  match a with
  | Some (_ :: _) => Ok a
  | _ => b
  end.

(** [main], from the text that [readall] returned: the lines printed. *)
Definition main_json (s : str) : res (list str) :=
  arr <- try_top_struct s ;;
  match arr with
  | Some l => Ok [json_dumps (PList l)]
  | None =>
      inner <- try_message_content s ;;
      found <- (match inner with
                | Some (c :: i') =>
                    a <- try_top_struct (c :: i') ;;
                    or_else a (last_array (c :: i'))
                | _ => Ok None
                end) ;;
      match found with
      | Some l => Ok [json_dumps (PList l)]
      | None =>
          arr' <- last_array s ;;
          match arr' with
          | Some l => Ok [json_dumps (PList l)]
          | None => Ok [py "[]"]
          end
      end
  end.

End Engines.

(** ** What the specification says, in its own words *)

(** The nine required keys of a Finding Record, as the specification
    lists them. *)
Definition nine_keys : list str :=
  [py "path"; py "cwe_guess"; py "severity"; py "confidence"; py "lines";
   py "snippet"; py "evidence"; py "reasoning"; py "fix"].

Definition has_key (d : dict) (k : str) : bool :=
  match dict_lookup d k with Some _ => true | None => false end.

Definition field_is (p : pyval -> bool) (d : dict) (k : str) : bool :=
  match dict_lookup d k with Some v => p v | None => false end.

(** A number: an integer or a float.  A boolean is not a number. *)
Definition is_number (v : pyval) : bool :=
  match v with PInt _ | PFloat _ => true | _ => false end.

Definition is_boolean (v : pyval) : bool :=
  match v with PBool _ => true | _ => false end.

Definition is_nonempty_sequence (v : pyval) : bool :=
  match v with PList (_ :: _) => true | _ => false end.

(** A Finding Record is valid when it is a mapping with all nine
    required keys, [path], [cwe_guess] and [severity] strings,
    [confidence] a number and [lines] a non-empty sequence. *)
Definition valid_finding (v : pyval) : bool :=
  match v with
  | PDict d =>
      forallb (has_key d) nine_keys
      && field_is isinstance_str d (py "path")
      && field_is isinstance_str d (py "cwe_guess")
      && field_is isinstance_str d (py "severity")
      && field_is is_number d (py "confidence")
      && field_is is_nonempty_sequence d (py "lines")
  | _ => false
  end.

(** The records that [score_array] counts: as a valid record, but
    [confidence] may also be a boolean.  Every valid record is one of
    them, so what is shown of such records holds of valid records. *)
Definition is_number_or_boolean (v : pyval) : bool :=
  (is_number v || is_boolean v)%bool.

Definition passes_checks (v : pyval) : bool :=
  match v with
  | PDict d =>
      forallb (has_key d) nine_keys
      && field_is isinstance_str d (py "path")
      && field_is isinstance_str d (py "cwe_guess")
      && field_is isinstance_str d (py "severity")
      && field_is is_number_or_boolean d (py "confidence")
      && field_is is_nonempty_sequence d (py "lines")
  | _ => false
  end.


Definition count (p : pyval -> bool) (l : list pyval) : Z :=
  Z.of_nat (length (filter p l)).

(** The Score of a value. *)
Definition score_of (v : pyval) : Z * Z :=
  match v with
  | PList l => (count passes_checks l, count isinstance_dict l)
  | _ => (-1, 0)
  end.

(** Lexicographic order on scores. *)
Definition score_lt (a b : Z * Z) : Prop :=
  fst a < fst b \/ (fst a = fst b /\ snd a < snd b).

(** Post-processing of one element: a copy with the snippet cut to 1600
    characters and the marker appended, for a mapping whose snippet is a
    longer string; the element itself otherwise. *)
Definition trim (it : pyval) : pyval :=
  match it with
  | PDict d =>
      match dict_lookup d (py "snippet") with
      | Some (PStr s) =>
          if (1600 <? length s)%nat
          then PDict (dict_set d (py "snippet") (PStr (firstn 1600 s ++ [ELLIPSIS])))
          else it
      | _ => it
      end
  | _ => it
  end.

(** The state of the selection loop is either the initial one or an
    array with its score, which is then above the initial score. *)
Definition select_inv (st : pyval * (Z * Z)) : Prop :=
  st = (PNone, (-1, 0))
  \/ (snd st = score_of (fst st) /\ score_lt (-1, 0) (snd st)).

(** The result of the strict engine, from the final state of the
    selection loop. *)
Definition accepted (st : pyval * (Z * Z)) : list pyval :=
  match fst st with
  | PList l => if 0 <? fst (snd st) then map trim l else []
  | _ => []
  end.

Section Candidates.

Variable json_loads : str -> option pyval.

(** The Candidate Value of a candidate: itself when it is a mapping or a
    sequence, its parse when it is a string that parses, nothing
    otherwise. *)
Definition candidate_value (c : pyval) : pyval :=
  match c with
  | PDict _ | PList _ => c
  | PStr s => match json_loads s with Some v => v | None => PNone end
  | _ => PNone
  end.

(** A mapping with a [findings] array is unwrapped before scoring. *)
Definition unwrapped (v : pyval) : pyval :=
  match v with
  | PDict d =>
      match dict_lookup d (py "findings") with
      | Some (PList l) => PList l
      | _ => v
      end
  | _ => v
  end.

Definition candidate_array (c : pyval) : pyval := unwrapped (candidate_value c).
Definition candidate_score (c : pyval) : Z * Z := score_of (candidate_array c).

(** One round of the selection loop, as a function on its state. *)
Definition keep_better (st : pyval * (Z * Z)) (c : pyval) : pyval * (Z * Z) :=
  if tuple_gt (candidate_score c) (snd st)
  then (candidate_array c, candidate_score c)
  else st.

(** What one wrapper key contributes to strategy 2. *)
Definition envelope_of (d : dict) (k : str) : list pyval :=
  match dict_lookup d k with
  | Some (PDict v) =>
      match dict_lookup v (py "content") with
      | Some (PStr c) => [PStr c]
      | _ => []
      end
  | Some (PStr s) => [PStr s]
  | _ => []
  end.

(** The candidates of the five strategies, in order. *)
Definition whole_text_candidates (text : str) : list pyval :=
  match json_loads text with Some v => [v] | None => [] end.

Definition envelope_candidates (text : str) : list pyval :=
  match json_loads text with
  | Some (PDict d) => flat_map (envelope_of d) wrapper_keys
  | _ => []
  end.

Definition fence_candidates (text : str) : list pyval :=
  map (fun m => PStr (group1 text m)) (finditer fence_re text).

Definition findings_candidates (text : str) : list pyval :=
  map (fun m => PStr (group0 text m)) (finditer findings_re text).

Definition bracket_candidates (text : str) : list pyval :=
  map PStr (balanced_arrays text).

(** The candidates cut out of the text itself (strategies 3 to 5). *)
Definition fragment_candidates (text : str) : list pyval :=
  fence_candidates text ++ findings_candidates text ++ bracket_candidates text.

(** All the candidates, in the order the generator yields them. *)
Definition candidates (text : str) : list pyval :=
  whole_text_candidates text
  ++ envelope_candidates text
  ++ fragment_candidates text.

(** The final state of the selection loop. *)
Definition selected (text : str) : res (pyval * (Z * Z)) :=
  for_gen (json_candidates json_loads text) (PNone, (-1, 0))
    (select_step json_loads).

End Candidates.

(** ** The trimming loop over a store of objects

    In Python the elements of [best] are references.  The loop is
    embedded a second time over an explicit store, to tell a copy from
    an update in place: a [dict] object lives at an address of the
    store, [it.copy()] allocates the next free address, and
    [it["snippet"] = ...] updates the object at the address [it] then
    holds. *)








(** ** Bracket spans, as the specification describes them *)

(** Text whose square brackets are matched. *)
Inductive balanced : str -> Prop :=
| balanced_nil : balanced []
| balanced_char (b : str) (c : N) :
    balanced b -> c <> LBRACK -> c <> RBRACK -> balanced (b ++ [c])
| balanced_nest (b m : str) :
    balanced b -> balanced m -> balanced (b ++ LBRACK :: m ++ [RBRACK]).

(** The stack algorithm without a cap.  For each closing bracket that
    closes an open one, in the order of the closing brackets: the start
    of the span, its end, and the number of brackets still open. *)
Fixpoint stack_scan (rest : str) (i : nat) (stack : list nat)
  : list (nat * nat * nat) :=
  match rest with
  | [] => []
  | c :: rest' =>
      if N.eqb c LBRACK then stack_scan rest' (S i) (i :: stack)
      else if N.eqb c RBRACK then
        match stack with
        | start :: stack' =>
            (start, (i + 1)%nat, length stack') :: stack_scan rest' (S i) stack'
        | [] => stack_scan rest' (S i) []
        end
      else stack_scan rest' (S i) stack
  end.

Definition bracket_spans (text : str) : list (nat * nat * nat) :=
  stack_scan text 0 [].

Definition span_text (text : str) (sp : nat * nat * nat) : str :=
  slice text (fst (fst sp)) (snd (fst sp)).

Definition span_end (sp : nat * nat * nat) : nat := snd (fst sp).

(** [sp] is a bracket pair of [text] around matched text. *)
Definition matched_span (text : str) (sp : nat * nat * nat) : Prop :=
  exists p m q,
    text = p ++ LBRACK :: m ++ RBRACK :: q
    /\ balanced m
    /\ fst (fst sp) = length p
    /\ snd (fst sp) = (length p + length m + 2)%nat.

(** A span is top-level when no bracket is open after it. *)
Definition is_top (sp : nat * nat * nat) : bool := Nat.eqb (snd sp) 0.

(** The last element of a list, or [d]. *)
Definition last_or {A} (l : list A) (d : option A) : option A :=
  fold_left (fun _ x => Some x) l d.

(** The most recently closed top-level span. *)
Definition last_top_span (text : str) : option (nat * nat) :=
  last_or (map fst (filter is_top (bracket_spans text))) None.

(** The document the lenient engine prints when only the last-array
    scan is left to try. *)
Definition fallback_document (json_loads : str -> option pyval) (text : str)
  : str :=
  match last_top_span text with
  | Some (a, b) =>
      match json_loads (slice text a b) with
      | Some (PList l) => json_dumps (PList l)
      | _ => py "[]"
      end
  | None => py "[]"
  end.

(** The open brackets of a prefix [pre] of the text: [stack] holds
    their positions, and the text after each is matched. *)
Inductive stack_ok : str -> list nat -> Prop :=
| stack_ok_nil (pre : str) : stack_ok pre []
| stack_ok_cons (pre0 b : str) (stack : list nat) :
    stack_ok pre0 stack -> balanced b ->
    stack_ok (pre0 ++ LBRACK :: b) (length pre0 :: stack).

(** A hundred disjoint bracket spans. *)
Definition hundred_spans : str := concat (repeat (py "[]") 100).

(** ** Worked inputs

    In these literals an apostrophe stands for a double quote. *)
Definition text_of (s : string) : str :=
  map (fun c => if N.eqb c (ch "'") then QUOTE else c) (py s).

(** The record of the wrapper example of the specification. *)
Definition record_text : str :=
  text_of "{'path':'a.c','cwe_guess':'CWE-1','severity':'high','confidence':0.9,'lines':[1,2],'snippet':'x','evidence':'e','reasoning':'r','fix':'f'}".

Definition record_value : pyval :=
  PDict [(py "path", PStr (py "a.c")); (py "cwe_guess", PStr (py "CWE-1"));
         (py "severity", PStr (py "high"));
         (py "confidence", PFloat (FFinite false 9 (-1)));
         (py "lines", PList [PInt 1; PInt 2]); (py "snippet", PStr (py "x"));
         (py "evidence", PStr (py "e")); (py "reasoning", PStr (py "r"));
         (py "fix", PStr (py "f"))].

(** The wrapper example of the specification. *)
Definition wrapper_text : str :=
  text_of "{'message': {'content': '[{\'path\':\'a.c\',\'cwe_guess\':\'CWE-1\',\'severity\':\'high\',\'confidence\':0.9,\'lines\':[1,2],\'snippet\':\'x\',\'evidence\':\'e\',\'reasoning\':\'r\',\'fix\':\'f\'}]'}}".

(** The wrapper example wrapped once more: the content is the text of
    the wrapper example, as a string literal. *)
Definition double_wrapper_text : str :=
  text_of "{'message': {'content': " ++ encode_str wrapper_text ++ py "}}".



(** A string literal whose content is the array of that record. *)
Definition literal_text : str :=
  text_of "'[{\'path\':\'a.c\',\'cwe_guess\':\'CWE-1\',\'severity\':\'high\',\'confidence\':0.9,\'lines\':[1,2],\'snippet\':\'x\',\'evidence\':\'e\',\'reasoning\':\'r\',\'fix\':\'f\'}]'".

(** A valid record whose [evidence] is an array of two valid records. *)
Definition inner_record_text : string :=
  "{'path':'a','cwe_guess':'b','severity':'c','confidence':1,'lines':[1],'snippet':'s','evidence':0,'reasoning':'r','fix':'f'}".

Definition inner_record : pyval :=
  PDict [(py "path", PStr (py "a")); (py "cwe_guess", PStr (py "b"));
         (py "severity", PStr (py "c")); (py "confidence", PInt 1);
         (py "lines", PList [PInt 1]); (py "snippet", PStr (py "s"));
         (py "evidence", PInt 0); (py "reasoning", PStr (py "r"));
         (py "fix", PStr (py "f"))].

Definition outer_record : pyval :=
  PDict [(py "path", PStr (py "a")); (py "cwe_guess", PStr (py "b"));
         (py "severity", PStr (py "c")); (py "confidence", PInt 1);
         (py "lines", PList [PInt 1]); (py "snippet", PStr (py "s"));
         (py "evidence", PList [inner_record; inner_record]);
         (py "reasoning", PStr (py "r")); (py "fix", PStr (py "f"))].

Definition nested_text : str :=
  text_of ("[{'path':'a','cwe_guess':'b','severity':'c','confidence':1,'lines':[1],'snippet':'s','evidence':["
           ++ inner_record_text ++ "," ++ inner_record_text
           ++ "],'reasoning':'r','fix':'f'}]").

(** Prose around a single bracketed span, and prose without brackets. *)
Definition prose_with_span : str := py "The values are [1,2,3] as said.".
Definition plain_prose : str := py "Nothing was found, sorry.".

(** An array of one mapping that is not a valid record but holds, under
    a key, an array of one valid record. *)
Definition hidden_record_text : str :=
  text_of ("[{'other': [" ++ inner_record_text ++ "]}]").


(** A valid record whose snippet is 2000 characters long, as text and
    as value, and the record the engine returns for it. *)
Definition long_record_fields (snippet : str) : dict :=
  [(py "path", PStr (py "a")); (py "cwe_guess", PStr (py "b"));
   (py "severity", PStr (py "c")); (py "confidence", PInt 1);
   (py "lines", PList [PInt 1]); (py "snippet", PStr snippet);
   (py "evidence", PInt 0); (py "reasoning", PStr (py "r"));
   (py "fix", PStr (py "f"))].

Definition long_snippet : str := repeat (ch "x") 2000.

Definition long_text : str :=
  text_of "[{'path':'a','cwe_guess':'b','severity':'c','confidence':1,'lines':[1],'snippet':'"
  ++ long_snippet
  ++ text_of "','evidence':0,'reasoning':'r','fix':'f'}]".

(** ** What a pattern matches *)

Definition all_in (p : N -> bool) (w : str) : Prop :=
  Forall (fun c => p c = true) w.

(** The texts one item can consume. *)
Definition item_matches (it : re_item) (w : str) : Prop :=
  match it with
  | RChar p => exists c, w = [c] /\ p c = true
  | RStar p | RLazy p => all_in p w
  | ROpen | RClose => w = []
  end.

(** The texts a pattern can consume, item after item. *)
Fixpoint re_matches (r : regex) (w : str) : Prop :=
  match r with
  | [] => w = []
  | it :: r' =>
      exists w1 w2, w = w1 ++ w2 /\ item_matches it w1 /\ re_matches r' w2
  end.

(** The shape of a match of strategy 4: an opening brace, text without
    braces, the quoted word [findings], a colon with optional white space
    around it, an opening bracket, any text, a closing bracket, text
    without braces, a closing brace. *)
Definition findings_shape (w : str) : Prop :=
  exists pre ws1 ws2 mid post,
    w = LBRACE :: pre ++ QUOTE :: py "findings" ++ QUOTE :: ws1
        ++ COLON :: ws2 ++ LBRACK :: mid ++ RBRACK :: post ++ [RBRACE]
    /\ all_in not_brace pre /\ all_in not_brace post
    /\ all_in py_isspace ws1 /\ all_in py_isspace ws2.



(** ** Text inside a string literal *)

(** Every double quote of [s] comes right after a backslash, [prev]
    being the character before [s]. *)
Fixpoint guarded (prev : N) (s : str) : Prop :=
  match s with
  | [] => True
  | c :: r => (c = QUOTE -> prev = BACKSLASH) /\ guarded c r
  end.

(** Text that does not start a string literal and holds only guarded
    quotes: what a fragment cut out of the body of a string literal
    looks like. *)
Definition quoteless (s : str) : Prop :=
  exists prev, prev <> BACKSLASH /\ guarded prev s.

(** A character of the text around a string literal. *)
Definition outer (c : N) : Prop := is_json_ws c = true \/ c = QUOTE.

(** An object without any string or key in it: every mapping in it is
    empty. *)
Fixpoint no_keys (v : pyval) : Prop :=
  match v with
  | PStr _ => False
  | PList l =>
      (fix all (l : list pyval) : Prop :=
         match l with
         | [] => True
         | x :: r => no_keys x /\ all r
         end) l
  | PDict d => d = []
  | _ => True
  end.

Definition token_plain (t : token) : Prop :=
  match t with
  | TStr _ => False
  | TAtom v => no_keys v
  | _ => True
  end.

(** [w] is matched by [r] from position [i], the span of group 1 going
    from [g] to [g']. *)
Fixpoint re_captures (r : regex) (w : str) (i : nat) (g g' : nat * nat) : Prop :=
  match r with
  | [] => w = [] /\ g' = g
  | RChar p :: r' =>
      exists c w', w = c :: w' /\ p c = true /\ re_captures r' w' (S i) g g'
  | RStar p :: r' | RLazy p :: r' =>
      exists w1 w2,
        w = w1 ++ w2 /\ all_in p w1
        /\ re_captures r' w2 (i + length w1) g g'
  | ROpen :: r' => re_captures r' w i (i, snd g) g'
  | RClose :: r' => re_captures r' w i (fst g, i) g'
  end.

(** ** JSON text, after RFC 8259 *)

Definition is_ws (w : str) : Prop := all_in is_json_ws w.

Definition is_hex (c : N) : bool :=
  (is_digit c || ((97 <=? c) && (c <=? 102)) || ((65 <=? c) && (c <=? 70)))%N%bool.

(** The characters between the quotes of a string: unescaped
    characters, two-character escapes, and [\uXXXX]. *)
Inductive string_items : str -> Prop :=
| items_nil : string_items []
| items_char (c : N) (r : str) :
    (32 <= c)%N -> c <> QUOTE -> c <> BACKSLASH -> (c <= 1114111)%N ->
    string_items r -> string_items (c :: r)
| items_escape (e : N) (r : str) :
    In e [QUOTE; BACKSLASH; ch "/"; ch "b"; ch "f"; ch "n"; ch "r"; ch "t"] ->
    string_items r -> string_items (BACKSLASH :: e :: r)
| items_unicode (h1 h2 h3 h4 : N) (r : str) :
    is_hex h1 = true -> is_hex h2 = true -> is_hex h3 = true ->
    is_hex h4 = true ->
    string_items r ->
    string_items (BACKSLASH :: ch "u" :: h1 :: h2 :: h3 :: h4 :: r).

Definition json_string (s : str) : Prop :=
  exists body, s = QUOTE :: body ++ [QUOTE] /\ string_items body.

Definition is_digits (d : str) : Prop := d <> [] /\ all_in is_digit d.

(** [number = [ minus ] int [ frac ] [ exp ]]. *)
Definition json_number (s : str) : Prop :=
  exists sign ip frac ex,
    s = sign ++ ip ++ frac ++ ex
    /\ (sign = [] \/ sign = py "-")
    /\ is_int_part ip = true
    /\ (frac = [] \/ exists d, frac = ch "." :: d /\ is_digits d)
    /\ (ex = [] \/ exists e sg d,
           ex = e :: sg ++ d /\ (e = ch "e" \/ e = ch "E")
           /\ (sg = [] \/ sg = py "-" \/ sg = py "+") /\ is_digits d).

Inductive json_value : str -> Prop :=
| value_null : json_value (py "null")
| value_true : json_value (py "true")
| value_false : json_value (py "false")
| value_number (s : str) : json_number s -> json_value s
| value_string (s : str) : json_string s -> json_value s
| value_empty_array (w : str) :
    is_ws w -> json_value (LBRACK :: w ++ [RBRACK])
| value_array (es : str) :
    json_elements es -> json_value (LBRACK :: es ++ [RBRACK])
| value_empty_object (w : str) :
    is_ws w -> json_value (LBRACE :: w ++ [RBRACE])
| value_object (ms : str) :
    json_members ms -> json_value (LBRACE :: ms ++ [RBRACE])
with json_elements : str -> Prop :=
| elements_last (w1 v w2 : str) :
    is_ws w1 -> json_value v -> is_ws w2 -> json_elements (w1 ++ v ++ w2)
| elements_more (w1 v w2 es : str) :
    is_ws w1 -> json_value v -> is_ws w2 -> json_elements es ->
    json_elements (w1 ++ v ++ w2 ++ COMMA :: es)
with json_members : str -> Prop :=
| members_last (w1 k w2 w3 v w4 : str) :
    is_ws w1 -> json_string k -> is_ws w2 -> is_ws w3 -> json_value v ->
    is_ws w4 ->
    json_members (w1 ++ k ++ w2 ++ COLON :: w3 ++ v ++ w4)
| members_more (w1 k w2 w3 v w4 ms : str) :
    is_ws w1 -> json_string k -> is_ws w2 -> is_ws w3 -> json_value v ->
    is_ws w4 -> json_members ms ->
    json_members (w1 ++ k ++ w2 ++ COLON :: w3 ++ v ++ w4 ++ COMMA :: ms).

Scheme json_value_mut := Minimality for json_value Sort Prop
  with json_elements_mut := Minimality for json_elements Sort Prop
  with json_members_mut := Minimality for json_members Sort Prop.

(** The items after the first of a printed array or object, each after
    a comma, a line break and the indentation. *)
Fixpoint array_tail (level : nat) (l : list pyval) : str :=
  match l with
  | [] => []
  | y :: l' =>
      COMMA :: newline_indent (S level) ++ dumps_at (S level) y
      ++ array_tail level l'
  end.

Fixpoint object_tail (level : nat) (d : list (str * pyval)) : str :=
  match d with
  | [] => []
  | (k, y) :: d' =>
      COMMA :: newline_indent (S level)
      ++ encode_str k ++ COLON :: 32%N :: dumps_at (S level) y
      ++ object_tail level d'
  end.

(** A JSON text that is an array. *)
Definition json_array_text (s : str) : Prop :=
  json_value s /\ exists r, s = LBRACK :: r.

(** An object without a non-finite float in it. *)
Definition finite_float (f : pyfloat) : Prop :=
  match f with FFinite _ _ _ => True | _ => False end.

Fixpoint finite (v : pyval) : Prop :=
  match v with
  | PFloat f => finite_float f
  | PList l =>
      (fix all (l : list pyval) : Prop :=
         match l with
         | [] => True
         | x :: r => finite x /\ all r
         end) l
  | PDict d =>
      (fix all (d : list (str * pyval)) : Prop :=
         match d with
         | [] => True
         | (_, x) :: r => finite x /\ all r
         end) d
  | _ => True
  end.

(** A check every JSON text passes: outside its string literals it
    holds only white space, the six structural characters, and the
    characters of numbers and of [true], [false], [null].  [mode] is 0
    outside a string, 1 inside one, 2 after a backslash inside one. *)
Definition token_char (c : N) : bool :=
  (is_json_ws c || is_number_char c
   || existsb (N.eqb c) (py "[]{}:,truefalsn"))%bool.

Fixpoint plain_outside (s : str) (mode : nat) : bool :=
  match s with
  | [] => Nat.eqb mode 0
  | c :: r =>
      match mode with
      | O => if N.eqb c QUOTE then plain_outside r 1
             else if token_char c then plain_outside r 0 else false
      | S O => if N.eqb c QUOTE then plain_outside r 0
               else if N.eqb c BACKSLASH then plain_outside r 2
               else plain_outside r 1
      | _ => plain_outside r 1
      end
  end.

(** [plain_outside] passes over [s] from outside a string to outside a
    string. *)
Definition passes (s : str) : Prop :=
  forall rest, plain_outside (s ++ rest) 0 = plain_outside rest 0.

(** Inputs with a float that is not a number. *)
Definition nan_array_text : str := py "[NaN]".
Definition nan_record_text : str :=
  text_of "[{'path':'a','cwe_guess':'b','severity':'c','confidence':NaN,'lines':[1],'snippet':'s','evidence':0,'reasoning':'r','fix':'f'}]".
Definition huge_number_text : str := py "[1e999]".

(** ** Vocabulary of the further properties *)

(** The [snippet] of [it], when [it] is a mapping that has one and it is
    a string, is at most [n] characters long. *)
Definition snippet_within (n : nat) (it : pyval) : Prop :=
  match it with
  | PDict d =>
      match dict_lookup d (py "snippet") with
      | Some (PStr s) => (length s <= n)%nat
      | _ => True
      end
  | _ => True
  end.

(** The string under [content] of the mapping under [message]. *)
Definition message_content (d : dict) : option str :=
  match dict_lookup d (py "message") with
  | Some (PDict md) =>
      match dict_lookup md (py "content") with
      | Some (PStr x) => Some x
      | _ => None
      end
  | _ => None
  end.

(** The first of the keys [ks] that [d] maps to a string, and that string. *)
Fixpoint first_string (d : dict) (ks : list str) : option str :=
  match ks with
  | [] => None
  | k :: r =>
      match dict_lookup d k with
      | Some (PStr x) => Some x
      | _ => first_string d r
      end
  end.

(** A [message] that is a string beside an [output], and the wrapper
    keys in an order that is not the order of the loop. *)
Definition blocked_text : str := text_of "{'message':'see output','output':'[1]'}".
Definition precedence_text : str :=
  text_of "{'text':'t','output':'o','message':{'content':'c'}}".

(** The array the lenient engine takes directly from the parse of the
    whole text. *)
Definition top_array (v : pyval) : option (list pyval) :=
  match v with
  | PList l => Some l
  | PDict d =>
      match dict_lookup d (py "findings") with
      | Some (PList l) => Some l
      | _ => None
      end
  | _ => None
  end.

(** A bracket that is never closed, before two arrays. *)
Definition unclosed_text : str := py "see [[1,2] and [3]".

(** The closing fence of strategy 3, and the position in [s] of its
    first occurrence. *)
Definition FENCE : str := [BACKTICK; BACKTICK; BACKTICK].

Fixpoint find_fence (s : str) : option nat :=
  match s with
  | [] => None
  | _ :: s' =>
      if prefixb FENCE s then Some 0%nat else option_map S (find_fence s')
  end.

(** [s] does not start with white space. *)
Definition no_leading_space (s : str) : Prop :=
  match s with
  | c :: _ => py_isspace c = false
  | [] => True
  end.

(** Two fenced blocks: an upper-case fence followed by a line break and
    indentation, a body with two backticks in it and four at its end;
    then a block without white space. *)
Definition fenced_text : str :=
  py "Here: ```JSON" ++ 10%N :: py "  [1] `` [2]```` and ```json[3]```".

(** Matches in the order of the text that do not overlap, each a
    non-empty span of the text. *)
Definition disjoint_hits (text : str) (hs : list re_hit) : Prop :=
  StronglySorted (fun a b => (hit_end a <= hit_start b)%nat) hs
  /\ Forall (fun h => (hit_start h < hit_end h <= length text)%nat) hs.

(** Text without an opening square bracket and without a backslash. *)
Definition plain_text (s : str) : Prop :=
  ~ In LBRACK s /\ ~ In BACKSLASH s.

(** An object without a list in it, whose strings (keys apart) are
    plain text. *)
Fixpoint bracketless (v : pyval) : Prop :=
  match v with
  | PStr x => plain_text x
  | PList _ => False
  | PDict d =>
      (fix all (d : list (str * pyval)) : Prop :=
         match d with
         | [] => True
         | (_, x) :: r => bracketless x /\ all r
         end) d
  | _ => True
  end.

Definition token_bracketless (t : token) : Prop :=
  match t with
  | TLBrack => False
  | TStr x => plain_text x
  | TAtom v => bracketless v
  | _ => True
  end.

(** A text without a square bracket whose string holds, written with
    escapes, an array with a valid record. *)
Definition escaped_brackets_text : str :=
  text_of "{'output':'\u005b{\'path\':\'a.c\',\'cwe_guess\':\'CWE-1\',\'severity\':\'high\',\'confidence\':1,\'lines\':\u005b1],\'snippet\':\'x\',\'evidence\':\'e\',\'reasoning\':\'r\',\'fix\':\'f\'}]'}".

(** ** Values that print and read back *)

(** The float the decoder builds from what [json.dumps] prints for [f]:
    [f] itself, but for a float that rounds to zero, which prints as
    [0.0]. *)
Definition canon_float (f : pyfloat) : pyfloat :=
  match f with
  | FFinite neg m e => if rounds_to_zero m e then FFinite neg 0 (-1) else f
  | _ => f
  end.

(** A string of code points in which no high surrogate is followed by
    a low one: the decoder would read the escapes of such a pair as one
    code point. *)
Fixpoint wellformed_str (s : str) : Prop :=
  match s with
  | [] => True
  | c :: r =>
      (c < 1114112)%N
      /\ match r with
         | c' :: _ => (is_high_surrogate c && is_low_surrogate c')%bool = false
         | [] => True
         end
      /\ wellformed_str r
  end.

(** The text after the escape of [c] does not go on with the escape of
    a low surrogate that would be joined to [c]. *)
Definition not_joined (c : N) (tail : str) : Prop :=
  match tail with
  | b :: u :: k1 :: k2 :: k3 :: k4 :: _ => joined_surrogates c b u k1 k2 k3 k4 = None
  | _ => True
  end.

(** An object [json.dumps] prints so that the decoder reads it back:
    no finite float too large to be one, strings and keys well formed,
    no key twice in a mapping. *)
Definition printable_float (f : pyfloat) : Prop :=
  match f with
  | FFinite _ m e => overflows m e = false
  | _ => True
  end.

Fixpoint printable (v : pyval) : Prop :=
  match v with
  | PFloat f => printable_float f
  | PStr s => wellformed_str s
  | PList l =>
      (fix all (l : list pyval) : Prop :=
         match l with
         | [] => True
         | x :: r => printable x /\ all r
         end) l
  | PDict d =>
      NoDup (map fst d)
      /\ (fix all (d : list (str * pyval)) : Prop :=
            match d with
            | [] => True
            | (k, x) :: r => wellformed_str k /\ printable x /\ all r
            end) d
  | _ => True
  end.

(** What the decoder reads back: the object itself, but for floats that
    round to zero. *)
Fixpoint canon (v : pyval) : pyval :=
  match v with
  | PFloat f => PFloat (canon_float f)
  | PList l => PList (map canon l)
  | PDict d => PDict (map (fun kv => (fst kv, canon (snd kv))) d)
  | _ => v
  end.

(** The tokens of what [json.dumps] prints for an object. *)
Fixpoint tokens_of (v : pyval) : list token :=
  match v with
  | PStr s => [TStr s]
  | PList [] => [TLBrack; TRBrack]
  | PList (x :: r) =>
      TLBrack :: tokens_of x
      ++ flat_map (fun y => TComma :: tokens_of y) r ++ [TRBrack]
  | PDict [] => [TLBrace; TRBrace]
  | PDict ((k, x) :: r) =>
      TLBrace :: TStr k :: TColon :: tokens_of x
      ++ flat_map (fun ky => TComma :: TStr (fst ky) :: TColon :: tokens_of (snd ky)) r
      ++ [TRBrace]
  | _ => [TAtom (canon v)]
  end.

(** The lexer without its fuel: [s] is cut into the tokens [ts]. *)
Inductive lexes : str -> list token -> Prop :=
| lexes_nil : lexes [] []
| lexes_skip (s r : str) (ts : list token) :
    lex_one s = Some (None, r) -> lexes r ts -> lexes s ts
| lexes_token (s r : str) (t : token) (ts : list token) :
    lex_one s = Some (Some t, r) -> lexes r ts -> lexes s (t :: ts).

(** [rest] does not go on with a character of a number. *)
Definition ends_number (rest : str) : Prop :=
  match rest with
  | c :: _ => is_number_char c = false
  | [] => True
  end.

(** [tok] starts as a number does: with a digit, or a minus sign and a
    digit. *)
Definition starts_number (tok : str) : Prop :=
  match tok with
  | c :: r =>
      is_digit c = true
      \/ (c = ch "-" /\ match r with d :: _ => is_digit d = true | [] => False end)
  | [] => False
  end.

(** A text of Unicode scalar values: code points that are not
    surrogates, which is what decoding a file or the standard input
    gives. *)
Definition scalar (c : N) : Prop :=
  (c < 1114112)%N /\ is_high_surrogate c = false /\ is_low_surrogate c = false.

Definition clean_text (s : str) : Prop := Forall scalar s.

(** A token that holds a printable string or object. *)
Definition token_printable (t : token) : Prop :=
  match t with
  | TStr x => wellformed_str x
  | TAtom v => printable v
  | _ => True
  end.

(** [scalar] as a check. *)
Definition scalarb (c : N) : bool :=
  ((c <? 1114112)%N && negb (is_high_surrogate c) && negb (is_low_surrogate c))%bool.

(** A wrapper around an empty array, and around prose, each beside an
    array of the outer text. *)
Definition empty_inner_text : str := text_of "{'output':' [ ] ', 'data':[1,2]}".
Definition prose_inner_text : str := text_of "{'output':'nothing', 'data':[1,2]}".

(** The number of closing brackets of a text. *)
Definition closings (s : str) : nat := length (filter (N.eqb RBRACK) s).

(** Prose with two arrays, the second one with a valid record, and a
    closing bracket that closes nothing. *)
Definition two_arrays_text : str :=
  py "first [0] then " ++ LBRACK :: record_text ++ RBRACK :: py " and ] more".



(** An opening fence: three backticks and [json] in any case. *)
Definition is_opening (w : str) : bool :=
  match w with
  | [a; b; c; j; s; o; n] =>
      is_char BACKTICK a && is_char BACKTICK b && is_char BACKTICK c
      && is_char_ci (ch "j") (ch "J") j && is_char_ci (ch "s") (ch "S") s
      && is_char_ci (ch "o") (ch "O") o && is_char_ci (ch "n") (ch "N") n
  | _ => false
  end.


(* ================================================================== *)
(** * Part II. Properties                                              *)
(* ================================================================== *)

(** ** Strings and dictionaries *)

Arguments py : simpl never.
Arguments issubset : simpl never.
Arguments str_eqb : simpl nomatch.
Arguments passes_checks : simpl never.
Arguments valid_finding : simpl never.
Arguments trim : simpl never.
Arguments REQUIRED : simpl never.

Lemma str_eqb_eq (a b : str) : str_eqb a b = true <-> a = b.
Proof.
  revert b; induction a as [|x a IH]; intros [|y b]; simpl;
    try (split; [discriminate | discriminate]); try tauto.
  rewrite andb_true_iff, N.eqb_eq, IH.
  split; [intros [-> ->]; reflexivity | intros H; inversion H; auto].
Qed.

Lemma str_eqb_refl (a : str) : str_eqb a a = true.
Proof. apply str_eqb_eq; reflexivity. Qed.

Lemma str_eqb_sym (a b : str) : str_eqb a b = str_eqb b a.
Proof.
  destruct (str_eqb a b) eqn:E.
  - apply str_eqb_eq in E; subst; symmetry; apply str_eqb_refl.
  - destruct (str_eqb b a) eqn:E'; [|reflexivity].
    apply str_eqb_eq in E'; subst; rewrite str_eqb_refl in E; discriminate.
Qed.

Lemma str_eqb_neq (a b : str) : str_eqb a b = false <-> a <> b.
Proof.
  split.
  - intros E ->; rewrite str_eqb_refl in E; discriminate.
  - intros N; destruct (str_eqb a b) eqn:E; [|reflexivity].
    apply str_eqb_eq in E; contradiction.
Qed.

Lemma existsb_keys (d : dict) (k : str) :
  existsb (str_eqb k) (map fst d) = has_key d k.
Proof.
  unfold has_key; induction d as [|[k' v] d IH]; simpl; [reflexivity|].
  rewrite (str_eqb_sym k k'); destruct (str_eqb k' k); simpl; auto.
Qed.

Lemma issubset_keys (d : dict) (ks : list str) :
  issubset ks (map fst d) = forallb (has_key d) ks.
Proof.
  unfold issubset; induction ks as [|k ks IH]; simpl; [reflexivity|].
  rewrite existsb_keys, IH; reflexivity.
Qed.

Lemma dict_lookup_set_same (d : dict) (k : str) (v : pyval) :
  dict_lookup (dict_set d k v) k = Some v.
Proof.
  induction d as [|[k' v'] d IH]; simpl.
  - rewrite str_eqb_refl; reflexivity.
  - destruct (str_eqb k' k) eqn:E; simpl; rewrite E; auto.
Qed.



(** ** Scoring (claim C3) *)

(** The key set the code tests is the nine keys of the specification. *)
Lemma required_are_nine : REQUIRED = nine_keys.
Proof. reflexivity. Qed.

Lemma score_item_spec (ok : Z) (d : dict) :
  score_item ok (PDict d)
  = Ok (if passes_checks (PDict d) then ok + 1 else ok).
Proof.
  unfold score_item, passes_checks, field_is.
  cbn [py_keys py_get bind].
  rewrite issubset_keys, required_are_nine.
  destruct (forallb (has_key d) nine_keys); [|reflexivity].
  cbn [andb].
  destruct (dict_lookup d (py "path")) as [[]|]; try reflexivity.
  destruct (dict_lookup d (py "cwe_guess")) as [[]|]; try reflexivity.
  destruct (dict_lookup d (py "severity")) as [[]|]; try reflexivity.
  destruct (dict_lookup d (py "confidence")) as [[]|]; try reflexivity;
    (destruct (dict_lookup d (py "lines")) as [[| | | | |[|x l]|]|];
     reflexivity).
Qed.

Lemma score_loop_spec (objs : list pyval) (ok : Z) :
  Forall (fun it => isinstance_dict it = true) objs ->
  for_each objs ok score_item
  = Ok (ok + Z.of_nat (length (filter passes_checks objs))).
Proof.
  intros H; revert ok; induction H as [|it objs Hit _ IH]; intros ok; simpl.
  - f_equal; lia.
  - destruct it; try discriminate.
    rewrite score_item_spec; simpl.
    rewrite IH; destruct (passes_checks (PDict d)); simpl length; f_equal; lia.
Qed.

Lemma filter_valid_dicts (l : list pyval) :
  filter passes_checks (filter isinstance_dict l) = filter passes_checks l.
Proof.
  induction l as [|x l IH]; simpl; [reflexivity|].
  destruct x; simpl; auto.
  destruct (passes_checks (PDict d)); rewrite IH; reflexivity.
Qed.

Lemma score_array_spec (arr : pyval) : score_array arr = Ok (score_of arr).
Proof.
  destruct arr as [| | | | |l|]; try reflexivity.
  unfold score_array, score_of, count; simpl.
  destruct (filter isinstance_dict l) as [|o objs] eqn:E.
  - simpl; rewrite <- filter_valid_dicts, E; reflexivity.
  - change (negb (negb (Nat.eqb (length (o :: objs)) 0))) with false; simpl negb.
    cbv iota.
    rewrite score_loop_spec.
    + rewrite <- E, filter_valid_dicts; reflexivity.
    + rewrite <- E; apply Forall_forall; intros x Hx.
      apply filter_In in Hx; tauto.
Qed.

Lemma tuple_gt_spec (a b : Z * Z) : tuple_gt a b = true <-> score_lt b a.
Proof.
  unfold tuple_gt, score_lt.
  rewrite orb_true_iff, andb_true_iff, !Z.ltb_lt, Z.eqb_eq.
  intuition lia.
Qed.






(** ** Candidate generation (claim C9) *)

Section StrictFacts.

Variable json_loads : str -> option pyval.

Lemma gen_for_yield {A} (l : list A) (f : A -> pyval) :
  gen_for l (fun x => yield (f x)) = (map f l, Ok tt).
Proof.
  induction l as [|x l IH]; [reflexivity|].
  cbn [gen_for gen_bind yield map]; rewrite IH; reflexivity.
Qed.

Lemma envelope_step (d : dict) (k : str) :
  (v <~ lift (py_get (PDict d) k) ;;
   inner <~ lift (if isinstance_dict v then
                    has <- py_contains v (py "content") ;;
                    if has then
                      c <- py_getitem v (py "content") ;;
                      Ok (isinstance_str c)
                    else Ok false
                  else Ok false) ;;
   if inner then
     c <~ lift (py_getitem v (py "content")) ;; yield c
   else if isinstance_str v then yield v
   else gen_ret tt)
  = (envelope_of d k, Ok tt).
Proof.
  unfold envelope_of; cbn [py_get lift gen_bind app].
  destruct (dict_lookup d k) as [v|]; [|reflexivity].
  destruct v; try reflexivity.
  cbn [isinstance_dict py_contains py_getitem bind lift gen_bind].
  destruct (dict_lookup d0 (py "content")) as [c|]; [|reflexivity].
  destruct c; reflexivity.
Qed.

Lemma envelope_loop (d : dict) (ks : list str) :
  gen_for ks (fun k =>
    v <~ lift (py_get (PDict d) k) ;;
    inner <~ lift (if isinstance_dict v then
                     has <- py_contains v (py "content") ;;
                     if has then
                       c <- py_getitem v (py "content") ;;
                       Ok (isinstance_str c)
                     else Ok false
                   else Ok false) ;;
    if inner then
      c <~ lift (py_getitem v (py "content")) ;; yield c
    else if isinstance_str v then yield v
    else gen_ret tt)
  = (flat_map (envelope_of d) ks, Ok tt).
Proof.
  induction ks as [|k ks IH]; [reflexivity|].
  cbn [gen_for flat_map]; rewrite envelope_step.
  cbn [gen_bind]; rewrite IH; reflexivity.
Qed.

Lemma gen_bind_ok {A B} (ys : list pyval) (a : A) (k : A -> gen B) :
  gen_bind (ys, Ok a) k = (ys ++ fst (k a), snd (k a)).
Proof. unfold gen_bind; destruct (k a); reflexivity. Qed.

(** The generator never raises, and yields the candidates of the five
    strategies in order. *)
Lemma json_candidates_spec (text : str) :
  json_candidates json_loads text
  = (whole_text_candidates json_loads text
     ++ envelope_candidates json_loads text
     ++ fragment_candidates text, Ok tt).
Proof.
  unfold json_candidates, whole_text_candidates, envelope_candidates,
    fragment_candidates, fence_candidates, findings_candidates,
    bracket_candidates.
  rewrite !gen_for_yield.
  unfold py_json_loads, lift.
  destruct (json_loads text) as [obj|].
  - rewrite !gen_bind_ok; cbn beta.
    assert (E : (if isinstance_dict obj
                 then gen_for wrapper_keys (fun k =>
                   v <~ (([], py_get obj k) : gen pyval) ;;
                   inner <~ (([], if isinstance_dict v then
                                    has <- py_contains v (py "content") ;;
                                    if has then
                                      c <- py_getitem v (py "content") ;;
                                      Ok (isinstance_str c)
                                    else Ok false
                                  else Ok false) : gen bool) ;;
                   if inner then
                     c <~ (([], py_getitem v (py "content")) : gen pyval) ;; yield c
                   else if isinstance_str v then yield v
                   else gen_ret tt)
                 else gen_ret tt)
                = (match obj with
                   | PDict d => flat_map (envelope_of d) wrapper_keys
                   | _ => []
                   end, Ok tt)).
    { destruct obj; try reflexivity. apply envelope_loop. }
    rewrite E; clear E.
    unfold yield, gen_try; cbn [fst snd app].
    cbn [gen_bind app]; reflexivity.
  - unfold gen_try, gen_bind; cbn [app]. reflexivity.
Qed.

(** ** Selection (claim C2) *)

Lemma load_json_spec (c : pyval) :
  load_json json_loads c = Ok (candidate_value json_loads c).
Proof.
  destruct c; try reflexivity.
  unfold load_json; cbn.
  destruct (json_loads s); reflexivity.
Qed.

Lemma unwrap_findings_spec (obj : pyval) :
  unwrap_findings obj = Ok (unwrapped obj).
Proof.
  destruct obj; try reflexivity.
  unfold unwrap_findings, unwrapped; cbn.
  destruct (dict_lookup d (py "findings")) as [[]|]; reflexivity.
Qed.

Lemma select_step_spec (st : pyval * (Z * Z)) (c : pyval) :
  select_step json_loads st c = Ok (keep_better json_loads st c).
Proof.
  unfold select_step, keep_better, candidate_score, candidate_array.
  rewrite load_json_spec; cbn [bind].
  rewrite unwrap_findings_spec; cbn [bind].
  rewrite score_array_spec; cbn [bind].
  destruct (tuple_gt _ _); reflexivity.
Qed.

Lemma select_loop_spec (cs : list pyval) (st : pyval * (Z * Z)) :
  for_each cs st (select_step json_loads) = Ok (fold_left (keep_better json_loads) cs st).
Proof.
  revert st; induction cs as [|c cs IH]; intros st; [reflexivity|].
  cbn [for_each fold_left]; rewrite select_step_spec; cbn [bind]; apply IH.
Qed.


Lemma keep_better_inv (st : pyval * (Z * Z)) (c : pyval) :
  select_inv st -> select_inv (keep_better json_loads st c).
Proof.
  intros H; unfold keep_better.
  destruct (tuple_gt _ _) eqn:E; [|exact H].
  right; cbn [fst snd]; split; [reflexivity|].
  apply tuple_gt_spec in E.
  destruct H as [-> | [_ H]]; [exact E|].
  unfold score_lt in *; lia.
Qed.

Lemma fold_keep_better_inv (cs : list pyval) (st : pyval * (Z * Z)) :
  select_inv st -> select_inv (fold_left (keep_better json_loads) cs st).
Proof.
  revert st; induction cs as [|c cs IH]; intros st H; [exact H|].
  apply IH, keep_better_inv, H.
Qed.

(** ** Post-processing (claim C5) *)

Lemma trim_step_spec (out : list pyval) (it : pyval) :
  trim_step out it = Ok (out ++ [trim it]).
Proof.
  unfold trim_step, trim.
  destruct it; try reflexivity.
  cbn [isinstance_dict py_get bind].
  destruct (dict_lookup d (py "snippet")) as [sn|]; [|reflexivity].
  destruct sn; try reflexivity.
  cbn [isinstance_str py_len bind].
  destruct (1600 <? length s)%nat; reflexivity.
Qed.

Lemma trim_loop_spec (its out : list pyval) :
  for_each its out trim_step = Ok (out ++ map trim its).
Proof.
  revert out; induction its as [|it its IH]; intros out.
  - cbn; rewrite app_nil_r; reflexivity.
  - cbn [for_each map]; rewrite trim_step_spec; cbn [bind].
    rewrite IH, <- app_assoc; reflexivity.
Qed.

Lemma selected_spec (text : str) :
  selected json_loads text
  = Ok (fold_left (keep_better json_loads) (candidates json_loads text) (PNone, (-1, 0))).
Proof.
  unfold selected, for_gen; rewrite json_candidates_spec; cbn [fst snd].
  rewrite select_loop_spec; reflexivity.
Qed.

Lemma best_findings_spec (text : str) :
  best_findings json_loads text
  = Ok (accepted (fold_left (keep_better json_loads) (candidates json_loads text)
                    (PNone, (-1, 0)))).
Proof.
  unfold best_findings.
  change (for_gen (json_candidates json_loads text) (PNone, (-1, 0))
            (select_step json_loads)) with (selected json_loads text).
  rewrite selected_spec; cbn [bind].
  set (st := fold_left _ _ _).
  assert (I : select_inv st) by (apply fold_keep_better_inv; left; reflexivity).
  unfold accepted.
  destruct I as [-> | [I1 I2]]; [reflexivity|].
  destruct st as [best sc]; cbn [fst snd] in *.
  destruct best; cbn [is_none negb];
    rewrite ?score_array_spec; cbn [bind]; subst sc; cbn [score_of fst];
    try reflexivity.
  destruct (0 <? count passes_checks l); [|reflexivity].
  cbn [py_iter bind]; apply trim_loop_spec.
Qed.

End StrictFacts.
Section SelectionFacts.

Variable json_loads : str -> option pyval.

#[local] Abbreviation score := (candidate_score json_loads).
#[local] Abbreviation array := (candidate_array json_loads).
#[local] Abbreviation step := (keep_better json_loads).

(** Candidates below the retained score leave the state alone. *)
Lemma fold_no_better (cs : list pyval) (st : pyval * (Z * Z)) :
  (forall y, In y cs -> ~ score_lt (snd st) (score y)) ->
  fold_left step cs st = st.
Proof.
  revert st; induction cs as [|c cs IH]; intros st H; [reflexivity|].
  cbn [fold_left].
  assert (E : step st c = st).
  { unfold keep_better.
    destruct (tuple_gt (score c) (snd st)) eqn:G; [|reflexivity].
    apply tuple_gt_spec in G; exfalso; apply (H c); [left; reflexivity | exact G]. }
  rewrite E; apply IH; intros y Hy; apply H; right; exact Hy.
Qed.

(** Candidates all below [sc] keep the retained score below [sc]. *)
Lemma fold_stays_below (cs : list pyval) (st : pyval * (Z * Z)) (sc : Z * Z) :
  score_lt (snd st) sc ->
  (forall x, In x cs -> score_lt (score x) sc) ->
  score_lt (snd (fold_left step cs st)) sc.
Proof.
  revert st; induction cs as [|c cs IH]; intros st H0 H; [exact H0|].
  cbn [fold_left]; apply IH.
  - unfold keep_better; destruct (tuple_gt _ _); [|exact H0].
    cbn [snd]; apply H; left; reflexivity.
  - intros x Hx; apply H; right; exact Hx.
Qed.

(** The loop retains the first candidate that attains the greatest
    score, when that score is above the initial one. *)
Lemma fold_first_greatest (pre post : list pyval) (c : pyval) :
  (forall x, In x pre -> score_lt (score x) (score c)) ->
  (forall y, In y post -> ~ score_lt (score c) (score y)) ->
  score_lt (-1, 0) (score c) ->
  fold_left step (pre ++ c :: post) (PNone, (-1, 0)) = (array c, score c).
Proof.
  intros Hpre Hpost Hc.
  rewrite fold_left_app; cbn [fold_left].
  pose proof (fold_stays_below pre (PNone, (-1, 0)) (score c) Hc Hpre) as B.
  set (st := fold_left step pre (PNone, (-1, 0))) in *.
  assert (E : step st c = (array c, score c)).
  { unfold keep_better.
    destruct (tuple_gt (score c) (snd st)) eqn:G; [reflexivity|].
    apply tuple_gt_spec in B; congruence. }
  rewrite E; apply fold_no_better; exact Hpost.
Qed.

(** With no candidate of positive primary score, none is retained with
    one. *)
Lemma fold_primary_nonpos (cs : list pyval) (st : pyval * (Z * Z)) :
  fst (snd st) <= 0 ->
  (forall c, In c cs -> fst (score c) <= 0) ->
  fst (snd (fold_left step cs st)) <= 0.
Proof.
  revert st; induction cs as [|c cs IH]; intros st H0 H; [exact H0|].
  cbn [fold_left]; apply IH.
  - unfold keep_better; destruct (tuple_gt _ _); [|exact H0].
    cbn [snd]; apply H; left; reflexivity.
  - intros x Hx; apply H; right; exact Hx.
Qed.




End SelectionFacts.










(** ** Round trip (claim C1) and envelope (claim C9) *)

Lemma valid_is_dict (v : pyval) : passes_checks v = true -> isinstance_dict v = true.
Proof. destruct v; unfold passes_checks; try discriminate; reflexivity. Qed.

Lemma filter_all {A} (p : A -> bool) (l : list A) :
  Forall (fun x => p x = true) l -> filter p l = l.
Proof.
  induction 1 as [|x l H _ IH]; [reflexivity|]; cbn; rewrite H, IH; reflexivity.
Qed.

Lemma score_of_valid_records (recs : list pyval) :
  Forall (fun r => passes_checks r = true) recs ->
  score_of (PList recs) = (Z.of_nat (length recs), Z.of_nat (length recs)).
Proof.
  intros H; unfold score_of, count.
  rewrite !filter_all; [reflexivity | | exact H].
  eapply Forall_impl; [|exact H]; apply valid_is_dict.
Qed.

(** C1, as amended.  When the whole text parses as an array of [N >= 1]
    valid Finding Records, and no fragment cut out of the text (fenced
    block, object-with-findings match, balanced bracket span) has a score
    strictly greater than [(N, N)], the strict engine returns those [N]
    records, each post-processed, and the selected score is [(N, N)]. *)
Theorem C1_roundtrip_unless_outscored
  (json_loads : str -> option pyval) (text : str) (recs : list pyval) :
  json_loads text = Some (PList recs) ->
  recs <> [] ->
  Forall (fun r => passes_checks r = true) recs ->
  (forall c, In c (fragment_candidates text) ->
             ~ score_lt (Z.of_nat (length recs), Z.of_nat (length recs))
                 (candidate_score json_loads c)) ->
  best_findings json_loads text = Ok (map trim recs)
  /\ selected json_loads text
     = Ok (PList recs, (Z.of_nat (length recs), Z.of_nat (length recs)))
  /\ length (map trim recs) = length recs.
Proof.
  intros P Hne Hvalid Hfrag.
  assert (Hsc : candidate_score json_loads (PList recs)
                = (Z.of_nat (length recs), Z.of_nat (length recs))).
  { unfold candidate_score, candidate_array; cbn [candidate_value unwrapped].
    apply score_of_valid_records; exact Hvalid. }
  assert (Hcs : candidates json_loads text
                = [] ++ PList recs :: fragment_candidates text).
  { unfold candidates, whole_text_candidates, envelope_candidates.
    rewrite P; reflexivity. }
  assert (Hpos : 0 < Z.of_nat (length recs)).
  { destruct recs; [congruence | cbn [length]; lia]. }
  assert (F : fold_left (keep_better json_loads) (candidates json_loads text)
                (PNone, (-1, 0))
              = (PList recs, (Z.of_nat (length recs), Z.of_nat (length recs)))).
  { rewrite Hcs, fold_first_greatest.
    - rewrite Hsc; reflexivity.
    - intros x [].
    - rewrite Hsc; exact Hfrag.
    - rewrite Hsc; unfold score_lt; cbn; lia. }
  rewrite best_findings_spec, selected_spec, F.
  split; [|split; [reflexivity | apply length_map]].
  unfold accepted; cbn [fst snd].
  apply Z.ltb_lt in Hpos; rewrite Hpos; reflexivity.
Qed.

(** A decidable form of the side condition on the fragments. *)
Lemma fragments_checked (json_loads : str -> option pyval) (text : str)
  (sc : Z * Z) :
  forallb (fun c => negb (tuple_gt (candidate_score json_loads c) sc))
    (fragment_candidates text) = true ->
  forall c, In c (fragment_candidates text) ->
            ~ score_lt sc (candidate_score json_loads c).
Proof.
  intros H c Hc L; rewrite forallb_forall in H.
  apply H in Hc; apply tuple_gt_spec in L; rewrite L in Hc; discriminate.
Qed.

(** The amended round trip at the array holding the record of the
    specification. *)
Lemma C1_roundtrip_witness :
  best_findings json_decode (LBRACK :: record_text ++ [RBRACK])
  = Ok (map trim [record_value])
  /\ selected json_decode (LBRACK :: record_text ++ [RBRACK])
     = Ok (PList [record_value], (1, 1))
  /\ length (map trim [record_value]) = 1%nat.
Proof.
  apply (C1_roundtrip_unless_outscored json_decode
           (LBRACK :: record_text ++ [RBRACK]) [record_value]).
  - vm_compute; reflexivity.
  - discriminate.
  - repeat constructor.
  - apply fragments_checked; vm_compute; reflexivity.
Defined.

(** C1 as stated fails: the text is an array of one valid record, whose
    [evidence] field holds an array of two valid records; the bracket
    scan offers that inner array as a candidate, it scores [(2, 2)]
    against [(1, 1)], and the engine returns the two inner records. *)
Lemma C1_counterexample_nested_array :
  json_decode nested_text = Some (PList [outer_record])
  /\ valid_finding outer_record = true
  /\ best_findings json_decode nested_text = Ok [inner_record; inner_record]
  /\ best_findings json_decode nested_text <> Ok (map trim [outer_record])
  /\ selected json_decode nested_text
     = Ok (PList [inner_record; inner_record], (2, 2)).
Proof.
  assert (B : best_findings json_decode nested_text
              = Ok [inner_record; inner_record])
    by (vm_compute; reflexivity).
  split; [vm_compute; reflexivity|].
  split; [vm_compute; reflexivity|].
  split; [exact B|].
  split; [rewrite B; vm_compute; discriminate|].
  vm_compute; reflexivity.
Qed.

(** C9.  The generator never raises and yields, in this order: the
    parse of the whole text; when that parse is a mapping, for each of
    the keys [message], [output], [response], [content], [text] in turn
    the string under [content] of the value when the value is a mapping
    holding one, else the value itself when it is a string; then the
    fragments cut out of the text.  Each envelope candidate is a string,
    parsed once by the selection loop and not unwrapped again: a wrapper
    inside a wrapper is not opened.  On the wrapper example of the
    specification the engine returns the one embedded record. *)
Theorem C9_envelope_unwrap :
  (forall (json_loads : str -> option pyval) (text : str),
      json_candidates json_loads text
      = (whole_text_candidates json_loads text
         ++ envelope_candidates json_loads text
         ++ fragment_candidates text, Ok tt)
      /\ envelope_candidates json_loads text
         = match json_loads text with
           | Some (PDict d) =>
               envelope_of d (py "message") ++ envelope_of d (py "output")
               ++ envelope_of d (py "response") ++ envelope_of d (py "content")
               ++ envelope_of d (py "text")
           | _ => []
           end
      /\ Forall (fun c => isinstance_str c = true)
           (envelope_candidates json_loads text))
  /\ envelope_candidates json_decode wrapper_text
     = [PStr (LBRACK :: record_text ++ [RBRACK])]
  /\ json_decode record_text = Some record_value
  /\ best_findings json_decode wrapper_text = Ok [record_value]
  /\ envelope_candidates json_decode double_wrapper_text = [PStr wrapper_text]
  /\ best_findings json_decode double_wrapper_text = Ok [].
Proof.
  split; [|repeat split; vm_compute; reflexivity].
  intros json_loads text; split; [apply json_candidates_spec|]; split.
  - unfold envelope_candidates.
    destruct (json_loads text) as [[]|]; try reflexivity.
    cbn [wrapper_keys flat_map]; rewrite app_nil_r; reflexivity.
  - unfold envelope_candidates.
    destruct (json_loads text) as [[]|]; try constructor.
    apply Forall_flat_map, Forall_forall; intros k _.
    unfold envelope_of.
    destruct (dict_lookup d k) as [[]|]; try constructor; try reflexivity;
      try constructor.
    destruct (dict_lookup d0 (py "content")) as [[]|]; repeat constructor.
Qed.

(** ** The balanced-bracket scan (claim C7) *)

Lemma slice_app_exact (p f q : str) :
  slice (p ++ f ++ q) (length p) (length p + length f) = f.
Proof.
  unfold slice.
  rewrite skipn_app, skipn_all, Nat.sub_diag; cbn [skipn app].
  replace (length p + length f - length p)%nat with (length f) by lia.
  rewrite firstn_app, firstn_all, Nat.sub_diag; cbn; apply app_nil_r.
Qed.

Lemma matched_span_text (text : str) (sp : nat * nat * nat) :
  matched_span text sp ->
  exists m, span_text text sp = LBRACK :: m ++ [RBRACK] /\ balanced m.
Proof.
  intros (p & m & q & -> & B & E1 & E2); exists m; split; [|exact B].
  unfold span_text; rewrite E1, E2.
  replace (p ++ LBRACK :: m ++ RBRACK :: q)
    with (p ++ (LBRACK :: m ++ [RBRACK]) ++ q)
    by (cbn; rewrite <- app_assoc; reflexivity).
  replace (length p + length m + 2)%nat
    with (length p + length (LBRACK :: m ++ [RBRACK]))%nat
    by (cbn [length]; rewrite length_app; cbn; lia).
  apply slice_app_exact.
Qed.

(** The capped loop records the first 40 spans of the uncapped one. *)
Lemma scan_arrays_spec (text rest : str) (i : nat) (stack : list nat)
  (arrays : list str) :
  (length arrays < 40)%nat ->
  scan_arrays text rest i stack arrays
  = arrays ++ map (span_text text)
                (firstn (40 - length arrays) (stack_scan rest i stack)).
Proof.
  revert i stack arrays; induction rest as [|c rest IH]; intros i stack arrays L.
  - cbn; rewrite firstn_nil, app_nil_r; reflexivity.
  - cbn [scan_arrays stack_scan].
    destruct (N.eqb c LBRACK); [apply IH; exact L|].
    destruct (N.eqb c RBRACK); [|apply IH; exact L].
    destruct stack as [|start stack']; [apply IH; exact L|].
    cbv zeta.
    destruct (Nat.leb_spec 40 (length (arrays ++ [slice text start (i + 1)])))
      as [G|G]; rewrite length_app in G; cbn [length] in G.
    + replace (40 - length arrays)%nat with 1%nat by lia.
      cbn [firstn map]; reflexivity.
    + rewrite IH by (rewrite length_app; cbn; lia).
      rewrite length_app; cbn [length].
      replace (40 - length arrays)%nat with (S (40 - (length arrays + 1))) by lia.
      cbn [firstn map]; rewrite <- app_assoc; reflexivity.
Qed.

Lemma balanced_arrays_spec (text : str) :
  balanced_arrays text = map (span_text text) (firstn 40 (bracket_spans text)).
Proof.
  unfold balanced_arrays, bracket_spans.
  rewrite scan_arrays_spec by (cbn; lia); reflexivity.
Qed.

(** Every span the stack algorithm records is a bracket pair around
    matched text, ends after the position the scan is at, and the ends
    increase. *)
Lemma stack_scan_spans (rest pre : str) (stack : list nat) :
  stack_ok pre stack ->
  Forall (fun sp => matched_span (pre ++ rest) sp
                    /\ (length pre < span_end sp)%nat)
    (stack_scan rest (length pre) stack).
Proof.
  revert pre stack; induction rest as [|c rest IH]; intros pre stack Hok;
    [constructor|].
  assert (Enext : forall st,
             stack_ok (pre ++ [c]) st ->
             Forall (fun sp => matched_span (pre ++ c :: rest) sp
                               /\ (length pre < span_end sp)%nat)
               (stack_scan rest (S (length pre)) st)).
  { intros st Hst.
    specialize (IH (pre ++ [c]) st Hst).
    rewrite length_app, Nat.add_1_r, <- app_assoc in IH; cbn [app] in IH.
    eapply Forall_impl; [|exact IH]; cbn beta; intros sp [M L]; split; [exact M|lia]. }
  cbn [stack_scan].
  destruct (N.eqb_spec c LBRACK) as [->|NL].
  - apply Enext.
    apply (stack_ok_cons pre [] stack Hok balanced_nil).
  - destruct (N.eqb_spec c RBRACK) as [->|NR].
    + destruct stack as [|start stack'].
      * apply Enext; constructor.
      * inversion Hok as [|pre0 b stack0 Hok0 Hb E1 E2]; subst.
        constructor.
        -- split.
           ++ exists pre0, b, rest; rewrite <- app_assoc; cbn [app fst snd].
              repeat split; auto; rewrite length_app; cbn [length]; lia.
           ++ unfold span_end; cbn [fst snd]; lia.
        -- apply Enext.
           inversion Hok0 as [|pre1 b1 stack1 Hok1 Hb1 E3 E4]; subst;
             [constructor|].
           replace (((pre1 ++ LBRACK :: b1) ++ LBRACK :: b) ++ [RBRACK])
             with (pre1 ++ LBRACK :: (b1 ++ LBRACK :: b ++ [RBRACK]))
             by (repeat (rewrite <- app_assoc; cbn [app]); reflexivity).
           apply stack_ok_cons; [exact Hok1|].
           apply balanced_nest; assumption.
    + apply Enext.
      inversion Hok as [|pre0 b stack0 Hok0 Hb E1 E2]; subst; [constructor|].
      replace ((pre0 ++ LBRACK :: b) ++ [c]) with (pre0 ++ LBRACK :: (b ++ [c]))
        by (repeat (rewrite <- app_assoc; cbn [app]); reflexivity).
      apply stack_ok_cons; [exact Hok0|].
      apply balanced_char; assumption.
Qed.

Lemma stack_scan_sorted (rest : str) (i : nat) (stack : list nat) :
  Forall (fun sp => (i < span_end sp)%nat) (stack_scan rest i stack)
  /\ StronglySorted (fun a b => (span_end a < span_end b)%nat)
       (stack_scan rest i stack).
Proof.
  revert i stack; induction rest as [|c rest IH]; intros i stack;
    [split; constructor|].
  assert (Enext : forall st,
             Forall (fun sp => (i < span_end sp)%nat) (stack_scan rest (S i) st)).
  { intros st; destruct (IH (S i) st) as [F _].
    eapply Forall_impl; [|exact F]; cbn beta; intros; lia. }
  cbn [stack_scan].
  destruct (N.eqb c LBRACK); [split; [apply Enext | apply IH]|].
  destruct (N.eqb c RBRACK); [|split; [apply Enext | apply IH]].
  destruct stack as [|start stack']; [split; [apply Enext | apply IH]|].
  split.
  - constructor; [unfold span_end; cbn; lia | apply Enext].
  - constructor; [apply IH|].
    destruct (IH (S i) stack') as [F _].
    eapply Forall_impl; [|exact F]; unfold span_end; cbn; intros; lia.
Qed.

Lemma in_firstn {A} (n : nat) (l : list A) (x : A) :
  In x (firstn n l) -> In x l.
Proof.
  intros H; rewrite <- (firstn_skipn n l); apply in_or_app; left; exact H.
Qed.

Lemma bracket_spans_matched (text : str) :
  Forall (matched_span text) (bracket_spans text).
Proof.
  pose proof (stack_scan_spans text [] [] (stack_ok_nil [])) as S.
  eapply Forall_impl; [|exact S]; cbn; tauto.
Qed.

(** C7.  The bracket scan of strategy 5 records the spans of the stack
    algorithm in the order their closing brackets are met, and only the
    first 40 of them.  Each span runs from an open bracket to the
    bracket that closes it, the text in between having its brackets
    matched; the ends of the spans increase.  The scan is a total
    function of the text.  On a text of 100 disjoint spans the stack
    algorithm finds 100 and the scan records 40. *)
Theorem C7_bracket_scan_cap :
  (forall text : str,
      balanced_arrays text
      = map (span_text text) (firstn 40 (bracket_spans text))
      /\ (length (balanced_arrays text) <= 40)%nat
      /\ Forall (matched_span text) (bracket_spans text)
      /\ StronglySorted (fun a b => (span_end a < span_end b)%nat)
           (bracket_spans text)
      /\ Forall (fun f => exists m, f = LBRACK :: m ++ [RBRACK] /\ balanced m)
           (balanced_arrays text))
  /\ length (bracket_spans hundred_spans) = 100%nat
  /\ length (balanced_arrays hundred_spans) = 40%nat.
Proof.
  split; [|split; vm_compute; reflexivity].
  intros text.
  pose proof (bracket_spans_matched text) as M.
  split; [apply balanced_arrays_spec|].
  split; [rewrite balanced_arrays_spec, length_map, length_firstn; lia|].
  split; [exact M|].
  split; [apply stack_scan_sorted|].
  rewrite balanced_arrays_spec.
  apply Forall_map.
  assert (M' : Forall (matched_span text) (firstn 40 (bracket_spans text))).
  { rewrite Forall_forall in *; intros sp Hsp; apply M.
    eapply in_firstn; exact Hsp. }
  eapply Forall_impl; [|exact M'].
  intros sp Hsp; apply matched_span_text; exact Hsp.
Qed.

(** ** The lenient engine (claim C8) *)

Lemma last_or_cons {A} (x : A) (l : list A) (d : option A) :
  last_or (x :: l) d = last_or l (Some x).
Proof. reflexivity. Qed.

(** The depth counter of [last_array] follows the stack of the stack
    algorithm: [depth] is the height of the stack and [start] the
    position at its bottom. *)
Lemma last_step_refines (rest : str) (i : nat) (stack : list nat)
  (start : option nat) (lst : option (nat * nat)) :
  (stack <> [] -> start = Some (last stack 0%nat)) ->
  snd (fold_left last_step (combine (seq i (length rest)) rest)
         (start, length stack, lst))
  = last_or (map fst (filter is_top (stack_scan rest i stack))) lst.
Proof.
  revert i stack start lst; induction rest as [|c rest IH];
    intros i stack start lst Hs; [reflexivity|].
  cbn [length seq combine fold_left stack_scan last_step].
  destruct (N.eqb c LBRACK).
  - change (S (length stack)) with (length (i :: stack)).
    apply IH; intros _.
    destruct stack as [|s stack']; [reflexivity|].
    rewrite Hs by discriminate.
    cbn [length Nat.eqb]; reflexivity.
  - destruct (N.eqb c RBRACK); [|apply IH; exact Hs].
    destruct stack as [|s stack']; [apply IH; exact Hs|].
    cbn [length filter is_top snd].
    destruct stack' as [|s' stack''].
    + unfold is_top at 1; cbn [length snd Nat.eqb map fst]; rewrite last_or_cons.
      rewrite Hs by discriminate; cbn [last].
      apply (IH (S i) [] (Some s)); congruence.
    + unfold is_top at 1; cbn [length snd Nat.eqb].
      apply (IH (S i) (s' :: stack'')); intros _.
      rewrite Hs by discriminate; reflexivity.
Qed.

Lemma last_span_spec (text : str) : last_span text = last_top_span text.
Proof.
  unfold last_span, last_top_span, enumerate, bracket_spans.
  apply (last_step_refines text 0 [] None None); congruence.
Qed.

Lemma last_or_in {A} (l : list A) (d : option A) (x : A) :
  last_or l d = Some x -> In x l \/ d = Some x.
Proof.
  revert d; induction l as [|y l IH]; intros d H; [right; exact H|].
  rewrite last_or_cons in H; apply IH in H.
  destruct H as [H|H]; [left; right; exact H | left; left; congruence].
Qed.

Lemma last_top_span_matched (text : str) (a b : nat) :
  last_top_span text = Some (a, b) ->
  In (a, b, 0%nat) (bracket_spans text) /\ matched_span text (a, b, 0%nat).
Proof.
  intros H; apply last_or_in in H; destruct H as [H|H]; [|discriminate].
  apply in_map_iff in H; destruct H as ([[a' b'] d] & E & H).
  cbn in E; inversion E; subst.
  apply filter_In in H; destruct H as [H T].
  unfold is_top in T; cbn in T; apply Nat.eqb_eq in T; subst d.
  split; [exact H|].
  pose proof (bracket_spans_matched text) as M.
  rewrite Forall_forall in M; apply M; exact H.
Qed.

(** C8.  The depth counter of [last_array] finds the most recently
    closed top-level span of the stack algorithm, which is a bracket
    pair around matched text.  When the whole-text parse gives neither
    an array nor a mapping with a [findings] array and the envelope
    unwrap gives no string, the lenient engine prints the parse of that
    span if it is an array, and the empty array otherwise, without
    raising.  Prose around the single span [[1,2,3]] gives [[1,2,3]];
    prose without brackets gives the empty array. *)
Theorem C8_lenient_fallback :
  (forall text : str,
      last_span text = last_top_span text
      /\ forall a b, last_top_span text = Some (a, b) ->
                     In (a, b, 0%nat) (bracket_spans text)
                     /\ matched_span text (a, b, 0%nat))
  /\ (forall (json_loads : str -> option pyval) (text : str),
        try_top_struct json_loads text = Ok None ->
        try_message_content json_loads text = Ok None ->
        main_json json_loads text = Ok [fallback_document json_loads text])
  /\ main_json json_decode prose_with_span
     = Ok [json_dumps (PList [PInt 1; PInt 2; PInt 3])]
  /\ main_json json_decode plain_prose = Ok [py "[]"].
Proof.
  split; [|split; [|split; vm_compute; reflexivity]].
  - intros text; split; [apply last_span_spec | apply last_top_span_matched].
  - intros json_loads text H1 H2.
    unfold main_json; rewrite H1; cbn [bind]; rewrite H2; cbn [bind].
    unfold last_array, fallback_document; rewrite last_span_spec.
    destruct (last_top_span text) as [[a b]|]; [|reflexivity].
    cbn [py_json_loads].
    destruct (json_loads (slice text a b)) as [[]|]; reflexivity.
Qed.

(** ** The patterns (claim C6) *)

(** The backtracking matcher only returns matches of the pattern. *)
Lemma re_match_sound (r : regex) (s : str) (i : nat) (g : nat * nat)
  (e : nat) (g' : nat * nat) :
  re_match r s i g = Some (e, g') ->
  exists w rest, s = w ++ rest /\ re_matches r w /\ e = (i + length w)%nat.
Proof.
  revert s i g e g'; induction r as [|it r IH]; intros s i g e g' H.
  - cbn in H; inversion H; subst.
    exists [], s; cbn; repeat split; lia.
  - destruct it as [p|p|p| |].
    + cbn in H; destruct s as [|c s']; [discriminate|].
      destruct (p c) eqn:P; [|discriminate].
      apply IH in H; destruct H as (w & rest & -> & M & ->).
      exists (c :: w), rest; split; [reflexivity|]; split; [|cbn; lia].
      exists [c], w; repeat split; [exists c; auto | exact M].
    + cbn [re_match] in H.
      revert i g H; induction s as [|c s' IHs]; intros i g H.
      * apply IH in H; destruct H as (w & rest & E & M & ->).
        exists w, rest; split; [exact E|]; split; [|reflexivity].
        exists [], w; repeat split; auto; constructor.
      * assert (Hskip : re_match r (c :: s') i g = Some (e, g') ->
                 exists w rest, c :: s' = w ++ rest
                   /\ re_matches (RStar p :: r) w /\ e = (i + length w)%nat).
        { intros H'; apply IH in H'; destruct H' as (w & rest & E & M & ->).
          exists w, rest; split; [exact E|]; split; [|reflexivity].
          exists [], w; repeat split; auto; constructor. }
        destruct (p c) eqn:P; [|apply Hskip; exact H].
        match type of H with
        | match ?x with _ => _ end = _ => destruct x as [[e1 g1]|] eqn:S1
        end; [|apply Hskip; exact H].
        inversion H; subst e1 g1.
        apply IHs in S1; destruct S1 as (w & rest & -> & (w1 & w2 & -> & A & M) & ->).
        exists (c :: w1 ++ w2), rest; split; [reflexivity|].
        split; [|cbn; lia].
        exists (c :: w1), w2; repeat split; auto; constructor; auto.
    + cbn [re_match] in H.
      revert i g H; induction s as [|c s' IHs]; intros i g H.
      * destruct (re_match r [] i g) as [[e1 g1]|] eqn:S1; [|discriminate].
        inversion H; subst e1 g1.
        apply IH in S1; destruct S1 as (w & rest & E & M & ->).
        exists w, rest; split; [exact E|]; split; [|reflexivity].
        exists [], w; repeat split; auto; constructor.
      * destruct (re_match r (c :: s') i g) as [[e1 g1]|] eqn:S1.
        -- inversion H; subst e1 g1.
           apply IH in S1; destruct S1 as (w & rest & E & M & ->).
           exists w, rest; split; [exact E|]; split; [|reflexivity].
           exists [], w; repeat split; auto; constructor.
        -- destruct (p c) eqn:P; [|discriminate].
           apply IHs in H; destruct H as (w & rest & -> & (w1 & w2 & -> & A & M) & ->).
           exists (c :: w1 ++ w2), rest; split; [reflexivity|].
           split; [|cbn; lia].
           exists (c :: w1), w2; repeat split; auto; constructor; auto.
    + cbn in H; apply IH in H; destruct H as (w & rest & E & M & ->).
      exists w, rest; split; [exact E|]; split; [|reflexivity].
      exists [], w; repeat split; auto.
    + cbn in H; apply IH in H; destruct H as (w & rest & E & M & ->).
      exists w, rest; split; [exact E|]; split; [|reflexivity].
      exists [], w; repeat split; auto.
Qed.

(** Every hit of [finditer] is an occurrence in the text of a match of
    the pattern. *)
Lemma finditer_from_sound (r : regex) (s : str) (i skip : nat) (h : re_hit) :
  In h (finditer_from r s i skip) ->
  exists pre w rest,
    s = pre ++ w ++ rest
    /\ hit_start h = (i + length pre)%nat
    /\ hit_end h = (hit_start h + length w)%nat
    /\ re_matches r w.
Proof.
  revert i skip; induction s as [|c s IH]; intros i skip H; [destruct H|].
  assert (Hnext : forall k,
             In h (finditer_from r s (S i) k) ->
             exists pre w rest,
               c :: s = pre ++ w ++ rest
               /\ hit_start h = (i + length pre)%nat
               /\ hit_end h = (hit_start h + length w)%nat
               /\ re_matches r w).
  { intros k Hk; apply IH in Hk.
    destruct Hk as (pre & w & rest & -> & E1 & E2 & M).
    exists (c :: pre), w, rest; cbn [length app]; repeat split; auto; lia. }
  cbn [finditer_from] in H.
  destruct skip as [|k]; [|apply (Hnext k); exact H].
  destruct (re_match r (c :: s) i (0%nat, 0%nat)) as [[e g]|] eqn:M;
    [|apply (Hnext 0%nat); exact H].
  destruct H as [<-|H]; [|eapply Hnext; exact H].
  apply re_match_sound in M; destruct M as (w & rest & E & M & ->).
  exists [], w, rest; cbn [app length hit_start hit_end]; repeat split; auto; lia.
Qed.

Lemma finditer_sound (r : regex) (text : str) (h : re_hit) :
  In h (finditer r text) ->
  exists pre rest,
    text = pre ++ group0 text h ++ rest /\ re_matches r (group0 text h).
Proof.
  intros H; apply finditer_from_sound in H.
  destruct H as (pre & w & rest & E & E1 & E2 & M).
  assert (G : group0 text h = w).
  { unfold group0; rewrite E2, E1, E; cbn [Nat.add]; apply slice_app_exact. }
  exists pre, rest; rewrite G; auto.
Qed.

Lemma is_char_eq (x c : N) : is_char x c = true -> c = x.
Proof. apply N.eqb_eq. Qed.

(** What the pattern of strategy 4 matches has the shape the amended
    claim describes. *)
Lemma findings_re_shape (w : str) : re_matches findings_re w -> findings_shape w.
Proof.
  unfold findings_re, RLit.
  let v := eval vm_compute in (py "findings") in
    change (py "findings") with v.
  cbn [map app re_matches item_matches].
  intros H.
  repeat match goal with
         | H : exists _, _ |- _ => destruct H
         | H : _ /\ _ |- _ => destruct H
         | H : is_char _ _ = true |- _ => apply is_char_eq in H
         end; subst.
  unfold findings_shape.
  match goal with
  | H1 : all_in not_brace ?pre, H2 : all_in py_isspace ?ws1,
    H3 : all_in py_isspace ?ws2, H4 : all_in any_char ?mid,
    H5 : all_in not_brace ?post |- _ =>
      exists pre, ws1, ws2, mid, post
  end.
  repeat split; auto.
Qed.



(** ** The claims at concrete inputs *)






(** The engine on that record: the snippet comes back as its first 1600
    characters and the marker, the other fields as they were. *)
Example long_snippet_is_cut :
  json_decode long_text = Some (PList [PDict (long_record_fields long_snippet)])
  /\ best_findings json_decode long_text
     = Ok [PDict (long_record_fields (repeat (ch "x") 1600 ++ [ELLIPSIS]))].
Proof. split; vm_compute; reflexivity. Qed.


(** C8 at prose around a single bracketed span. *)
Lemma C8_fallback_witness :
  main_json json_decode prose_with_span
  = Ok [fallback_document json_decode prose_with_span].
Proof.
  apply (proj1 (proj2 C8_lenient_fallback) json_decode prose_with_span);
    vm_compute; reflexivity.
Defined.

(** ** A string literal that holds the array (claim C10) *)

Lemma guarded_any_prev (p p' c : N) (s : str) :
  c <> QUOTE -> guarded p (c :: s) -> guarded p' (c :: s).
Proof. cbn; intros N [_ G]; split; [intros E; contradiction | exact G]. Qed.

Lemma last_default {A} (a : list A) (d d' : A) :
  a <> [] -> last a d = last a d'.
Proof.
  induction a as [|x a IH]; [congruence|]; intros _.
  destruct a as [|y a]; [reflexivity|].
  apply IH; discriminate.
Qed.

Lemma guarded_app (p : N) (a b : str) :
  guarded p (a ++ b) -> guarded p a /\ guarded (last a p) b.
Proof.
  revert p; induction a as [|c a IH]; intros p G; [cbn; auto|].
  cbn [app guarded] in G; destruct G as [G1 G2].
  apply IH in G2; destruct G2 as [G2 G3].
  split; [cbn; auto|].
  destruct a as [|y a]; [exact G3|].
  change (last (c :: y :: a) p) with (last (y :: a) p).
  rewrite (last_default (y :: a) p c) by discriminate; exact G3.
Qed.

Lemma last_in_or {A} (a : list A) (d : A) : a <> [] -> In (last a d) a.
Proof.
  induction a as [|x a IH]; [congruence|]; intros _.
  destruct a as [|y a]; [left; reflexivity|].
  right; apply IH; discriminate.
Qed.

(** Dropping a non-empty prefix without backslash from quoteless text
    leaves quoteless text. *)
Lemma quoteless_drop (a b : str) :
  a <> [] -> ~ In BACKSLASH a -> quoteless (a ++ b) -> quoteless b.
Proof.
  intros Ne Nb (p & Hp & G).
  apply guarded_app in G; destruct G as [_ G].
  exists (last a p); split; [|exact G].
  intros E; apply Nb; rewrite <- E; apply last_in_or; exact Ne.
Qed.

Lemma quoteless_head (c : N) (s : str) : quoteless (c :: s) -> c <> QUOTE.
Proof. intros (p & Hp & G & _) E; apply Hp, G, E. Qed.

Lemma prefixb_spec (w s : str) :
  prefixb w s = true -> s = w ++ skipn (length w) s.
Proof.
  revert s; induction w as [|x w IH]; intros s H; [reflexivity|].
  destruct s as [|y s]; [discriminate|].
  cbn in H; apply andb_true_iff in H; destruct H as [E H].
  apply N.eqb_eq in E; subst y; cbn; f_equal; apply IH; exact H.
Qed.

Lemma match_word_spec (ws : list (str * pyval)) (s r : str) (v : pyval) :
  match_word ws s = Some (v, r) -> exists w, In (w, v) ws /\ s = w ++ r.
Proof.
  induction ws as [|[w v'] ws IH]; [discriminate|]; cbn [match_word].
  destruct (prefixb w s) eqn:P.
  - intros H; inversion H; subst; exists w; split; [left; reflexivity|].
    apply prefixb_spec; exact P.
  - intros H; apply IH in H; destruct H as (w0 & I & E).
    exists w0; split; [right; exact I | exact E].
Qed.

Lemma span_spec (p : N -> bool) (s a b : str) :
  span p s = (a, b) -> s = a ++ b /\ all_in p a.
Proof.
  revert a b; induction s as [|c s IH]; intros a b H.
  - inversion H; split; [reflexivity | constructor].
  - cbn in H; destruct (p c) eqn:P.
    + destruct (span p s) as [a' b'] eqn:S; inversion H; subst.
      destruct (IH a' b eq_refl) as [-> F].
      split; [reflexivity | constructor; assumption].
    + inversion H; subst; split; [reflexivity | constructor].
Qed.

Lemma number_value_plain (tok : str) (v : pyval) :
  number_value tok = Some v -> tok <> [] /\ no_keys v.
Proof.
  intros H; split; [intros ->; discriminate H|].
  unfold number_value in H.
  repeat match type of H with
         | (let (_, _) := ?x in _) = _ => destruct x
         | match ?x with _ => _ end = _ => destruct x
         | (if ?x then _ else _) = _ => destruct x
         end; try discriminate; inversion H; exact I.
Qed.

Lemma words_plain (w : str) (v : pyval) :
  In (w, v) words -> w <> [] /\ ~ In BACKSLASH w /\ no_keys v.
Proof.
  unfold words; cbn [In].
  intros H; repeat destruct H as [H|H]; try contradiction;
    inversion H; subst; (split; [discriminate|]; split; [|exact I]);
    vm_compute; intros K;
    repeat (destruct K as [K|K]; [discriminate K|]); exact K.
Qed.

Lemma number_chars_no_backslash (tok : str) :
  all_in is_number_char tok -> ~ In BACKSLASH tok.
Proof.
  intros F K; unfold all_in in F; rewrite Forall_forall in F.
  apply F in K; vm_compute in K; discriminate.
Qed.

(** One step of the lexer on quoteless text gives no string token and
    leaves quoteless text. *)
Lemma lex_one_quoteless (s r : str) (t : option token) :
  quoteless s -> lex_one s = Some (t, r) ->
  match t with Some x => token_plain x | None => True end /\ quoteless r.
Proof.
  intros Q H; destruct s as [|c s]; [discriminate|].
  pose proof (quoteless_head c s Q) as NQ.
  assert (Drop1 : c <> BACKSLASH -> quoteless s).
  { intros NB; apply (quoteless_drop [c] s); [discriminate| |exact Q].
    intros [E|[]]; congruence. }
  cbn [lex_one] in H.
  destruct (is_json_ws c) eqn:W.
  { inversion H; subst; split; [exact I|apply Drop1].
    intros ->; discriminate W. }
  repeat match type of H with
         | (if N.eqb c ?k then _ else _) = _ =>
             let E := fresh "E" in
             destruct (N.eqb_spec c k) as [E|E];
             [try (inversion H; subst; split;
                   [exact I|apply Drop1; intros K; vm_compute in K; discriminate K])|]
         end.
  - contradiction.
  - destruct (match_word words (c :: s)) as [[v r']|] eqn:MW.
    + inversion H; subst.
      apply match_word_spec in MW; destruct MW as (w & Hw & Es).
      apply words_plain in Hw; destruct Hw as (Ne & Nb & Pv).
      split; [exact Pv|].
      rewrite Es in Q; apply (quoteless_drop w r Ne Nb Q).
    + destruct (span is_number_char (c :: s)) as [tok r'] eqn:S.
      destruct (number_value tok) as [v|] eqn:NV; [|discriminate].
      inversion H; subst.
      apply span_spec in S; destruct S as [Es F].
      apply number_value_plain in NV; destruct NV as [Ne Pv].
      split; [exact Pv|].
      rewrite Es in Q; apply (quoteless_drop tok r Ne); [|exact Q].
      apply number_chars_no_backslash; exact F.
Qed.

Lemma lex_quoteless (fuel : nat) (s : str) (ts : list token) :
  quoteless s -> lex fuel s = Some ts -> Forall token_plain ts.
Proof.
  revert s ts; induction fuel as [|f IH]; intros s ts Q H.
  - destruct s; [inversion H; constructor | discriminate].
  - destruct s as [|c s]; [inversion H; constructor|].
    cbn [lex] in H.
    destruct (lex_one (c :: s)) as [[t r]|] eqn:L; [|discriminate].
    destruct (lex f r) as [ts'|] eqn:L'; [|discriminate].
    inversion H; subst.
    destruct (lex_one_quoteless (c :: s) r t Q L) as [Pt Qr].
    specialize (IH r ts' Qr L').
    destruct t; [constructor; assumption | exact IH].
Qed.

Lemma no_keys_list (l : list pyval) : no_keys (PList l) <-> Forall no_keys l.
Proof.
  induction l as [|x l IH]; cbn.
  - split; [constructor | trivial].
  - split.
    + intros [H1 H2]; constructor; [exact H1 | apply IH; exact H2].
    + intros H; inversion H; subst; split; [assumption | apply IH; assumption].
Qed.

(** The parser builds no string and no non-empty mapping from tokens
    without strings. *)
Lemma parse_plain (fuel : nat) :
  (forall ts v r,
      Forall token_plain ts -> parse_value fuel ts = Some (v, r) ->
      no_keys v /\ Forall token_plain r)
  /\ (forall ts acc v r,
        Forall token_plain ts -> Forall no_keys acc ->
        parse_elems fuel ts acc = Some (v, r) ->
        no_keys v /\ Forall token_plain r)
  /\ (forall ts acc,
        Forall token_plain ts -> parse_members fuel ts acc = None).
Proof.
  induction fuel as [|f (IHv & IHe & IHm)].
  - repeat split; intros; discriminate || reflexivity.
  - split; [|split].
    + intros ts v r P H; cbn [parse_value] in H.
      destruct ts as [|t ts]; [discriminate|].
      inversion P as [|? ? Pt Pts]; subst.
      destruct t; try discriminate.
      * destruct ts as [|t' ts']; [rewrite IHm in H by constructor; discriminate|].
        destruct t'; try (rewrite IHm in H by exact Pts; discriminate).
        inversion H; subst; split; [reflexivity|].
        inversion Pts; assumption.
      * destruct ts as [|t' ts'].
        { apply (IHe [] [] v r) in H; auto; constructor. }
        destruct t'; try (apply (IHe _ [] v r) in H; auto; constructor).
        inversion H; subst; split; [exact I|].
        inversion Pts; assumption.
      * contradiction.
      * inversion H; subst; split; [exact Pt | exact Pts].
    + intros ts acc v r P A H; cbn [parse_elems] in H.
      destruct (parse_value f ts) as [[x r']|] eqn:V; [|discriminate].
      destruct (IHv ts x r' P V) as [Px Pr'].
      assert (A' : Forall no_keys (acc ++ [x]))
        by (apply Forall_app; split; [exact A | constructor; [exact Px | constructor]]).
      destruct r' as [|t r'']; [discriminate|].
      inversion Pr'; subst.
      destruct t; try discriminate.
      * inversion H; subst; split; [apply no_keys_list; exact A' | assumption].
      * apply (IHe r'' (acc ++ [x]) v r); assumption.
    + intros ts acc P; cbn [parse_members].
      destruct ts as [|t ts]; [reflexivity|].
      destruct t; try reflexivity.
      inversion P; subst; contradiction.
Qed.

Lemma json_decode_quoteless (s : str) (v : pyval) :
  quoteless s -> json_decode s = Some v -> no_keys v.
Proof.
  intros Q H; unfold json_decode in H.
  destruct (lex (length s) s) as [ts|] eqn:L; [|discriminate].
  apply (lex_quoteless _ _ _ Q) in L.
  destruct (parse_value (2 * length ts + 2) ts) as [[x r]|] eqn:V; [|discriminate].
  destruct r; [|discriminate]; inversion H; subst.
  destruct (parse_plain (2 * length ts + 2)) as [PV _].
  apply (PV ts v [] L V).
Qed.

Lemma no_keys_not_valid (v : pyval) : no_keys v -> passes_checks v = false.
Proof.
  destruct v; try reflexivity.
  cbn; intros ->; reflexivity.
Qed.

(** A quoteless fragment never scores a valid record. *)
Lemma quoteless_score (s : str) :
  quoteless s -> fst (candidate_score json_decode (PStr s)) <= 0.
Proof.
  intros Q; unfold candidate_score, candidate_array; cbn [candidate_value].
  destruct (json_decode s) as [v|] eqn:D; [|cbn; lia].
  apply (json_decode_quoteless s v Q) in D.
  destruct v; cbn [unwrapped]; try (cbn; lia).
  - cbn [score_of fst]; unfold count.
    apply no_keys_list in D.
    replace (filter passes_checks l) with (@nil pyval); [cbn; lia|].
    symmetry; induction D as [|x l Hx _ IH]; [reflexivity|].
    cbn [filter]; rewrite (no_keys_not_valid x Hx); exact IH.
  - cbn in D; subst d; cbn; lia.
Qed.

Lemma guarded_cons (p c : N) (r : str) :
  c <> QUOTE -> guarded c r -> guarded p (c :: r).
Proof. intros N G; split; [intros E; contradiction | exact G]. Qed.

Lemma hex_value_not_quote (h x : N) : hex_value h = Some x -> h <> QUOTE.
Proof. intros H ->; discriminate H. Qed.

Lemma hex4_value_not_quote (a b c d x : N) :
  hex4_value a b c d = Some x ->
  a <> QUOTE /\ b <> QUOTE /\ c <> QUOTE /\ d <> QUOTE.
Proof.
  unfold hex4_value; intros H.
  destruct (hex_value a) eqn:A; [|discriminate].
  destruct (hex_value b) eqn:B; [|discriminate].
  destruct (hex_value c) eqn:C; [|discriminate].
  destruct (hex_value d) eqn:D; [|discriminate].
  repeat split; eapply hex_value_not_quote; eassumption.
Qed.

Lemma joined_surrogates_escape (c1 b u k1 k2 k3 k4 j : N) :
  joined_surrogates c1 b u k1 k2 k3 k4 = Some j ->
  b = BACKSLASH /\ u <> QUOTE
  /\ k1 <> QUOTE /\ k2 <> QUOTE /\ k3 <> QUOTE /\ k4 <> QUOTE.
Proof.
  unfold joined_surrogates; intros H.
  destruct (is_high_surrogate c1); [|discriminate].
  destruct (N.eqb_spec b BACKSLASH) as [->|]; [|discriminate].
  destruct (N.eqb_spec u (ch "u")) as [->|]; [|discriminate].
  cbn [andb] in H.
  destruct (hex4_value k1 k2 k3 k4) eqn:K; [|discriminate].
  apply hex4_value_not_quote in K.
  split; [reflexivity|]; split; [discriminate | exact K].
Qed.

(** The body of a string literal ends at its first quote that does not
    follow a backslash of an escape: every quote inside it is guarded. *)
Lemma scan_string_guarded (n : nat) (s acc x rest : str) :
  (length s <= n)%nat ->
  scan_string s acc = Some (x, rest) ->
  exists body, s = body ++ QUOTE :: rest /\ forall p, guarded p body.
Proof.
  revert s acc; induction n as [|n IH]; intros s acc L H;
    destruct s as [|c r]; try discriminate; cbn [length] in L; [lia|].
  cbn [scan_string] in H.
  destruct (N.eqb_spec c QUOTE) as [->|NQ].
  { inversion H; subst; exists []; split; [reflexivity | intros; exact I]. }
  destruct (N.eqb_spec c BACKSLASH) as [->|NB].
  - destruct r as [|e r']; [discriminate|]; cbn [length] in L.
    destruct (N.eqb_spec e (ch "u")) as [->|NU].
    + destruct r' as [|h1 [|h2 [|h3 [|h4 r'']]]]; try discriminate.
      cbn [length] in L.
      destruct (hex4_value h1 h2 h3 h4) as [c1|] eqn:HX; [|discriminate].
      apply hex4_value_not_quote in HX; destruct HX as (N1 & N2 & N3 & N4).
      assert (Plain : scan_string r'' (c1 :: acc) = Some (x, rest) ->
                exists body,
                  BACKSLASH :: ch "u" :: h1 :: h2 :: h3 :: h4 :: r''
                  = body ++ QUOTE :: rest /\ forall p, guarded p body).
      { intros H'; apply IH in H'; [|lia].
        destruct H' as (body & -> & G).
        exists (BACKSLASH :: ch "u" :: h1 :: h2 :: h3 :: h4 :: body).
        split; [reflexivity|]; intros p.
        repeat (apply guarded_cons; [assumption || discriminate|]); apply G. }
      destruct r'' as [|b [|u [|k1 [|k2 [|k3 [|k4 r6]]]]]]; try (apply Plain; exact H).
      destruct (joined_surrogates c1 b u k1 k2 k3 k4) as [j|] eqn:J;
        [|apply Plain; exact H].
      apply joined_surrogates_escape in J.
      destruct J as (-> & M0 & M1 & M2 & M3 & M4).
      cbn [length] in L; apply IH in H; [|lia].
      destruct H as (body & -> & G).
      exists (BACKSLASH :: ch "u" :: h1 :: h2 :: h3 :: h4
              :: BACKSLASH :: u :: k1 :: k2 :: k3 :: k4 :: body).
      split; [reflexivity|]; intros p.
      repeat (apply guarded_cons; [assumption || discriminate|]); apply G.
    + destruct (simple_escape e); [|discriminate].
      apply IH in H; [|lia]; destruct H as (body & -> & G).
      exists (BACKSLASH :: e :: body); split; [reflexivity|]; intros p.
      apply guarded_cons; [discriminate|].
      split; [reflexivity | apply G].
  - destruct (c <? 32)%N; [discriminate|].
    apply IH in H; [|lia]; destruct H as (body & -> & G).
    exists (c :: body); split; [reflexivity|]; intros p.
    apply guarded_cons; [exact NQ | apply G].
Qed.

(** What one step of the lexer consumed, by the token it gives. *)
Lemma lex_one_cases (s r : str) (t : option token) :
  lex_one s = Some (t, r) ->
  match t with
  | None => exists c, s = c :: r /\ is_json_ws c = true
  | Some (TStr x) => exists s', s = QUOTE :: s' /\ scan_string s' [] = Some (x, r)
  | Some (TAtom v) => no_keys v
  | Some _ => True
  end.
Proof.
  intros H; destruct s as [|c s]; [discriminate|]; cbn [lex_one] in H.
  destruct (is_json_ws c) eqn:W; [inversion H; subst; eauto|].
  repeat match type of H with
         | (if N.eqb c ?k then _ else _) = _ =>
             let E := fresh "E" in
             destruct (N.eqb_spec c k) as [E|E];
             [try (inversion H; subst; exact I)|]
         end.
  - subst c; destruct (scan_string s []) as [[x r']|] eqn:SS; [|discriminate].
    inversion H; subst; eauto.
  - destruct (match_word words (c :: s)) as [[v r']|] eqn:MW.
    + inversion H; subst.
      apply match_word_spec in MW; destruct MW as (w & Hw & _).
      apply words_plain in Hw; tauto.
    + destruct (span is_number_char (c :: s)) as [tok r'].
      destruct (number_value tok) as [v|] eqn:NV; [|discriminate].
      inversion H; subst; apply number_value_plain in NV; tauto.
Qed.

Lemma lex_nil (fuel : nat) (s : str) :
  lex fuel s = Some [] -> all_in is_json_ws s.
Proof.
  revert s; induction fuel as [|f IH]; intros s H;
    (destruct s as [|c s]; [constructor|]); [discriminate|].
  cbn [lex] in H.
  destruct (lex_one (c :: s)) as [[t r]|] eqn:L; [|discriminate].
  destruct (lex f r) as [ts|] eqn:L'; [|discriminate].
  apply lex_one_cases in L.
  destruct t as [t|]; [discriminate|].
  inversion H; subst ts.
  destruct L as (c' & E & W); inversion E; subst.
  constructor; [exact W | apply IH; exact L'].
Qed.

Lemma lex_atoms (fuel : nat) (s : str) (ts : list token) :
  lex fuel s = Some ts ->
  Forall (fun t => match t with TAtom v => no_keys v | _ => True end) ts.
Proof.
  revert s ts; induction fuel as [|f IH]; intros s ts H;
    (destruct s as [|c s]; [inversion H; constructor|]); [discriminate|].
  cbn [lex] in H.
  destruct (lex_one (c :: s)) as [[t r]|] eqn:L; [|discriminate].
  destruct (lex f r) as [ts'|] eqn:L'; [|discriminate].
  apply lex_one_cases in L; apply IH in L'.
  inversion H; subst.
  destruct t as [t|]; [|exact L'].
  constructor; [|exact L'].
  destruct t; try exact I; exact L.
Qed.

(** Text that lexes to a single string token is one string literal
    between white space. *)
Lemma lex_single_string (fuel : nat) (s x : str) :
  lex fuel s = Some [TStr x] ->
  exists ws1 body ws2,
    s = ws1 ++ QUOTE :: body ++ QUOTE :: ws2
    /\ all_in is_json_ws ws1 /\ all_in is_json_ws ws2
    /\ forall p, guarded p body.
Proof.
  revert s; induction fuel as [|f IH]; intros s H;
    (destruct s as [|c s]; [discriminate|]); [discriminate|].
  cbn [lex] in H.
  destruct (lex_one (c :: s)) as [[t r]|] eqn:L; [|discriminate].
  destruct (lex f r) as [ts'|] eqn:L'; [|discriminate].
  apply lex_one_cases in L.
  destruct t as [t|].
  - inversion H; subst.
    destruct L as (s' & E & SS); inversion E; subst.
    apply (scan_string_guarded (length s') s' [] x r (le_n _)) in SS.
    destruct SS as (body & -> & G).
    exists [], body, r; repeat split; auto; [constructor|].
    apply (lex_nil f); exact L'.
  - inversion H; subst ts'.
    destruct L as (c' & E & W); inversion E; subst.
    apply IH in L'; destruct L' as (ws1 & body & ws2 & -> & W1 & W2 & G).
    exists (c' :: ws1), body, ws2; repeat split; auto.
    constructor; assumption.
Qed.

Lemma parse_containers (fuel : nat) :
  (forall ts acc v r, parse_elems fuel ts acc = Some (v, r) -> exists l, v = PList l)
  /\ (forall ts acc v r, parse_members fuel ts acc = Some (v, r) -> exists d, v = PDict d).
Proof.
  induction fuel as [|f [IHe IHm]]; [split; intros; discriminate|].
  split.
  - intros ts acc v r H; cbn [parse_elems] in H.
    destruct (parse_value f ts) as [[x [|t r']]|]; try discriminate.
    destruct t; try discriminate; [inversion H; eauto | eapply IHe; exact H].
  - intros ts acc v r H; cbn [parse_members] in H.
    destruct ts as [|t ts]; [discriminate|].
    destruct t; try discriminate.
    destruct ts as [|t' ts]; [discriminate|].
    destruct t'; try discriminate.
    destruct (parse_value f ts) as [[x [|t r']]|]; try discriminate.
    destruct t; try discriminate; [inversion H; eauto | eapply IHm; exact H].
Qed.

Lemma parse_value_string (fuel : nat) (ts r : list token) (x : str) :
  parse_value fuel ts = Some (PStr x, r) ->
  ts = TStr x :: r \/ ts = TAtom (PStr x) :: r.
Proof.
  destruct fuel as [|f]; [discriminate|]; cbn [parse_value].
  destruct (parse_containers f) as [PE PM].
  destruct ts as [|t ts]; [discriminate|].
  destruct t; try discriminate.
  - destruct ts as [|t' ts'].
    + intros H; apply PM in H; destruct H; discriminate.
    + destruct t'; try (intros H; apply PM in H; destruct H; discriminate).
      discriminate.
  - destruct ts as [|t' ts'].
    + intros H; apply PE in H; destruct H; discriminate.
    + destruct t'; try (intros H; apply PE in H; destruct H; discriminate).
      discriminate.
  - intros H; inversion H; auto.
  - intros H; inversion H; auto.
Qed.

(** Text that decodes to a string is one string literal between white
    space, and every quote inside the literal is guarded. *)
Lemma json_decode_string_literal (text x : str) :
  json_decode text = Some (PStr x) ->
  exists ws1 body ws2,
    text = ws1 ++ QUOTE :: body ++ QUOTE :: ws2
    /\ all_in is_json_ws ws1 /\ all_in is_json_ws ws2
    /\ forall p, guarded p body.
Proof.
  unfold json_decode; intros H.
  destruct (lex (length text) text) as [ts|] eqn:L; [|discriminate].
  destruct (parse_value (2 * length ts + 2) ts) as [[v r]|] eqn:V; [|discriminate].
  destruct r; [|discriminate]; inversion H; subst v.
  apply parse_value_string in V; destruct V as [->| ->].
  - apply (lex_single_string _ _ _ L).
  - apply lex_atoms in L; inversion L as [|? ? A]; subst; destruct A.
Qed.

(** The matcher's result, with the span of group 1. *)
Lemma re_match_captures (r : regex) (s : str) (i : nat) (g : nat * nat)
  (e : nat) (g' : nat * nat) :
  re_match r s i g = Some (e, g') ->
  exists w rest,
    s = w ++ rest /\ re_captures r w i g g' /\ e = (i + length w)%nat.
Proof.
  revert s i g e g'; induction r as [|it r IH]; intros s i g e g' H.
  - cbn in H; inversion H; subst.
    exists [], s; cbn; repeat split; lia.
  - assert (Hskip : forall s i g,
               re_match r s i g = Some (e, g') ->
               forall p, it = RStar p \/ it = RLazy p ->
               exists w rest, s = w ++ rest
                 /\ re_captures (it :: r) w i g g' /\ e = (i + length w)%nat).
    { intros s0 i0 g0 H' p Hp; apply IH in H'.
      destruct H' as (w & rest & E & M & ->).
      exists w, rest; split; [exact E|]; split; [|reflexivity].
      destruct Hp as [-> | ->]; exists [], w; cbn [length];
        rewrite Nat.add_0_r; repeat split; auto; constructor. }
    assert (Hmore : forall c s' i g p,
               (it = RStar p \/ it = RLazy p) -> p c = true ->
               (exists w rest, s' = w ++ rest
                 /\ re_captures (it :: r) w (S i) g g' /\ e = (S i + length w)%nat) ->
               exists w rest, c :: s' = w ++ rest
                 /\ re_captures (it :: r) w i g g' /\ e = (i + length w)%nat).
    { intros c s' i0 g0 p Hp Pc (w & rest & -> & M & ->).
      exists (c :: w), rest; split; [reflexivity|]; split; [|cbn; lia].
      destruct Hp as [-> | ->]; destruct M as (w1 & w2 & -> & A & M);
        exists (c :: w1), w2; cbn [length];
        (repeat split; auto; [constructor; auto|]);
        replace (i0 + S (length w1))%nat with (S i0 + length w1)%nat by lia;
        exact M. }
    destruct it as [p|p|p| |].
    + cbn in H; destruct s as [|c s']; [discriminate|].
      destruct (p c) eqn:P; [|discriminate].
      apply IH in H; destruct H as (w & rest & -> & M & ->).
      exists (c :: w), rest; split; [reflexivity|]; split; [|cbn; lia].
      exists c, w; repeat split; auto.
    + cbn [re_match] in H.
      revert i g H; induction s as [|c s' IHs]; intros i g H.
      * apply (Hskip _ _ _ H p); auto.
      * destruct (p c) eqn:P; [|apply (Hskip _ _ _ H p); auto].
        match type of H with
        | match ?x with _ => _ end = _ => destruct x as [[e1 g1]|] eqn:S1
        end; [|apply (Hskip _ _ _ H p); auto].
        inversion H; subst e1 g1.
        apply (Hmore c s' i g p); auto.
    + cbn [re_match] in H.
      revert i g H; induction s as [|c s' IHs]; intros i g H.
      * destruct (re_match r [] i g) as [[e1 g1]|] eqn:S1; [|discriminate].
        inversion H; subst e1 g1.
        apply (Hskip _ _ _ S1 p); auto.
      * destruct (re_match r (c :: s') i g) as [[e1 g1]|] eqn:S1.
        -- inversion H; subst e1 g1.
           apply (Hskip _ _ _ S1 p); auto.
        -- destruct (p c) eqn:P; [|discriminate].
           apply (Hmore c s' i g p); auto.
    + cbn in H; apply IH in H; destruct H as (w & rest & E & M & ->).
      exists w, rest; repeat split; auto.
    + cbn in H; apply IH in H; destruct H as (w & rest & E & M & ->).
      exists w, rest; repeat split; auto.
Qed.

Lemma finditer_from_captures (r : regex) (s : str) (i skip : nat) (h : re_hit) :
  In h (finditer_from r s i skip) ->
  exists pre w rest,
    s = pre ++ w ++ rest
    /\ hit_start h = (i + length pre)%nat
    /\ re_captures r w (hit_start h) (0%nat, 0%nat) (hit_group h).
Proof.
  revert i skip; induction s as [|c s IH]; intros i skip H; [destruct H|].
  assert (Hnext : forall k,
             In h (finditer_from r s (S i) k) ->
             exists pre w rest,
               c :: s = pre ++ w ++ rest
               /\ hit_start h = (i + length pre)%nat
               /\ re_captures r w (hit_start h) (0%nat, 0%nat) (hit_group h)).
  { intros k Hk; apply IH in Hk.
    destruct Hk as (pre & w & rest & -> & E1 & M).
    exists (c :: pre), w, rest; cbn [length app]; repeat split; auto; lia. }
  cbn [finditer_from] in H.
  destruct skip as [|k]; [|apply (Hnext k); exact H].
  destruct (re_match r (c :: s) i (0%nat, 0%nat)) as [[e g]|] eqn:M;
    [|apply (Hnext 0%nat); exact H].
  destruct H as [<-|H]; [|eapply Hnext; exact H].
  apply re_match_captures in M; destruct M as (w & rest & E & M & ->).
  exists [], w, rest; cbn [app length hit_start hit_group].
  rewrite Nat.add_0_r; repeat split; auto.
Qed.

(** ** Fragments of a string literal *)

Lemma split_left (A B p w : str) (a : N) :
  p ++ a :: w = A ++ B -> ~ In a A -> exists p', p = A ++ p'.
Proof.
  revert p; induction A as [|x A IH]; intros p E N; [exists p; reflexivity|].
  destruct p as [|y p].
  - cbn in E; inversion E; subst; exfalso; apply N; left; reflexivity.
  - cbn in E; inversion E; subst y.
    destruct (IH p) as (p' & ->); [assumption | intros K; apply N; right; exact K|].
    exists p'; reflexivity.
Qed.

Lemma split_right (B C w q : str) (z : N) :
  w ++ z :: q = B ++ C -> ~ In z C -> exists q', q = q' ++ C.
Proof.
  intros E N.
  assert (E' : rev q ++ z :: rev w = rev C ++ rev B).
  { rewrite <- rev_app_distr, <- E, rev_app_distr; cbn [rev].
    rewrite <- app_assoc; reflexivity. }
  apply split_left in E'; [|rewrite <- in_rev; exact N].
  destruct E' as (q'' & E').
  exists (rev q''); rewrite <- (rev_involutive q), E', rev_app_distr, rev_involutive.
  reflexivity.
Qed.

Ltac norm_app := repeat (progress (cbn [app]; rewrite <- ?app_assoc)).

(** A piece of the text that neither starts nor ends with white space
    or a quote lies inside the body of the literal, and is quoteless. *)
Lemma piece_quoteless (ws1 body ws2 p q w : str) (a z : N) :
  all_in is_json_ws ws1 -> all_in is_json_ws ws2 ->
  (forall c, guarded c body) ->
  ws1 ++ QUOTE :: body ++ QUOTE :: ws2 = p ++ (a :: w ++ [z]) ++ q ->
  ~ outer a -> ~ outer z ->
  quoteless (a :: w ++ [z]).
Proof.
  intros W1 W2 G E Na Nz.
  assert (E1 : p ++ a :: ((w ++ [z]) ++ q)
               = (ws1 ++ [QUOTE]) ++ (body ++ QUOTE :: ws2)).
  { norm_app; rewrite E; norm_app; reflexivity. }
  apply split_left in E1.
  2:{ intros K; apply in_app_or in K; destruct K as [K|[K|[]]].
      - apply Na; left; unfold all_in in W1; rewrite Forall_forall in W1; auto.
      - apply Na; right; auto. }
  destruct E1 as (p' & ->).
  assert (E2 : (p' ++ a :: w) ++ z :: q = body ++ QUOTE :: ws2).
  { apply (app_inv_head (ws1 ++ [QUOTE])).
    norm_app; rewrite E; norm_app; reflexivity. }
  pose proof E2 as E3; apply split_right in E3.
  2:{ intros [K|K].
      - apply Nz; right; auto.
      - apply Nz; left; unfold all_in in W2; rewrite Forall_forall in W2; auto. }
  destruct E3 as (q' & ->).
  assert (Eb : body = p' ++ (a :: w ++ [z]) ++ q').
  { apply (app_inv_tail (QUOTE :: ws2)).
    rewrite <- E2; norm_app; reflexivity. }
  specialize (G 0%N); rewrite Eb in G.
  apply guarded_app in G; destruct G as [_ G].
  apply guarded_app in G; destruct G as [G _].
  exists 0%N; split; [discriminate|].
  apply (guarded_any_prev (last p' 0%N)); [|exact G].
  intros ->; apply Na; right; reflexivity.
Qed.

Lemma matched_span_occurs (text : str) (sp : nat * nat * nat) :
  matched_span text sp ->
  exists p m q,
    text = p ++ (LBRACK :: m ++ [RBRACK]) ++ q
    /\ span_text text sp = LBRACK :: m ++ [RBRACK].
Proof.
  intros (p & m & q & -> & B & E1 & E2); exists p, m, q.
  assert (E : p ++ LBRACK :: m ++ RBRACK :: q
              = p ++ (LBRACK :: m ++ [RBRACK]) ++ q) by (norm_app; reflexivity).
  split; [exact E|].
  unfold span_text; rewrite E1, E2, E.
  replace (length p + length m + 2)%nat
    with (length p + length (LBRACK :: m ++ [RBRACK]))%nat
    by (cbn [length]; rewrite length_app; cbn; lia).
  apply slice_app_exact.
Qed.

Lemma isspace_not_backslash (ws : str) : all_in py_isspace ws -> ~ In BACKSLASH ws.
Proof.
  intros F K; unfold all_in in F; rewrite Forall_forall in F.
  apply F in K; vm_compute in K; discriminate.
Qed.

(** What the pattern of strategy 3 matches: the fence and white space,
    without any backslash; group 1; the closing fence. *)
Lemma fence_re_shape (w : str) (i : nat) (g g' : nat * nat) :
  re_captures fence_re w i g g' ->
  exists fence mid,
    w = (BACKTICK :: fence) ++ mid ++ [BACKTICK; BACKTICK; BACKTICK]
    /\ ~ In BACKSLASH (BACKTICK :: fence)
    /\ g' = ((i + length (BACKTICK :: fence))%nat,
             (i + length (BACKTICK :: fence) + length mid)%nat).
Proof.
  unfold fence_re; cbn [re_captures].
  intros H.
  repeat match goal with
         | H : exists _, _ |- _ => destruct H
         | H : _ /\ _ |- _ => destruct H
         | H : is_char _ _ = true |- _ => apply is_char_eq in H
         end; subst.
  match goal with
  | H1 : all_in py_isspace ?ws, H2 : all_in any_char ?mid |- _ =>
      match goal with
      | |- context [BACKTICK :: BACKTICK :: BACKTICK :: ?j :: ?s :: ?o :: ?n :: _] =>
          exists (BACKTICK :: BACKTICK :: j :: s :: o :: n :: ws), mid
      end
  end.
  split; [norm_app; reflexivity|]; split.
  - intros K.
    repeat match goal with
           | H : is_char_ci _ _ ?c = true |- _ =>
               assert (c <> BACKSLASH)
                 by (intros ->; vm_compute in H; discriminate H);
               clear H
           end.
    cbn [In] in K.
    repeat (destruct K as [K|K]; [try discriminate K; congruence|]).
    eapply isspace_not_backslash; eassumption.
  - cbn [fst snd length]; rewrite ?length_app; cbn [length].
    f_equal; lia.
Qed.

Section StringLiteral.

Variables ws1 body ws2 : str.
Hypothesis W1 : all_in is_json_ws ws1.
Hypothesis W2 : all_in is_json_ws ws2.
Hypothesis G : forall c, guarded c body.

#[local] Abbreviation literal := (ws1 ++ QUOTE :: body ++ QUOTE :: ws2).

Lemma not_outer (c : N) : is_json_ws c = false -> c <> QUOTE -> ~ outer c.
Proof. intros W N [K|K]; congruence. Qed.

Lemma bracket_fragment_quoteless (f : str) :
  In f (balanced_arrays literal) -> quoteless f.
Proof.
  rewrite balanced_arrays_spec; intros H.
  apply in_map_iff in H; destruct H as (sp & <- & H).
  apply in_firstn in H.
  pose proof (bracket_spans_matched literal) as M.
  rewrite Forall_forall in M; apply M in H.
  apply matched_span_occurs in H; destruct H as (p & m & q & E & ->).
  apply (piece_quoteless ws1 body ws2 p q m LBRACK RBRACK W1 W2 G E);
    apply not_outer; (reflexivity || discriminate).
Qed.

Lemma findings_fragment_quoteless (h : re_hit) :
  In h (finditer findings_re literal) -> quoteless (group0 literal h).
Proof.
  intros H; apply finditer_sound in H; destruct H as (p & q & E & M).
  apply findings_re_shape in M.
  destruct M as (pre & s1 & s2 & mid & post & Ew & _).
  set (w := group0 literal h) in *.
  assert (Ew' : w = LBRACE :: (pre ++ QUOTE :: py "findings" ++ QUOTE :: s1
                               ++ COLON :: s2 ++ LBRACK :: mid ++ RBRACK :: post)
                    ++ [RBRACE])
    by (rewrite Ew; norm_app; reflexivity).
  rewrite Ew' in E |- *.
  apply (piece_quoteless ws1 body ws2 p q _ LBRACE RBRACE W1 W2 G E);
    apply not_outer; (reflexivity || discriminate).
Qed.

Lemma fence_fragment_quoteless (h : re_hit) :
  In h (finditer fence_re literal) -> quoteless (group1 literal h).
Proof.
  intros H; apply finditer_from_captures in H.
  destruct H as (p & w & q & E & Es & M).
  apply fence_re_shape in M; destruct M as (fence & mid & Ew & NB & Eg).
  assert (Eg1 : group1 literal h = mid).
  { unfold group1; rewrite Eg; cbn [fst snd]; rewrite Es, E, Ew.
    replace (p ++ ((BACKTICK :: fence) ++ mid ++ [BACKTICK; BACKTICK; BACKTICK]) ++ q)
      with ((p ++ BACKTICK :: fence) ++ mid ++ ([BACKTICK; BACKTICK; BACKTICK] ++ q))
      by (norm_app; reflexivity).
    replace (0 + length p + length (BACKTICK :: fence))%nat
      with (length (p ++ BACKTICK :: fence)) by (rewrite length_app; lia).
    apply slice_app_exact. }
  rewrite Eg1.
  assert (Q : quoteless (BACKTICK :: (fence ++ mid ++ [BACKTICK; BACKTICK])
                         ++ [BACKTICK])).
  { apply (piece_quoteless ws1 body ws2 p q _ BACKTICK BACKTICK W1 W2 G);
      [|apply not_outer; (reflexivity || discriminate)
       |apply not_outer; (reflexivity || discriminate)].
    rewrite E, Ew; norm_app; reflexivity. }
  replace (BACKTICK :: (fence ++ mid ++ [BACKTICK; BACKTICK]) ++ [BACKTICK])
    with ((BACKTICK :: fence) ++ (mid ++ [BACKTICK; BACKTICK; BACKTICK])) in Q
    by (norm_app; reflexivity).
  apply quoteless_drop in Q; [|discriminate|exact NB].
  destruct Q as (c & Hc & Gc); apply guarded_app in Gc.
  exists c; tauto.
Qed.

(** Every fragment cut out of a string literal is quoteless. *)
Lemma fragments_quoteless (c : pyval) :
  In c (fragment_candidates literal) -> exists f, c = PStr f /\ quoteless f.
Proof.
  unfold fragment_candidates, fence_candidates, findings_candidates,
    bracket_candidates.
  intros H; apply in_app_or in H; destruct H as [H|H];
    [|apply in_app_or in H; destruct H as [H|H]];
    apply in_map_iff in H; destruct H as (x & <- & H); eexists;
    (split; [reflexivity|]).
  - apply fence_fragment_quoteless; exact H.
  - apply findings_fragment_quoteless; exact H.
  - apply bracket_fragment_quoteless; exact H.
Qed.

End StringLiteral.

(** C10.  When the whole text is one JSON string literal whose content
    parses as an array of [N >= 1] valid Finding Records, the whole-text
    parse yields that content as the first candidate, the loading step
    parses it a second time into the array, no fragment cut out of the
    text holds a valid record, and the strict engine returns the [N]
    records (post-processed) with score [(N, N)]. *)
Theorem C10_double_decode (text inner : str) (recs : list pyval) :
  json_decode text = Some (PStr inner) ->
  json_decode inner = Some (PList recs) ->
  recs <> [] ->
  Forall (fun r => passes_checks r = true) recs ->
  candidates json_decode text = PStr inner :: fragment_candidates text
  /\ load_json json_decode (PStr inner) = Ok (PList recs)
  /\ (forall c, In c (fragment_candidates text) ->
                fst (candidate_score json_decode c) <= 0)
  /\ best_findings json_decode text = Ok (map trim recs)
  /\ selected json_decode text
     = Ok (PList recs, (Z.of_nat (length recs), Z.of_nat (length recs))).
Proof.
  intros D1 D2 Hne Hvalid.
  assert (Hcs : candidates json_decode text = PStr inner :: fragment_candidates text).
  { unfold candidates, whole_text_candidates, envelope_candidates.
    rewrite D1; reflexivity. }
  assert (Hfrag : forall c, In c (fragment_candidates text) ->
                            fst (candidate_score json_decode c) <= 0).
  { intros c Hc.
    destruct (json_decode_string_literal text inner D1)
      as (ws1 & body & ws2 & E & W1 & W2 & G).
    rewrite E in Hc.
    destruct (fragments_quoteless ws1 body ws2 W1 W2 G c Hc) as (f & -> & Q).
    apply quoteless_score; exact Q. }
  assert (Hsc : candidate_score json_decode (PStr inner)
                = (Z.of_nat (length recs), Z.of_nat (length recs))).
  { unfold candidate_score, candidate_array; cbn [candidate_value].
    rewrite D2; cbn [unwrapped].
    apply score_of_valid_records; exact Hvalid. }
  assert (Har : candidate_array json_decode (PStr inner) = PList recs).
  { unfold candidate_array; cbn [candidate_value]; rewrite D2; reflexivity. }
  assert (Hpos : 0 < Z.of_nat (length recs)).
  { destruct recs; [congruence | cbn [length]; lia]. }
  assert (F : fold_left (keep_better json_decode) (candidates json_decode text)
                (PNone, (-1, 0))
              = (PList recs, (Z.of_nat (length recs), Z.of_nat (length recs)))).
  { rewrite Hcs.
    change (PStr inner :: fragment_candidates text)
      with ([] ++ PStr inner :: fragment_candidates text).
    rewrite (fold_first_greatest json_decode [] (fragment_candidates text)
               (PStr inner)).
    - rewrite Hsc, Har; reflexivity.
    - intros x [].
    - intros y Hy; rewrite Hsc; apply Hfrag in Hy.
      unfold score_lt; cbn [fst snd]; lia.
    - rewrite Hsc; unfold score_lt; cbn [fst snd]; lia. }
  split; [exact Hcs|].
  split; [rewrite load_json_spec; cbn [candidate_value]; rewrite D2; reflexivity|].
  split; [exact Hfrag|].
  rewrite best_findings_spec, selected_spec, F; split; [|reflexivity].
  unfold accepted; cbn [fst snd].
  apply Z.ltb_lt in Hpos; rewrite Hpos; reflexivity.
Qed.

(** C10 at the string literal that holds the array of the record of
    the specification. *)
Lemma C10_double_decode_witness :
  candidates json_decode literal_text
  = PStr (LBRACK :: record_text ++ [RBRACK]) :: fragment_candidates literal_text
  /\ load_json json_decode (PStr (LBRACK :: record_text ++ [RBRACK]))
     = Ok (PList [record_value])
  /\ (forall c, In c (fragment_candidates literal_text) ->
                fst (candidate_score json_decode c) <= 0)
  /\ best_findings json_decode literal_text = Ok (map trim [record_value])
  /\ selected json_decode literal_text = Ok (PList [record_value], (1, 1)).
Proof.
  apply (C10_double_decode literal_text (LBRACK :: record_text ++ [RBRACK])
           [record_value]).
  - vm_compute; reflexivity.
  - vm_compute; reflexivity.
  - discriminate.
  - repeat constructor.
Defined.

(** ** The printed document (claim C4) *)

Lemma uint_chars_digits (d : Decimal.uint) : all_in is_digit (uint_chars d).
Proof. induction d; cbn; constructor; auto. Qed.

Lemma uint_chars_nonempty (d : Decimal.uint) : d <> Decimal.Nil -> uint_chars d <> [].
Proof. destruct d; cbn; congruence. Qed.

Lemma forallb_all_in (p : N -> bool) (s : str) : all_in p s -> forallb p s = true.
Proof. intros H; apply forallb_forall; apply Forall_forall; exact H. Qed.

(** A normal decimal is [0] or starts with another digit. *)
Lemma unorm_int_part (d : Decimal.uint) :
  Decimal.unorm d = d -> is_int_part (uint_chars d) = true.
Proof.
  intros E.
  assert (D : forallb is_digit (uint_chars d) = true)
    by (apply forallb_all_in, uint_chars_digits).
  destruct d as [|d'| | | | | | | | |];
    try (cbn [uint_chars is_int_part] in *; rewrite D; reflexivity).
  - discriminate E.
  - destruct d' as [|u| | | | | | | | |]; [reflexivity| | | | | | | | | |];
      exfalso; unfold Decimal.unorm in E; cbn [Decimal.nzhead] in E;
      try discriminate E.
    destruct (Decimal.nzhead u) eqn:X; try discriminate E.
    inversion E; subst.
    apply (DecimalFacts.nzhead_nonzero u _ X).
Qed.

Lemma repr_nat_int_part (n : N) : is_int_part (repr_nat n) = true.
Proof.
  unfold repr_nat; apply unorm_int_part.
  rewrite <- DecimalN.Unsigned.to_of, DecimalN.Unsigned.of_to; reflexivity.
Qed.

Lemma is_int_part_digits (ip : str) : is_int_part ip = true -> is_digits ip.
Proof.
  destruct ip as [|d r]; [discriminate|]; cbn [is_int_part].
  intros H; apply andb_true_iff in H; destruct H as [H _].
  split; [discriminate|].
  unfold all_in; apply Forall_forall; apply forallb_forall; exact H.
Qed.

Lemma repr_nat_digits (n : N) : is_digits (repr_nat n).
Proof. apply is_int_part_digits, repr_nat_int_part. Qed.

Lemma repr_int_number (z : Z) : json_number (repr_int z).
Proof.
  unfold repr_int.
  exists (if z <? 0 then py "-" else []), (repr_nat (Z.abs_N z)), [], [].
  rewrite !app_nil_r; split; [reflexivity|].
  split; [destruct (z <? 0); auto|].
  split; [apply repr_nat_int_part|]; auto.
Qed.

Lemma repr_float_number (neg : bool) (m : N) (e : Z) :
  json_number (repr_float (FFinite neg m e)).
Proof.
  unfold repr_float.
  destruct (rounds_to_zero m e).
  - exists (if neg then py "-" else []), (py "0"), (py ".0"), [].
    rewrite !app_nil_r; split; [reflexivity|].
    split; [destruct neg; auto|].
    split; [reflexivity|]; split; [|auto].
    right; exists (py "0"); split; [reflexivity|].
    split; [discriminate | repeat constructor].
  - exists (if neg then py "-" else []), (repr_nat m), [],
      (py "e" ++ repr_int e).
    split; [reflexivity|].
    split; [destruct neg; auto|].
    split; [apply repr_nat_int_part|]; split; [auto|].
    right; exists (ch "e"), (if e <? 0 then py "-" else []), (repr_nat (Z.abs_N e)).
    split; [reflexivity|]; split; [auto|].
    split; [destruct (e <? 0); auto | apply repr_nat_digits].
Qed.

Lemma hex_digit_is_hex (n : N) : (n < 16)%N -> is_hex (hex_digit n) = true.
Proof.
  intros H; rewrite <- (N2Nat.id n).
  assert (K : (N.to_nat n < 16)%nat) by lia.
  revert K; generalize (N.to_nat n); intros k K.
  do 16 (destruct k as [|k]; [reflexivity|]); lia.
Qed.

Lemma land_15_lt (n : N) : (N.land n 15 < 16)%N.
Proof.
  change 15%N with (N.ones 4); rewrite N.land_ones.
  apply N.mod_lt; discriminate.
Qed.

Lemma hex4_items (n : N) (r : str) :
  (n < 65536)%N -> string_items r -> string_items (py "\u" ++ hex4 n ++ r).
Proof.
  intros L H; unfold hex4.
  change (py "\u" ++ ?x) with (BACKSLASH :: ch "u" :: x).
  cbn [app].
  apply items_unicode; try (apply hex_digit_is_hex, land_15_lt); [|exact H].
  apply hex_digit_is_hex.
  rewrite N.shiftr_div_pow2.
  apply N.Div0.div_lt_upper_bound; exact L.
Qed.

Lemma log2_lt_16 (a : N) : (a < 65536)%N -> (N.log2 a < 16)%N.
Proof.
  intros H; destruct (N.eq_dec a 0) as [->|NZ]; [reflexivity|].
  apply N.log2_lt_pow2; [lia | exact H].
Qed.

Lemma lor_lt_65536 (a b : N) :
  (a < 65536)%N -> (b < 65536)%N -> (N.lor a b < 65536)%N.
Proof.
  intros Ha Hb.
  destruct (N.eq_dec (N.lor a b) 0) as [->|NZ]; [reflexivity|].
  change 65536%N with (2 ^ 16)%N.
  apply N.log2_lt_pow2; [lia|].
  rewrite N.log2_lor.
  apply N.max_lub_lt; apply log2_lt_16; assumption.
Qed.

Lemma land_1023_lt (n : N) : (N.land n 1023 < 65536)%N.
Proof. pose proof (N.land_le_r n 1023); lia. Qed.

(** What the encoder writes for one code point is what a string may
    hold. *)
Lemma escape_char_items (c : N) (r : str) :
  string_items r -> string_items (escape_char c ++ r).
Proof.
  intros H; unfold escape_char.
  destruct (N.eqb_spec c QUOTE) as [->|NQ];
    [apply items_escape; [cbn; tauto | exact H]|].
  destruct (N.eqb_spec c BACKSLASH) as [->|NB];
    [apply items_escape; [cbn; tauto | exact H]|].
  repeat match goal with
         | |- string_items ((if N.eqb c ?k then _ else _) ++ _) =>
             destruct (N.eqb_spec c k);
             [apply items_escape; [cbn; tauto | exact H]|]
         end.
  destruct ((32 <=? c)%N && (c <=? 126)%N)%bool eqn:R.
  - apply andb_true_iff in R; destruct R as [R1 R2].
    apply N.leb_le in R1; apply N.leb_le in R2.
    apply items_char; auto; lia.
  - destruct (N.ltb_spec c 65536).
    + rewrite <- app_assoc; apply hex4_items; assumption.
    + rewrite <- !app_assoc; apply hex4_items.
      * apply lor_lt_65536; [reflexivity | apply land_1023_lt].
      * apply hex4_items; [|exact H].
        apply lor_lt_65536; [reflexivity | apply land_1023_lt].
Qed.

Lemma encode_str_string (s : str) : json_string (encode_str s).
Proof.
  unfold encode_str; exists (flat_map escape_char s); split; [reflexivity|].
  induction s as [|c s IH]; [constructor|].
  cbn [flat_map]; apply escape_char_items; exact IH.
Qed.

Lemma newline_indent_ws (level : nat) : is_ws (newline_indent level).
Proof.
  unfold newline_indent, is_ws, all_in; constructor; [reflexivity|].
  induction (2 * level)%nat; cbn; constructor; auto.
Qed.

Lemma pyval_nested_ind (P : pyval -> Prop) :
  P PNone -> (forall b, P (PBool b)) -> (forall z, P (PInt z)) ->
  (forall f, P (PFloat f)) -> (forall s, P (PStr s)) ->
  (forall l, Forall P l -> P (PList l)) ->
  (forall d, Forall (fun kv => P (snd kv)) d -> P (PDict d)) ->
  forall v, P v.
Proof.
  intros HN HB HI HF HS HL HD.
  fix IH 1; intros [|b|z|f|s|l|d];
    [exact HN | apply HB | apply HI | apply HF | apply HS | |].
  - apply HL; induction l as [|x l IHl]; constructor; [apply IH | exact IHl].
  - apply HD; induction d as [|[k x] d IHd]; constructor; [apply IH | exact IHd].
Qed.

Lemma dumps_list_eq (level : nat) (x : pyval) (r : list pyval) :
  dumps_at level (PList (x :: r))
  = LBRACK :: (newline_indent (S level) ++ dumps_at (S level) x
               ++ array_tail level r ++ newline_indent level) ++ [RBRACK].
Proof.
  cbn [dumps_at].
  change (py "[" ++ ?a) with (LBRACK :: a).
  change (py "]") with [RBRACK].
  f_equal; norm_app; do 2 f_equal.
  match goal with
  | |- ?f r ++ _ = _ => assert (E : f r = array_tail level r)
  end.
  { induction r as [|y r IH]; [reflexivity|].
    cbn [array_tail]; rewrite <- IH.
    change (py "," ++ ?a) with (COMMA :: a); reflexivity. }
  rewrite E; reflexivity.
Qed.

Lemma dumps_dict_eq (level : nat) (k : str) (x : pyval) (r : list (str * pyval)) :
  dumps_at level (PDict ((k, x) :: r))
  = LBRACE :: (newline_indent (S level)
               ++ encode_str k ++ COLON :: 32%N :: dumps_at (S level) x
               ++ object_tail level r ++ newline_indent level) ++ [RBRACE].
Proof.
  cbn [dumps_at].
  match goal with
  | |- context [?f r ++ newline_indent level ++ _] =>
      assert (E : f r = object_tail level r)
  end.
  { induction r as [|[k' y] r IH]; [reflexivity|].
    cbn [object_tail]; rewrite <- IH.
    change (py "," ++ ?a) with (COMMA :: a).
    change (py ": " ++ ?a) with (COLON :: 32%N :: a).
    norm_app; reflexivity. }
  rewrite E.
  change (py "{" ++ ?a) with (LBRACE :: a).
  change (py "}") with [RBRACE].
  change (py ": " ++ ?a) with (COLON :: 32%N :: a).
  norm_app; reflexivity.
Qed.

Lemma finite_list (l : list pyval) : finite (PList l) <-> Forall finite l.
Proof.
  induction l as [|x l IH]; cbn.
  - split; [constructor | trivial].
  - split.
    + intros [H1 H2]; constructor; [exact H1 | apply IH; exact H2].
    + intros H; inversion H; subst; split; [assumption | apply IH; assumption].
Qed.

Lemma finite_dict (d : list (str * pyval)) :
  finite (PDict d) <-> Forall (fun kv => finite (snd kv)) d.
Proof.
  induction d as [|[k x] d IH]; cbn.
  - split; [constructor | trivial].
  - split.
    + intros [H1 H2]; constructor; [exact H1 | apply IH; exact H2].
    + intros H; inversion H; subst; split; [assumption | apply IH; assumption].
Qed.

Lemma array_elements (level : nat) (x : pyval) (r : list pyval) :
  json_value (dumps_at (S level) x) ->
  Forall (fun y => json_value (dumps_at (S level) y)) r ->
  json_elements (newline_indent (S level) ++ dumps_at (S level) x
                 ++ array_tail level r ++ newline_indent level).
Proof.
  intros Hx Hr; revert x Hx; induction Hr as [|y r Hy _ IH]; intros x Hx.
  - cbn [array_tail app].
    apply elements_last; auto using newline_indent_ws.
  - cbn [array_tail].
    replace (newline_indent (S level) ++ dumps_at (S level) x
             ++ (COMMA :: newline_indent (S level) ++ dumps_at (S level) y
                 ++ array_tail level r) ++ newline_indent level)
      with (newline_indent (S level) ++ dumps_at (S level) x ++ []
            ++ COMMA :: (newline_indent (S level) ++ dumps_at (S level) y
                         ++ array_tail level r ++ newline_indent level))
      by (norm_app; reflexivity).
    apply elements_more; auto using newline_indent_ws; [constructor].
Qed.

Lemma object_members (level : nat) (k : str) (x : pyval)
  (r : list (str * pyval)) :
  json_value (dumps_at (S level) x) ->
  Forall (fun kv => json_value (dumps_at (S level) (snd kv))) r ->
  json_members (newline_indent (S level)
                ++ encode_str k ++ COLON :: 32%N :: dumps_at (S level) x
                ++ object_tail level r ++ newline_indent level).
Proof.
  assert (Sp : is_ws [32%N]) by (repeat constructor).
  intros Hx Hr; revert k x Hx; induction Hr as [|[k' y] r Hy _ IH]; intros k x Hx.
  - cbn [object_tail app].
    replace (newline_indent (S level) ++ encode_str k
             ++ COLON :: 32%N :: dumps_at (S level) x ++ newline_indent level)
      with (newline_indent (S level) ++ encode_str k ++ []
            ++ COLON :: [32%N] ++ dumps_at (S level) x ++ newline_indent level)
      by (norm_app; reflexivity).
    apply members_last; auto using newline_indent_ws, encode_str_string;
      constructor.
  - cbn [object_tail].
    replace (newline_indent (S level) ++ encode_str k
             ++ COLON :: 32%N :: dumps_at (S level) x
             ++ (COMMA :: newline_indent (S level) ++ encode_str k'
                 ++ COLON :: 32%N :: dumps_at (S level) y
                 ++ object_tail level r) ++ newline_indent level)
      with (newline_indent (S level) ++ encode_str k ++ []
            ++ COLON :: [32%N] ++ dumps_at (S level) x ++ []
            ++ COMMA :: (newline_indent (S level) ++ encode_str k'
                         ++ COLON :: 32%N :: dumps_at (S level) y
                         ++ object_tail level r ++ newline_indent level))
      by (norm_app; reflexivity).
    apply members_more; auto using newline_indent_ws, encode_str_string;
      try constructor.
Qed.

(** What the encoder prints for an object without non-finite floats is
    a JSON text. *)
Lemma dumps_at_valid (v : pyval) :
  finite v -> forall level, json_value (dumps_at level v).
Proof.
  induction v as [|b|z|f|s|l IH|d IH] using pyval_nested_ind; intros F level.
  - constructor.
  - destruct b; constructor.
  - apply value_number, repr_int_number.
  - destruct f; try contradiction.
    apply value_number, repr_float_number.
  - apply value_string, encode_str_string.
  - destruct l as [|x r].
    + apply (value_empty_array []); constructor.
    + rewrite dumps_list_eq; apply value_array.
      apply finite_list in F.
      inversion F as [|? ? Fx Fr]; inversion IH as [|? ? IHx IHr]; subst.
      apply array_elements; [apply IHx; exact Fx|].
      apply Forall_forall; intros y Hy.
      rewrite Forall_forall in IHr, Fr; apply IHr; auto.
  - destruct d as [|[k x] r].
    + apply (value_empty_object []); constructor.
    + rewrite dumps_dict_eq; apply value_object.
      apply finite_dict in F.
      inversion F as [|? ? Fx Fr]; inversion IH as [|? ? IHx IHr]; subst.
      apply object_members; [apply IHx; exact Fx|].
      apply Forall_forall; intros y Hy.
      rewrite Forall_forall in IHr, Fr; apply IHr; auto.
Qed.

Lemma passes_app (a b : str) : passes a -> passes b -> passes (a ++ b).
Proof. intros Ha Hb rest; rewrite <- app_assoc, Ha, Hb; reflexivity. Qed.

Lemma passes_nil : passes [].
Proof. intros rest; reflexivity. Qed.

Lemma passes_chars (w : str) :
  Forall (fun c => c <> QUOTE /\ token_char c = true) w -> passes w.
Proof.
  induction 1 as [|c w [NQ T] _ IH]; [apply passes_nil|].
  intros rest; cbn [app plain_outside].
  destruct (N.eqb_spec c QUOTE); [contradiction|].
  rewrite T; apply IH.
Qed.

Lemma passes_class (p : N -> bool) (w : str) :
  (forall c, p c = true -> c <> QUOTE /\ token_char c = true) ->
  all_in p w -> passes w.
Proof.
  intros Hp H; apply passes_chars.
  eapply Forall_impl; [|exact H]; exact Hp.
Qed.

Lemma ws_token (c : N) : is_json_ws c = true -> c <> QUOTE /\ token_char c = true.
Proof.
  intros H; split; [intros ->; discriminate H|].
  unfold token_char; rewrite H; reflexivity.
Qed.

Lemma number_char_token (c : N) :
  is_number_char c = true -> c <> QUOTE /\ token_char c = true.
Proof.
  intros H; split; [intros ->; discriminate H|].
  unfold token_char; rewrite H, orb_true_r; reflexivity.
Qed.

Lemma digit_number_char (c : N) : is_digit c = true -> is_number_char c = true.
Proof. intros H; unfold is_number_char; rewrite H; reflexivity. Qed.

Lemma passes_ws (w : str) : is_ws w -> passes w.
Proof. apply passes_class, ws_token. Qed.

Lemma passes_digits (d : str) : all_in is_digit d -> passes d.
Proof.
  apply passes_class; intros c H; apply number_char_token, digit_number_char, H.
Qed.

Lemma passes_literal (w : str) :
  forallb (fun c => negb (N.eqb c QUOTE) && token_char c) w = true -> passes w.
Proof.
  intros H; apply passes_chars, Forall_forall; intros c Hc.
  rewrite forallb_forall in H; apply H in Hc.
  apply andb_true_iff in Hc; destruct Hc as [A B]; split; [|exact B].
  intros ->; discriminate A.
Qed.

Lemma passes_number (s : str) : json_number s -> passes s.
Proof.
  intros (sign & ip & frac & ex & -> & Hs & Hi & Hf & He).
  repeat apply passes_app.
  - destruct Hs as [-> | ->]; [apply passes_nil | apply passes_literal; reflexivity].
  - apply passes_digits, is_int_part_digits, Hi.
  - destruct Hf as [-> | (d & -> & _ & Hd)]; [apply passes_nil|].
    apply (passes_app [ch "."] d); [apply passes_literal; reflexivity|].
    apply passes_digits, Hd.
  - destruct He as [-> | (e & sg & d & -> & He & Hsg & _ & Hd)];
      [apply passes_nil|].
    apply (passes_app [e] (sg ++ d)).
    + destruct He as [-> | ->]; apply passes_literal; reflexivity.
    + apply passes_app; [|apply passes_digits, Hd].
      destruct Hsg as [-> | [-> | ->]];
        [apply passes_nil | apply passes_literal; reflexivity
        | apply passes_literal; reflexivity].
Qed.

Lemma hex_inside (h : N) (r : str) :
  is_hex h = true -> plain_outside (h :: r) 1 = plain_outside r 1.
Proof.
  intros H; cbn [plain_outside].
  destruct (N.eqb_spec h QUOTE) as [->|_]; [discriminate H|].
  destruct (N.eqb_spec h BACKSLASH) as [->|_]; [discriminate H|].
  reflexivity.
Qed.

Lemma items_inside (body : str) :
  string_items body ->
  forall rest, plain_outside (body ++ rest) 1 = plain_outside rest 1.
Proof.
  induction 1 as [|c r L NQ NB U _ IH|e r He _ IH|h1 h2 h3 h4 r H1 H2 H3 H4 _ IH];
    intros rest; cbn [app].
  - reflexivity.
  - cbn [plain_outside].
    destruct (N.eqb_spec c QUOTE); [contradiction|].
    destruct (N.eqb_spec c BACKSLASH); [contradiction|].
    apply IH.
  - cbn [plain_outside]; apply IH.
  - change (plain_outside (BACKSLASH :: ch "u" :: ?x) 1) with (plain_outside x 1).
    rewrite !hex_inside by assumption; apply IH.
Qed.

Lemma passes_string (s : str) : json_string s -> passes s.
Proof.
  intros (body & -> & H) rest.
  cbn [app plain_outside]; rewrite <- app_assoc.
  change (N.eqb QUOTE QUOTE) with true; cbv iota.
  rewrite (items_inside body H); reflexivity.
Qed.

Lemma passes_cons (c : N) (s : str) :
  c <> QUOTE -> token_char c = true -> passes s -> passes (c :: s).
Proof.
  intros NQ T H; apply (passes_app [c] s); [|exact H].
  apply passes_chars; repeat constructor; assumption.
Qed.

(** Every JSON text passes the check. *)
Lemma json_value_passes (s : str) : json_value s -> passes s.
Proof.
  apply (json_value_mut passes passes passes).
  - apply passes_literal; reflexivity.
  - apply passes_literal; reflexivity.
  - apply passes_literal; reflexivity.
  - apply passes_number.
  - apply passes_string.
  - intros w Hw; apply passes_cons; [discriminate | reflexivity|].
    apply passes_app; [apply passes_ws, Hw | apply passes_literal; reflexivity].
  - intros es _ IH; apply passes_cons; [discriminate | reflexivity|].
    apply passes_app; [exact IH | apply passes_literal; reflexivity].
  - intros w Hw; apply passes_cons; [discriminate | reflexivity|].
    apply passes_app; [apply passes_ws, Hw | apply passes_literal; reflexivity].
  - intros ms _ IH; apply passes_cons; [discriminate | reflexivity|].
    apply passes_app; [exact IH | apply passes_literal; reflexivity].
  - intros w1 v w2 H1 _ IHv H2.
    repeat apply passes_app; auto using passes_ws.
  - intros w1 v w2 es H1 _ IHv H2 _ IHes.
    repeat apply passes_app; auto using passes_ws;
      try (apply passes_literal; reflexivity).
  - intros w1 k w2 w3 v w4 H1 Hk H2 H3 _ IHv H4.
    repeat apply passes_app; auto using passes_ws, passes_string;
      try (apply passes_literal; reflexivity).
  - intros w1 k w2 w3 v w4 ms H1 Hk H2 H3 _ IHv H4 _ IHms.
    repeat apply passes_app; auto using passes_ws, passes_string;
      try (apply passes_literal; reflexivity).
Qed.

Lemma not_json_value (s : str) : plain_outside s 0 = false -> ~ json_value s.
Proof.
  intros H V; apply json_value_passes in V.
  specialize (V []); rewrite app_nil_r in V; rewrite V in H; discriminate.
Qed.

Lemma try_except_ok {A} (m : res A) (x : A) : exists r, try_except m (Ok x) = Ok r.
Proof. destruct m; cbn; eauto. Qed.

Lemma main_findings_spec (json_loads : str -> option pyval) (text : str) :
  exists arr,
    best_findings json_loads text = Ok arr
    /\ main_findings json_loads text = Ok [json_dumps (PList arr)].
Proof.
  unfold main_findings; rewrite best_findings_spec; cbn [bind]; eauto.
Qed.

Lemma last_array_ok (json_loads : str -> option pyval) (text : str) :
  exists r, last_array json_loads text = Ok r.
Proof.
  unfold last_array; destruct (last_span text) as [[a b]|]; [|eauto].
  apply try_except_ok.
Qed.

Lemma main_json_spec (json_loads : str -> option pyval) (text : str) :
  exists arr, main_json json_loads text = Ok [json_dumps (PList arr)].
Proof.
  unfold main_json.
  destruct (try_except_ok
              (obj <- py_json_loads json_loads (PStr text) ;;
               match obj with
               | PList l => Ok (Some l)
               | _ =>
                   wrapped <- (if isinstance_dict obj then
                                 f <- py_get obj (py "findings") ;;
                                 Ok (isinstance_list f)
                               else Ok false) ;;
                   if wrapped then
                     f <- py_getitem obj (py "findings") ;;
                     Ok (match f with PList l => Some l | _ => None end)
                   else Ok None
               end) None) as [a Ea].
  change (try_top_struct json_loads text = Ok a) in Ea; rewrite Ea; cbn [bind].
  destruct a as [l|]; [eauto|].
  assert (Em : exists i, try_message_content json_loads text = Ok i)
    by (unfold try_message_content; apply try_except_ok).
  destruct Em as [inner ->]; cbn [bind].
  assert (Ef : exists f,
             match inner with
             | Some (c :: i') =>
                 a <- try_top_struct json_loads (c :: i') ;;
                 or_else a (last_array json_loads (c :: i'))
             | _ => Ok None
             end = Ok f).
  { destruct inner as [[|c i']|]; eauto.
    assert (Et : exists a, try_top_struct json_loads (c :: i') = Ok a)
      by (unfold try_top_struct; apply try_except_ok).
    destruct Et as [a ->]; cbn [bind].
    destruct a as [[|x l]|]; cbn [or_else]; eauto using last_array_ok. }
  destruct Ef as [f ->]; cbn [bind].
  destruct f as [l|]; [eauto|].
  destruct (last_array_ok json_loads text) as [r ->]; cbn [bind].
  destruct r as [l|]; [eauto|].
  exists []; reflexivity.
Qed.

Lemma dumps_array_text (arr : list pyval) :
  finite (PList arr) -> json_array_text (json_dumps (PList arr)).
Proof.
  intros F; split; [apply dumps_at_valid; exact F|].
  unfold json_dumps; destruct arr; [eexists; reflexivity|].
  rewrite dumps_list_eq; eexists; reflexivity.
Qed.

(** C4, as amended.  On every input text both engines return without
    raising and print exactly one document, the indented serialisation
    of an array.  The serialisation of an array that holds no non-finite
    float is a JSON text that is an array; a non-finite float is printed
    as a bare word. *)
Theorem C4_one_document :
  (forall (json_loads : str -> option pyval) (text : str),
      (exists arr,
          best_findings json_loads text = Ok arr
          /\ main_findings json_loads text = Ok [json_dumps (PList arr)])
      /\ (exists arr, main_json json_loads text = Ok [json_dumps (PList arr)]))
  /\ (forall arr : list pyval,
        finite (PList arr) -> json_array_text (json_dumps (PList arr)))
  /\ json_dumps (PList []) = py "[]"
  /\ json_dumps (PList [PFloat FNaN; PFloat FInf; PFloat FNegInf])
     = LBRACK :: 10%N :: py "  NaN," ++ 10%N :: py "  Infinity,"
       ++ 10%N :: py "  -Infinity" ++ [10%N; RBRACK].
Proof.
  split; [|split; [exact dumps_array_text | split; reflexivity]].
  intros json_loads text; split;
    [apply main_findings_spec | apply main_json_spec].
Qed.

(** C4 at the wrapper example: the document printed is a JSON array. *)
Lemma C4_document_witness :
  main_findings json_decode wrapper_text
  = Ok [json_dumps (PList [record_value])]
  /\ json_array_text (json_dumps (PList [record_value])).
Proof.
  split; [vm_compute; reflexivity|].
  apply (proj1 (proj2 C4_one_document) [record_value]).
  cbn; tauto.
Defined.

(** C4 as stated fails: the lenient engine on the text [[NaN]], and the
    strict engine on a valid record whose confidence is [NaN], print a
    document holding the bare word [NaN], which is not a JSON text; a
    number too large for a float is printed as [Infinity]. *)
Lemma C4_counterexample_nan :
  main_json json_decode nan_array_text
  = Ok [LBRACK :: 10%N :: py "  NaN" ++ [10%N; RBRACK]]
  /\ ~ json_value (LBRACK :: 10%N :: py "  NaN" ++ [10%N; RBRACK])
  /\ (exists doc, main_findings json_decode nan_record_text = Ok [doc]
                  /\ ~ json_value doc)
  /\ (exists doc, main_json json_decode huge_number_text = Ok [doc]
                  /\ ~ json_value doc).
Proof.
  split; [vm_compute; reflexivity|].
  split; [apply not_json_value; vm_compute; reflexivity|].
  split; eexists; (split; [vm_compute; reflexivity|]);
    apply not_json_value; vm_compute; reflexivity.
Qed.

(** The empty result of C2 needs every candidate to be without a valid
    record, the fragments included: an array whose only mapping is not a
    valid record, but holds an array with one, gives that inner array. *)
Example hidden_record_is_found :
  json_decode hidden_record_text
  = Some (PList [PDict [(py "other", PList [inner_record])]])
  /\ passes_checks (PDict [(py "other", PList [inner_record])]) = false
  /\ best_findings json_decode hidden_record_text = Ok [inner_record].
Proof. repeat split; vm_compute; reflexivity. Qed.
(* ================================================================== *)
(** * Part III. Further properties of the two engines                  *)
(* ================================================================== *)

(** ** The comparison and the score *)

(** X1.  The comparison [sc > best_score] of the selection loop is a
    strict total order on scores: no score is above itself, two scores
    are never above each other, the comparison is transitive, and of
    two different scores one is above the other. *)
Theorem X1_tuple_gt_strict_total_order (a b c : Z * Z) :
  tuple_gt a a = false
  /\ tuple_gt a b && tuple_gt b a = false
  /\ tuple_gt a b && tuple_gt b c && negb (tuple_gt a c) = false
  /\ (a = b \/ tuple_gt a b = true \/ tuple_gt b a = true).
Proof.
  destruct a as [a1 a2], b as [b1 b2], c as [c1 c2].
  unfold tuple_gt; cbn [fst snd].
  repeat split.
  - rewrite !Z.ltb_irrefl, andb_false_r; reflexivity.
  - apply not_true_is_false.
    rewrite !andb_true_iff, !orb_true_iff, !andb_true_iff, !Z.ltb_lt, !Z.eqb_eq; lia.
  - apply not_true_is_false.
    rewrite !andb_true_iff, negb_true_iff, !orb_true_iff, !andb_true_iff,
      orb_false_iff, andb_false_iff, !Z.ltb_lt, !Z.eqb_eq, !Z.ltb_ge, Z.eqb_neq; lia.
  - rewrite !orb_true_iff, !andb_true_iff, !Z.ltb_lt, !Z.eqb_eq.
    destruct (Z.eq_dec a1 b1) as [->|]; [|lia].
    destruct (Z.eq_dec a2 b2) as [->|]; [left; reflexivity|lia].
Qed.

Lemma filter_length_le {A} (p : A -> bool) (l : list A) :
  (length (filter p l) <= length l)%nat.
Proof.
  induction l as [|x l IH]; simpl; [lia|].
  destruct (p x); simpl; lia.
Qed.

Lemma valid_dict_count (l : list pyval) :
  (length (filter passes_checks l) <= length (filter isinstance_dict l))%nat.
Proof.
  rewrite <- filter_valid_dicts; apply filter_length_le.
Qed.

(** X2.  The score [score_array] returns is bounded: the first
    component is [-1] exactly when the value is not a list; on a list
    it lies between [0] and the second component, which is at most the
    length of the list. *)
Theorem X2_score_bounds (v : pyval) :
  exists ok n,
    score_array v = Ok (ok, n)
    /\ -1 <= ok <= n
    /\ (ok = -1 <-> isinstance_list v = false)
    /\ match v with PList l => n <= Z.of_nat (length l) | _ => n = 0 end.
Proof.
  exists (fst (score_of v)), (snd (score_of v)).
  rewrite score_array_spec, <- surjective_pairing.
  split; [reflexivity|].
  destruct v as [| | | | |l|]; cbn [score_of fst snd isinstance_list];
    try (repeat split; (lia || reflexivity || discriminate)).
  unfold count.
  pose proof (valid_dict_count l).
  pose proof (filter_length_le isinstance_dict l).
  repeat split; try lia; intros; try discriminate; lia.
Qed.

(** X3.  Scores add up: the score of the concatenation of two lists is
    the componentwise sum of their scores. *)
Theorem X3_score_additive (a b : list pyval) :
  exists p1 n1 p2 n2,
    score_array (PList a) = Ok (p1, n1)
    /\ score_array (PList b) = Ok (p2, n2)
    /\ score_array (PList (a ++ b)) = Ok (p1 + p2, n1 + n2).
Proof.
  exists (count passes_checks a), (count isinstance_dict a),
         (count passes_checks b), (count isinstance_dict b).
  rewrite !score_array_spec; cbn [score_of]; unfold count.
  rewrite !filter_app, !length_app, !Nat2Z.inj_add.
  repeat split.
Qed.

(** ** Truncation of snippets *)

Lemma dict_set_set (d : dict) (k : str) (v w : pyval) :
  dict_set (dict_set d k v) k w = dict_set d k w.
Proof.
  induction d as [|[k' v'] d IH]; simpl.
  - rewrite str_eqb_refl; reflexivity.
  - destruct (str_eqb k' k) eqn:E; simpl; rewrite E; [reflexivity|].
    rewrite IH; reflexivity.
Qed.

Lemma firstn_app_exact {A} (n : nat) (a b : list A) :
  length a = n -> firstn n (a ++ b) = a.
Proof.
  intros <-; rewrite firstn_app, Nat.sub_diag, firstn_all; simpl.
  apply app_nil_r.
Qed.

Lemma trim_trim (it : pyval) : trim (trim it) = trim it.
Proof.
  unfold trim at 2 3.
  destruct it as [| | | | | |d]; try reflexivity.
  destruct (dict_lookup d (py "snippet")) as [[| | | |s| |]|] eqn:E;
    try (unfold trim; rewrite E; reflexivity).
  destruct (1600 <? length s)%nat eqn:L.
  - apply Nat.ltb_lt in L.
    unfold trim; rewrite dict_lookup_set_same.
    assert (length (firstn 1600 s) = 1600%nat) as Hl
        by (rewrite length_firstn; lia).
    rewrite length_app, Hl; cbn [length Nat.add].
    replace (1600 <? 1600 + 1)%nat with true by (symmetry; apply Nat.ltb_lt; lia).
    rewrite dict_set_set, firstn_app_exact by exact Hl.
    reflexivity.
  - unfold trim; rewrite E, L; reflexivity.
Qed.

Lemma trim_within (it : pyval) : snippet_within 1601 (trim it).
Proof.
  unfold trim, snippet_within.
  destruct it as [| | | | | |d]; try exact I.
  destruct (dict_lookup d (py "snippet")) as [[| | | |s| |]|] eqn:E;
    try (rewrite E; exact I).
  destruct (1600 <? length s)%nat eqn:L.
  - rewrite dict_lookup_set_same, length_app, length_firstn; cbn [length]; lia.
  - rewrite E; apply Nat.ltb_ge in L; lia.
Qed.

(** X4.  The truncation loop of [best_findings] is idempotent, and bounds
    every string snippet by 1601 characters (1600 and the marker).  A
    truncated snippet is thus longer than the limit of 1600, and a
    second run of the loop cuts it again, to the value it already has. *)
Theorem X4_truncation_idempotent (its : list pyval) :
  exists out,
    for_each its [] trim_step = Ok out
    /\ for_each out [] trim_step = Ok out
    /\ Forall (snippet_within 1601) out
    /\ length out = length its.
Proof.
  exists (map trim its).
  rewrite !trim_loop_spec; cbn [app].
  repeat split.
  - rewrite map_map; f_equal; apply map_ext; intros; apply trim_trim.
  - apply Forall_forall; intros x Hx.
    apply in_map_iff in Hx as (y & <- & _); apply trim_within.
  - apply length_map.
Qed.








(** ** The lenient engine *)

Lemma first_str_value_spec (d : dict) (ks : list str) :
  first_str_value (PDict d) ks = Ok (first_string d ks).
Proof.
  induction ks as [|k ks IH]; [reflexivity|].
  cbn [first_str_value first_string py_get bind].
  destruct (dict_lookup d k) as [[]|]; auto.
Qed.

(** X6.  In [try_message_content] a [message] that is true but not a
    mapping (a non-empty string or list, a non-zero number, [true])
    makes [msg.get] fail, and the handler returns [None]: the keys
    [output], [response], [content] and [text] are then never looked
    at. *)
Theorem X6_message_blocks_wrappers (json_loads : str -> option pyval)
  (s : str) (d : dict) (m : pyval) :
  json_loads s = Some (PDict d) ->
  dict_lookup d (py "message") = Some m ->
  truthy m = true ->
  isinstance_dict m = false ->
  try_message_content json_loads s = Ok None.
Proof.
  intros Hs Hm Ht Hd.
  unfold try_message_content; cbn [py_json_loads]; rewrite Hs.
  cbn [bind isinstance_dict py_get]; rewrite Hm, Ht.
  destruct m; try discriminate; reflexivity.
Qed.

Lemma X6_blocked_witness :
  try_message_content json_decode blocked_text = Ok None.
Proof.
  apply (X6_message_blocks_wrappers json_decode blocked_text
           [(py "message", PStr (py "see output")); (py "output", PStr (py "[1]"))]
           (PStr (py "see output")));
    vm_compute; reflexivity.
Defined.

(** X7.  Otherwise (no [message], a false one, or a mapping)
    [try_message_content] returns the string under [content] of the
    [message] mapping if there is one, and else the first string among
    [output], [response], [content] and [text], in that order whatever
    the order of the keys in the text. *)
Theorem X7_message_content_precedence (json_loads : str -> option pyval)
  (s : str) (d : dict) :
  json_loads s = Some (PDict d) ->
  (forall m, dict_lookup d (py "message") = Some m ->
             truthy m = true -> isinstance_dict m = true) ->
  try_message_content json_loads s
  = Ok (match message_content d with
        | Some x => Some x
        | None =>
            first_string d [py "output"; py "response"; py "content"; py "text"]
        end).
Proof.
  intros Hs Hm.
  unfold try_message_content, message_content; cbn [py_json_loads]; rewrite Hs.
  cbn [bind isinstance_dict py_get].
  destruct (dict_lookup d (py "message")) as [m|] eqn:E.
  - specialize (Hm m eq_refl).
    destruct (truthy m) eqn:T.
    + specialize (Hm eq_refl); destruct m as [| | | | | |md]; try discriminate.
      cbn [py_get bind try_except].
      destruct (dict_lookup md (py "content")) as [[]|];
        cbn [try_except]; try rewrite first_str_value_spec; reflexivity.
    + cbn [py_get dict_lookup bind].
      rewrite first_str_value_spec; cbn [try_except].
      destruct m as [| | | | | |md]; try reflexivity.
      destruct md; [reflexivity|discriminate].
  - cbn [truthy py_get dict_lookup bind].
    rewrite first_str_value_spec; reflexivity.
Qed.

Lemma X7_precedence_witness :
  try_message_content json_decode precedence_text = Ok (Some (py "c")).
Proof.
  apply (X7_message_content_precedence json_decode precedence_text
           [(py "text", PStr (py "t")); (py "output", PStr (py "o"));
            (py "message", PDict [(py "content", PStr (py "c"))])]).
  - vm_compute; reflexivity.
  - intros m H; vm_compute in H; inversion H; reflexivity.
Defined.

Lemma try_top_struct_spec (json_loads : str -> option pyval) (s : str) :
  try_top_struct json_loads s
  = Ok (match json_loads s with Some v => top_array v | None => None end).
Proof.
  unfold try_top_struct; cbn [py_json_loads].
  destruct (json_loads s) as [v|]; [|reflexivity].
  cbn [bind]; destruct v as [| | | | |l|d]; try reflexivity.
  cbn [isinstance_dict py_get bind top_array].
  destruct (dict_lookup d (py "findings")) as [[]|] eqn:E; try reflexivity.
  cbn [isinstance_list py_getitem bind]; rewrite E; reflexivity.
Qed.

(** X8.  When the whole text parses to an array, or to a mapping whose
    [findings] is an array, the lenient engine prints that array as it
    is: empty or not, its elements neither checked nor truncated, and
    no wrapper key or bracket scan consulted. *)
Theorem X8_lenient_prints_top_array (json_loads : str -> option pyval)
  (s : str) (v : pyval) (l : list pyval) :
  json_loads s = Some v ->
  top_array v = Some l ->
  main_json json_loads s = Ok [json_dumps (PList l)].
Proof.
  intros Hs Hv; unfold main_json.
  rewrite try_top_struct_spec, Hs, Hv; reflexivity.
Qed.

Lemma X8_untruncated_witness :
  main_json json_decode long_text
  = Ok [json_dumps (PList [PDict (long_record_fields long_snippet)])].
Proof.
  apply (X8_lenient_prints_top_array json_decode long_text
           (PList [PDict (long_record_fields long_snippet)]));
    vm_compute; reflexivity.
Defined.

(** X9.  When the whole text parses to a mapping without a [findings]
    array, and the string [try_message_content] finds is not empty and
    parses to a non-empty array (or to a mapping with a non-empty
    [findings] array), the lenient engine prints that array, whatever
    brackets the outer text holds. *)
Theorem X9_lenient_unwraps_once (json_loads : str -> option pyval)
  (s inner : str) (d : dict) (v x : pyval) (l : list pyval) :
  json_loads s = Some (PDict d) ->
  top_array (PDict d) = None ->
  try_message_content json_loads s = Ok (Some inner) ->
  inner <> [] ->
  json_loads inner = Some v ->
  top_array v = Some (x :: l) ->
  main_json json_loads s = Ok [json_dumps (PList (x :: l))].
Proof.
  intros Hs Hd Hm Hn Hi Hv; unfold main_json.
  rewrite try_top_struct_spec, Hs, Hd; cbn [bind]; rewrite Hm; cbn [bind].
  destruct inner as [|c i']; [congruence|].
  rewrite try_top_struct_spec, Hi, Hv; reflexivity.
Qed.

Lemma X9_unwrap_witness :
  main_json json_decode wrapper_text = Ok [json_dumps (PList [record_value])].
Proof.
  apply (X9_lenient_unwraps_once json_decode wrapper_text
           (LBRACK :: record_text ++ [RBRACK])
           [(py "message",
             PDict [(py "content", PStr (LBRACK :: record_text ++ [RBRACK]))])]
           (PList [record_value]));
    try (vm_compute; reflexivity).
  vm_compute; discriminate.
Defined.

(** ** The last-array scan *)

Lemma enumerate_app (i : nat) (a b : str) :
  combine (seq i (length (a ++ b))) (a ++ b)
  = combine (seq i (length a)) a
    ++ combine (seq (i + length a) (length b)) b.
Proof.
  revert i; induction a as [|c a IH]; intros i; cbn [app length seq combine].
  - rewrite Nat.add_0_r; reflexivity.
  - rewrite IH, Nat.add_succ_r; reflexivity.
Qed.

(** Inside an open bracket, matched text leaves the state of the scan
    as it was. *)
Lemma last_step_balanced (m : str) :
  balanced m ->
  forall (i : nat) (start : option nat) (depth : nat) (lst : option (nat * nat)),
    fold_left last_step (combine (seq i (length m)) m) (start, S depth, lst)
    = (start, S depth, lst).
Proof.
  induction 1 as [|b c Hb IHb Hc1 Hc2|b m Hb IHb Hm IHm]; intros i start depth lst.
  - reflexivity.
  - rewrite enumerate_app, fold_left_app, IHb.
    cbn [length seq combine fold_left last_step].
    apply N.eqb_neq in Hc1, Hc2; rewrite Hc1, Hc2; reflexivity.
  - rewrite enumerate_app, fold_left_app, IHb.
    cbn [length seq combine fold_left].
    unfold last_step at 2; rewrite N.eqb_refl; cbn [Nat.eqb].
    rewrite enumerate_app, fold_left_app, IHm.
    cbn [length seq combine fold_left last_step].
    replace (N.eqb RBRACK LBRACK) with false by reflexivity.
    rewrite N.eqb_refl; reflexivity.
Qed.

Lemma last_span_unclosed (pre m : str) :
  balanced m -> last_span (pre ++ LBRACK :: m) = last_span pre.
Proof.
  intros Hm; unfold last_span, enumerate.
  rewrite enumerate_app, fold_left_app.
  destruct (fold_left last_step (combine (seq 0 (length pre)) pre)
              (None, 0%nat, None)) as [[start depth] lst].
  cbn [length seq combine fold_left].
  unfold last_step at 2; rewrite N.eqb_refl.
  rewrite last_step_balanced by exact Hm; reflexivity.
Qed.

Lemma slice_prefix (pre rest : str) (a b : nat) :
  (b <= length pre)%nat -> slice (pre ++ rest) a b = slice pre a b.
Proof.
  intros Hb; unfold slice.
  destruct (Nat.le_gt_cases a (length pre)) as [Ha|Ha].
  - rewrite skipn_app, firstn_app, length_skipn.
    replace (b - a - (length pre - a))%nat with 0%nat by lia.
    rewrite firstn_O, app_nil_r; reflexivity.
  - replace (b - a)%nat with 0%nat by lia; reflexivity.
Qed.

Lemma last_span_bounds (text : str) (a b : nat) :
  last_span text = Some (a, b) -> (a < b <= length text)%nat.
Proof.
  rewrite last_span_spec; intros H.
  apply last_top_span_matched in H as [_ (p & m & q & E & _ & Ha & Hb)].
  cbn [fst snd] in Ha, Hb; subst a b.
  rewrite E, length_app; cbn [length]; rewrite length_app; cbn [length]; lia.
Qed.

Lemma last_span_no_open (text : str) :
  ~ In LBRACK text -> last_span text = None.
Proof.
  intros H; unfold last_span, enumerate.
  assert (G : forall i, fold_left last_step (combine (seq i (length text)) text)
                          (None, 0%nat, None) = (None, 0%nat, None)).
  { induction text as [|c text IH]; intros i; [reflexivity|].
    cbn [length seq combine fold_left last_step].
    assert (c <> LBRACK) as Hc by (intros ->; apply H; left; reflexivity).
    apply N.eqb_neq in Hc; rewrite Hc.
    destruct (N.eqb c RBRACK); apply IH; intros Hin; apply H; right; exact Hin. }
  rewrite G; reflexivity.
Qed.

Lemma balanced_app (a b : str) : balanced a -> balanced b -> balanced (a ++ b).
Proof.
  intros Ha Hb; induction Hb as [|b c Hb IH Hc1 Hc2|b m Hb IHb Hm IHm].
  - rewrite app_nil_r; exact Ha.
  - rewrite app_assoc; apply balanced_char; assumption.
  - rewrite app_assoc; apply balanced_nest; assumption.
Qed.

Lemma balanced_plain (w : str) :
  forallb (fun c => negb (N.eqb c LBRACK || N.eqb c RBRACK)) w = true ->
  balanced w.
Proof.
  induction w as [|c w IH] using rev_ind; intros H; [apply balanced_nil|].
  rewrite forallb_app in H; apply andb_true_iff in H as [Hw Hc].
  cbn [forallb] in Hc; rewrite andb_true_r, negb_true_iff, orb_false_iff in Hc.
  destruct Hc as [H1 H2]; apply N.eqb_neq in H1, H2.
  apply balanced_char; auto.
Qed.

Lemma balanced_wrap (m : str) : balanced m -> balanced (LBRACK :: m ++ [RBRACK]).
Proof. intros H; exact (balanced_nest [] m balanced_nil H). Qed.

(** X10.  An opening bracket that is never closed hides from
    [last_array] all that follows it: on a text that goes on, after
    such a bracket, with text whose brackets are matched, [last_array]
    returns what it returns on the text before the bracket, and [None]
    when that holds no opening bracket. *)
Theorem X10_unclosed_bracket_hides (json_loads : str -> option pyval)
  (pre m : str) :
  balanced m ->
  last_array json_loads (pre ++ LBRACK :: m) = last_array json_loads pre
  /\ (~ In LBRACK pre ->
      last_array json_loads (pre ++ LBRACK :: m) = Ok None).
Proof.
  intros Hm.
  assert (E : last_array json_loads (pre ++ LBRACK :: m)
              = last_array json_loads pre).
  { unfold last_array; rewrite last_span_unclosed by exact Hm.
    destruct (last_span pre) as [[a b]|] eqn:L; [|reflexivity].
    apply last_span_bounds in L.
    rewrite slice_prefix by lia; reflexivity. }
  split; [exact E|].
  intros Hp; rewrite E; unfold last_array.
  rewrite last_span_no_open by exact Hp; reflexivity.
Qed.

Lemma X10_unclosed_witness :
  last_array json_decode unclosed_text = last_array json_decode (py "see ")
  /\ last_array json_decode unclosed_text = Ok None.
Proof.
  assert (B : balanced (py "[1,2] and [3]")).
  { change (balanced ((LBRACK :: py "1,2" ++ [RBRACK])
                      ++ py " and " ++ (LBRACK :: py "3" ++ [RBRACK]))).
    repeat first [ apply balanced_app | apply balanced_wrap
                 | apply balanced_plain; vm_compute; reflexivity ]. }
  destruct (X10_unclosed_bracket_hides json_decode (py "see ") (py "[1,2] and [3]") B)
    as [E N].
  split; [exact E|].
  apply N; vm_compute; intuition discriminate.
Defined.

(** On that text the bracket scan of the strict engine, which keeps a
    stack, still finds both arrays. *)
Example unclosed_text_strict_scan :
  balanced_arrays unclosed_text = [py "[1,2]"; py "[3]"]
  /\ main_json json_decode unclosed_text = Ok [py "[]"].
Proof. split; vm_compute; reflexivity. Qed.

(** ** The fragments of the strict engine *)

Lemma finditer_from_hit (r : regex) (s : str) (i skip : nat) (h : re_hit) :
  In h (finditer_from r s i skip) ->
  exists pre rest,
    s = pre ++ rest
    /\ hit_start h = (i + length pre)%nat
    /\ re_match r rest (hit_start h) (0%nat, 0%nat) = Some (hit_end h, hit_group h).
Proof.
  revert i skip; induction s as [|c s IH]; intros i skip H; [destruct H|].
  assert (Hnext : forall k,
             In h (finditer_from r s (S i) k) ->
             exists pre rest,
               c :: s = pre ++ rest
               /\ hit_start h = (i + length pre)%nat
               /\ re_match r rest (hit_start h) (0%nat, 0%nat)
                  = Some (hit_end h, hit_group h)).
  { intros k Hk; apply IH in Hk.
    destruct Hk as (pre & rest & -> & E1 & M).
    exists (c :: pre), rest; cbn [length app]; repeat split; auto; lia. }
  cbn [finditer_from] in H.
  destruct skip as [|k]; [|apply (Hnext k); exact H].
  destruct (re_match r (c :: s) i (0%nat, 0%nat)) as [[e g]|] eqn:M;
    [|apply (Hnext 0%nat); exact H].
  destruct H as [<-|H]; [|eapply Hnext; exact H].
  exists [], (c :: s); cbn [app length hit_start hit_end hit_group].
  repeat split; [lia|exact M].
Qed.

Lemma fence_close (s : str) (i : nat) (g : nat * nat) :
  re_match [RClose; RChar (is_char BACKTICK); RChar (is_char BACKTICK);
            RChar (is_char BACKTICK)] s i g
  = if prefixb FENCE s then Some ((i + 3)%nat, (fst g, i)) else None.
Proof.
  cbn [re_match]; unfold FENCE, is_char; cbn [prefixb].
  destruct s as [|a [|b [|c s]]]; try reflexivity;
    destruct (N.eqb a BACKTICK) eqn:A; try reflexivity;
    rewrite ?(N.eqb_sym BACKTICK a), ?A; cbn [andb]; try reflexivity;
    destruct (N.eqb b BACKTICK) eqn:B;
    rewrite ?(N.eqb_sym BACKTICK b), ?B; cbn [andb]; try reflexivity.
  destruct (N.eqb c BACKTICK) eqn:C;
    rewrite ?(N.eqb_sym BACKTICK c), ?C; cbn [andb]; try reflexivity.
  do 2 f_equal; lia.
Qed.

(** The lazy repetition stops at the first closing fence. *)
Lemma fence_lazy (s : str) (i : nat) (g : nat * nat) :
  re_match [RLazy any_char; RClose; RChar (is_char BACKTICK);
            RChar (is_char BACKTICK); RChar (is_char BACKTICK)] s i g
  = match find_fence s with
    | Some k => Some ((i + k + 3)%nat, (fst g, (i + k)%nat))
    | None => None
    end.
Proof.
  revert i; induction s as [|c s IH]; intros i.
  - cbn [re_match find_fence]. reflexivity.
  - change (re_match [RLazy any_char; RClose; RChar (is_char BACKTICK);
                      RChar (is_char BACKTICK); RChar (is_char BACKTICK)]
              (c :: s) i g)
      with (match re_match [RClose; RChar (is_char BACKTICK);
                            RChar (is_char BACKTICK); RChar (is_char BACKTICK)]
                    (c :: s) i g with
            | Some m => Some m
            | None =>
                re_match [RLazy any_char; RClose; RChar (is_char BACKTICK);
                          RChar (is_char BACKTICK); RChar (is_char BACKTICK)]
                  s (S i) g
            end).
    rewrite fence_close; cbn [find_fence].
    destruct (prefixb FENCE (c :: s)).
    + rewrite Nat.add_0_r; reflexivity.
    + rewrite IH; destruct (find_fence s) as [k|]; [|reflexivity].
      cbn [option_map]; do 2 f_equal; [lia|f_equal; lia].
Qed.

Lemma find_fence_space (c : N) (s : str) :
  py_isspace c = true -> find_fence (c :: s) = option_map S (find_fence s).
Proof.
  intros H; cbn [find_fence]; unfold FENCE; cbn [prefixb].
  destruct (N.eqb BACKTICK c) eqn:E; [|reflexivity].
  apply N.eqb_eq in E; subst c; discriminate H.
Qed.

(** The greedy white space before the group is never given back. *)
Lemma fence_star (s : str) (i : nat) (g : nat * nat) :
  re_match [RStar py_isspace; ROpen; RLazy any_char; RClose;
            RChar (is_char BACKTICK); RChar (is_char BACKTICK);
            RChar (is_char BACKTICK)] s i g
  = let (ws, t) := span py_isspace s in
    match find_fence t with
    | Some k =>
        Some ((i + length ws + k + 3)%nat,
              ((i + length ws)%nat, (i + length ws + k)%nat))
    | None => None
    end.
Proof.
  assert (T : forall s i g,
             re_match [ROpen; RLazy any_char; RClose; RChar (is_char BACKTICK);
                       RChar (is_char BACKTICK); RChar (is_char BACKTICK)] s i g
             = match find_fence s with
               | Some k => Some ((i + k + 3)%nat, (i, (i + k)%nat))
               | None => None
               end).
  { intros s0 i0 g0.
    change (re_match [ROpen; RLazy any_char; RClose; RChar (is_char BACKTICK);
                      RChar (is_char BACKTICK); RChar (is_char BACKTICK)] s0 i0 g0)
      with (re_match [RLazy any_char; RClose; RChar (is_char BACKTICK);
                      RChar (is_char BACKTICK); RChar (is_char BACKTICK)]
              s0 i0 (i0, snd g0)).
    apply fence_lazy. }
  revert i; induction s as [|c s IH]; intros i.
  - cbn [span length].
    change (re_match (RStar py_isspace :: ?r) [] i g) with (re_match r [] i g).
    rewrite T; cbn [find_fence]; reflexivity.
  - change (re_match [RStar py_isspace; ROpen; RLazy any_char; RClose;
                      RChar (is_char BACKTICK); RChar (is_char BACKTICK);
                      RChar (is_char BACKTICK)] (c :: s) i g)
      with (if py_isspace c then
              match re_match [RStar py_isspace; ROpen; RLazy any_char; RClose;
                              RChar (is_char BACKTICK); RChar (is_char BACKTICK);
                              RChar (is_char BACKTICK)] s (S i) g with
              | Some m => Some m
              | None =>
                  re_match [ROpen; RLazy any_char; RClose; RChar (is_char BACKTICK);
                            RChar (is_char BACKTICK); RChar (is_char BACKTICK)]
                    (c :: s) i g
              end
            else
              re_match [ROpen; RLazy any_char; RClose; RChar (is_char BACKTICK);
                        RChar (is_char BACKTICK); RChar (is_char BACKTICK)]
                (c :: s) i g).
    cbn [span]; destruct (py_isspace c) eqn:P.
    + rewrite IH, T, find_fence_space by exact P.
      destruct (span py_isspace s) as [ws t] eqn:Sp.
      cbn [length].
      destruct (find_fence t) as [k|] eqn:F.
      * do 2 f_equal; [lia|f_equal; lia].
      * (* no fence after the white space: none from inside it either *)
        assert (Fs : find_fence s = None).
        { clear - Sp F; revert ws t Sp F; induction s as [|d s IHs];
            intros ws t Sp F; [reflexivity|].
          cbn [span] in Sp; destruct (py_isspace d) eqn:Pd.
          - destruct (span py_isspace s) as [ws' t'] eqn:Sp'.
            inversion Sp; subst ws t.
            rewrite find_fence_space by exact Pd.
            rewrite (IHs ws' t' eq_refl F); reflexivity.
          - inversion Sp; subst; exact F. }
        rewrite Fs; reflexivity.
    + rewrite T; cbn [length]; rewrite !Nat.add_0_r; reflexivity.
Qed.

Lemma span_stops (p : N -> bool) (s a b : str) :
  span p s = (a, b) ->
  s = a ++ b /\ match b with c :: _ => p c = false | [] => True end.
Proof.
  revert a b; induction s as [|c s IH]; intros a b H; cbn [span] in H.
  - inversion H; split; [reflexivity|exact I].
  - destruct (p c) eqn:P.
    + destruct (span p s) as [a' b'] eqn:Sp; inversion H; subst a b.
      destruct (IH a' b' eq_refl) as [-> Hb]; split; [reflexivity|exact Hb].
    + inversion H; subst a b; split; [reflexivity|exact P].
Qed.

Lemma prefixb_split (w s : str) : prefixb w s = true -> exists r, s = w ++ r.
Proof.
  intros H; exists (skipn (length w) s); apply prefixb_spec; exact H.
Qed.

Lemma find_fence_split (s : str) (k : nat) :
  find_fence s = Some k ->
  exists body post, s = body ++ FENCE ++ post /\ length body = k.
Proof.
  revert k; induction s as [|c s IH]; intros k H; [discriminate|].
  cbn [find_fence] in H.
  destruct (prefixb FENCE (c :: s)) eqn:P.
  - inversion H; subst k.
    apply prefixb_split in P as [r ->].
    exists [], r; split; reflexivity.
  - destruct (find_fence s) as [k'|]; [|discriminate].
    inversion H; subst k.
    destruct (IH k' eq_refl) as (body & post & -> & <-).
    exists (c :: body), post; split; reflexivity.
Qed.

Lemma fence_candidate_shape (text : str) (c : pyval) :
  In c (fence_candidates text) ->
  exists pre opening ws body post,
    c = PStr body
    /\ text = pre ++ opening ++ ws ++ body ++ FENCE ++ post
    /\ is_opening opening = true
    /\ all_in py_isspace ws
    /\ no_leading_space (body ++ FENCE)
    /\ find_fence (body ++ FENCE ++ post) = Some (length body).
Proof.
  unfold fence_candidates; intros H.
  apply in_map_iff in H as (h & <- & H).
  apply finditer_from_hit in H as (pre & rest & E & Es & M).
  cbn [Nat.add] in Es.
  unfold fence_re in M; cbn [re_match] in M.
  destruct rest as [|c1 [|c2 [|c3 [|c4 [|c5 [|c6 [|c7 rest]]]]]]];
    try discriminate M;
    try (destruct (is_char BACKTICK c1); discriminate M);
    try (destruct (is_char BACKTICK c1); [|discriminate M];
         destruct (is_char BACKTICK c2); discriminate M);
    try (destruct (is_char BACKTICK c1); [|discriminate M];
         destruct (is_char BACKTICK c2); [|discriminate M];
         destruct (is_char BACKTICK c3); discriminate M).
  all: destruct (is_char BACKTICK c1) eqn:B1; [|discriminate M];
    destruct (is_char BACKTICK c2) eqn:B2; [|discriminate M];
    destruct (is_char BACKTICK c3) eqn:B3; [|discriminate M];
    destruct (is_char_ci (ch "j") (ch "J") c4) eqn:J4; [|try discriminate M];
    try (destruct (is_char_ci (ch "s") (ch "S") c5) eqn:S5; [|try discriminate M]);
    try (destruct (is_char_ci (ch "o") (ch "O") c6) eqn:O6; [|try discriminate M]);
    try (destruct (is_char_ci (ch "n") (ch "N") c7) eqn:N7; [|try discriminate M]);
    try discriminate M.
  assert (Ho : is_opening [c1; c2; c3; c4; c5; c6; c7] = true)
    by (cbn [is_opening]; rewrite B1, B2, B3, J4, S5, O6, N7; reflexivity).
  apply is_char_eq in B1, B2, B3; subst c1 c2 c3.
  change (re_match [RStar py_isspace; ROpen; RLazy any_char; RClose;
                    RChar (is_char BACKTICK); RChar (is_char BACKTICK);
                    RChar (is_char BACKTICK)] rest
            (S (S (S (S (S (S (S (hit_start h)))))))) (0%nat, 0%nat)
          = Some (hit_end h, hit_group h)) in M.
  rewrite fence_star in M.
  destruct (span py_isspace rest) as [ws t] eqn:Sp.
  apply span_spec in Sp as Sp1; destruct Sp1 as [Er Hws].
  apply span_stops in Sp as [_ Hstop].
  destruct (find_fence t) as [k|] eqn:F; [|discriminate M].
  inversion M as [[He Hg]]; clear M.
  destruct (find_fence_split t k F) as (body & post & Et & Hk).
  set (opening := [BACKTICK; BACKTICK; BACKTICK; c4; c5; c6; c7]).
  assert (G1 : group1 text h = body).
  { assert (Ea : fst (hit_group h) = length (pre ++ opening ++ ws))
      by (rewrite <- Hg; cbn [fst]; rewrite Es, !length_app;
          unfold opening; cbn [length]; lia).
    assert (Eb : snd (hit_group h)
                 = (length (pre ++ opening ++ ws) + length body)%nat)
      by (rewrite <- Hg; cbn [snd]; rewrite Es, !length_app;
          unfold opening; cbn [length]; lia).
    unfold group1; rewrite Ea, Eb, E, Er, Et.
    replace (pre ++ BACKTICK :: BACKTICK :: BACKTICK :: c4 :: c5 :: c6 :: c7
                  :: ws ++ body ++ FENCE ++ post)
      with ((pre ++ opening ++ ws) ++ body ++ (FENCE ++ post))
      by (unfold opening; rewrite <- !app_assoc; reflexivity).
    apply slice_app_exact. }
  exists pre, opening, ws, body, post.
  rewrite G1.
  split; [reflexivity|].
  split; [rewrite E, Er, Et; unfold opening; reflexivity|].
  split; [exact Ho|].
  split; [exact Hws|].
  split.
  - rewrite Et in Hstop; destruct body as [|b body']; [|exact Hstop].
    reflexivity.
  - rewrite <- Et, F, Hk; reflexivity.
Qed.

(** X11.  Every candidate of strategy 3 is the text between an opening
    fence (three backticks and [json] in any case) and the first
    closing fence after it, without the white space that follows the
    opening fence: the candidate never starts with white space, and no
    closing fence starts inside it. *)
Theorem X11_fence_body (text : str) (c : pyval) :
  In c (fence_candidates text) ->
  exists pre opening ws body post,
    c = PStr body
    /\ text = pre ++ opening ++ ws ++ body ++ FENCE ++ post
    /\ is_opening opening = true
    /\ all_in py_isspace ws
    /\ no_leading_space (body ++ FENCE)
    /\ find_fence (body ++ FENCE ++ post) = Some (length body).
Proof.
  exact (fence_candidate_shape text c).
Qed.

Lemma X11_fence_witness :
  exists pre opening ws body post,
    PStr (py "[1] `` [2]") = PStr body
    /\ fenced_text = pre ++ opening ++ ws ++ body ++ FENCE ++ post
    /\ is_opening opening = true
    /\ all_in py_isspace ws
    /\ no_leading_space (body ++ FENCE)
    /\ find_fence (body ++ FENCE ++ post) = Some (length body).
Proof.
  apply (X11_fence_body fenced_text (PStr (py "[1] `` [2]"))).
  vm_compute; left; reflexivity.
Defined.

Example fenced_text_candidates :
  fence_candidates fenced_text = [PStr (py "[1] `` [2]"); PStr (py "[3]")].
Proof. vm_compute; reflexivity. Qed.

Lemma cut_of_span (text : str) (sp : nat * nat * nat) :
  matched_span text sp ->
  exists pre post, text = pre ++ span_text text sp ++ post.
Proof.
  intros H; apply matched_span_occurs in H as (p & m & q & E & ->).
  exists p, q; exact E.
Qed.

Lemma fragments_cut (text : str) (c : pyval) :
  In c (fragment_candidates text) ->
  exists pre f post, c = PStr f /\ text = pre ++ f ++ post.
Proof.
  unfold fragment_candidates; intros H.
  apply in_app_or in H as [H|H]; [|apply in_app_or in H as [H|H]].
  - apply fence_candidate_shape in H
      as (pre & opening & ws & body & post & -> & E & _).
    exists (pre ++ opening ++ ws), body, (FENCE ++ post).
    split; [reflexivity|rewrite E, <- !app_assoc; reflexivity].
  - unfold findings_candidates in H; apply in_map_iff in H as (h & <- & H).
    apply finditer_sound in H as (pre & post & E & _).
    exists pre, (group0 text h), post; split; [reflexivity|exact E].
  - unfold bracket_candidates in H; apply in_map_iff in H as (f & <- & H).
    rewrite balanced_arrays_spec in H.
    apply in_map_iff in H as (sp & <- & H); apply in_firstn in H.
    pose proof (bracket_spans_matched text) as M.
    rewrite Forall_forall in M; apply M, cut_of_span in H as (pre & post & E).
    exists pre, (span_text text sp), post; split; [reflexivity|exact E].
Qed.

(** X12.  On a text that [json.loads] does not accept, every candidate
    [json_candidates] yields is a string cut out of the text: strategies
    1 and 2 yield nothing, and the generator ends without raising. *)
Theorem X12_candidates_cut_from_text (json_loads : str -> option pyval)
  (text : str) :
  json_loads text = None ->
  snd (json_candidates json_loads text) = Ok tt
  /\ Forall (fun c => exists pre f post, c = PStr f /\ text = pre ++ f ++ post)
       (fst (json_candidates json_loads text)).
Proof.
  intros H; rewrite json_candidates_spec; cbn [fst snd].
  split; [reflexivity|].
  unfold whole_text_candidates, envelope_candidates; rewrite H; cbn [app].
  apply Forall_forall; intros c Hc; apply fragments_cut; exact Hc.
Qed.

Lemma X12_cut_witness :
  snd (json_candidates json_decode fenced_text) = Ok tt
  /\ Forall (fun c => exists pre f post,
                        c = PStr f /\ fenced_text = pre ++ f ++ post)
       (fst (json_candidates json_decode fenced_text)).
Proof.
  apply (X12_candidates_cut_from_text json_decode fenced_text).
  vm_compute; reflexivity.
Defined.

Lemma re_match_end (r : regex) (s : str) (i : nat) (g : nat * nat)
  (e : nat) (g' : nat * nat) :
  re_match r s i g = Some (e, g') -> (i <= e <= i + length s)%nat.
Proof.
  intros H; apply re_match_sound in H as (w & rest & -> & _ & ->).
  rewrite length_app; lia.
Qed.

Lemma finditer_from_lower (r : regex) (s : str) (i skip : nat) (h : re_hit) :
  In h (finditer_from r s i skip) ->
  (i + skip <= hit_start h <= hit_end h)%nat
  /\ (hit_end h <= i + length s)%nat.
Proof.
  revert i skip; induction s as [|c s IH]; intros i skip H; [destruct H|].
  cbn [finditer_from] in H; cbn [length].
  destruct skip as [|k]; [|apply IH in H; lia].
  destruct (re_match r (c :: s) i (0%nat, 0%nat)) as [[e g]|] eqn:M;
    [|apply IH in H; lia].
  destruct H as [<-|H]; [|apply IH in H; lia].
  apply re_match_end in M; cbn [hit_start hit_end length] in *; lia.
Qed.

Lemma finditer_from_sorted (r : regex) (s : str) (i skip : nat) :
  StronglySorted (fun a b => (hit_end a <= hit_start b)%nat)
    (finditer_from r s i skip).
Proof.
  revert i skip; induction s as [|c s IH]; intros i skip; [constructor|].
  cbn [finditer_from].
  destruct skip as [|k]; [|apply IH].
  destruct (re_match r (c :: s) i (0%nat, 0%nat)) as [[e g]|] eqn:M; [|apply IH].
  constructor; [apply IH|].
  apply Forall_forall; intros h H.
  apply finditer_from_lower in H; apply re_match_end in M.
  cbn [hit_start hit_end]; lia.
Qed.

Lemma finditer_from_nonempty (p : N -> bool) (r : regex) (s : str)
  (i skip : nat) (h : re_hit) :
  In h (finditer_from (RChar p :: r) s i skip) -> (hit_start h < hit_end h)%nat.
Proof.
  intros H; apply finditer_from_hit in H as (pre & rest & _ & _ & M).
  cbn [re_match] in M.
  destruct rest as [|c rest]; [discriminate|].
  destruct (p c); [|discriminate].
  apply re_match_end in M; lia.
Qed.

Lemma finditer_disjoint (p : N -> bool) (r : regex) (text : str) :
  disjoint_hits text (finditer (RChar p :: r) text).
Proof.
  split; [apply finditer_from_sorted|].
  apply Forall_forall; intros h H.
  pose proof (finditer_from_nonempty p r text 0 0 h H).
  apply finditer_from_lower in H; lia.
Qed.

(** X13.  The matches [re.finditer] gives to strategies 3 and 4 come in
    the order of the text and do not overlap: each is a non-empty span
    of the text, and starts at or after the end of the one before it. *)
Theorem X13_matches_disjoint (text : str) :
  disjoint_hits text (finditer fence_re text)
  /\ disjoint_hits text (finditer findings_re text).
Proof.
  split; apply finditer_disjoint.
Qed.

(** ** Text without brackets *)

Lemma plain_text_app (a b : str) :
  plain_text (a ++ b) <-> plain_text a /\ plain_text b.
Proof.
  unfold plain_text; split.
  - intros [H1 H2]; repeat split; intros K.
    + apply H1, in_or_app; left; exact K.
    + apply H2, in_or_app; left; exact K.
    + apply H1, in_or_app; right; exact K.
    + apply H2, in_or_app; right; exact K.
  - intros [[A1 A2] [B1 B2]]; split; intros K;
      apply in_app_or in K as [K|K]; auto.
Qed.

Lemma plain_text_cons (c : N) (s : str) :
  plain_text (c :: s) <-> (c <> LBRACK /\ c <> BACKSLASH) /\ plain_text s.
Proof.
  unfold plain_text; cbn [In]; split.
  - intros [H1 H2]; repeat split; intros K.
    + apply H1; left; exact K.
    + apply H2; left; exact K.
    + apply H1; right; exact K.
    + apply H2; right; exact K.
  - intros [[A1 A2] [B1 B2]]; split; intros [K|K]; auto.
Qed.

Lemma scan_string_raw (s acc x r : str) :
  ~ In BACKSLASH s -> scan_string s acc = Some (x, r) ->
  exists body, s = body ++ QUOTE :: r /\ x = rev acc ++ body.
Proof.
  revert acc; induction s as [|c s IH]; intros acc NB H; [discriminate|].
  cbn [scan_string] in H.
  destruct (N.eqb_spec c QUOTE) as [->|NQ].
  - inversion H; subst; exists []; rewrite app_nil_r; split; reflexivity.
  - destruct (N.eqb_spec c BACKSLASH) as [->|NS];
      [exfalso; apply NB; left; reflexivity|].
    destruct (c <? 32)%N; [discriminate|].
    apply IH in H as (body & -> & ->); [|intros K; apply NB; right; exact K].
    exists (c :: body); cbn [rev app]; rewrite <- app_assoc; split; reflexivity.
Qed.

Lemma number_value_atom (tok : str) (v : pyval) :
  number_value tok = Some v -> bracketless v.
Proof.
  intros H; unfold number_value in H.
  repeat match type of H with
         | (let (_, _) := ?x in _) = _ => destruct x
         | match ?x with _ => _ end = _ => destruct x
         | (if ?x then _ else _) = _ => destruct x
         end; try discriminate; inversion H; exact I.
Qed.

Lemma words_atom (w : str) (v : pyval) : In (w, v) words -> bracketless v.
Proof.
  unfold words; cbn [In].
  intros H; repeat destruct H as [H|H]; try contradiction;
    inversion H; subst; exact I.
Qed.

Lemma lex_one_plain (s r : str) (t : option token) :
  plain_text s -> lex_one s = Some (t, r) ->
  match t with Some x => token_bracketless x | None => True end /\ plain_text r.
Proof.
  intros P H; destruct s as [|c s]; [discriminate|].
  apply plain_text_cons in P as P'; destruct P' as [[NL NB] Ps].
  cbn [lex_one] in H.
  destruct (is_json_ws c); [inversion H; subst; split; [exact I|exact Ps]|].
  destruct (N.eqb c LBRACE); [inversion H; subst; split; [exact I|exact Ps]|].
  destruct (N.eqb c RBRACE); [inversion H; subst; split; [exact I|exact Ps]|].
  destruct (N.eqb_spec c LBRACK) as [E|_]; [contradiction|].
  destruct (N.eqb c RBRACK); [inversion H; subst; split; [exact I|exact Ps]|].
  destruct (N.eqb c COLON); [inversion H; subst; split; [exact I|exact Ps]|].
  destruct (N.eqb c COMMA); [inversion H; subst; split; [exact I|exact Ps]|].
  destruct (N.eqb c QUOTE).
  - destruct (scan_string s []) as [[x r']|] eqn:S; [|discriminate].
    inversion H; subst.
    apply scan_string_raw in S as (body & Es & ->); [|apply Ps].
    rewrite Es in Ps; apply plain_text_app in Ps as [Pb Pr].
    apply plain_text_cons in Pr as [_ Pr].
    split; [exact Pb|exact Pr].
  - destruct (match_word words (c :: s)) as [[v r']|] eqn:MW.
    + inversion H; subst.
      apply match_word_spec in MW as (w & Hw & Es).
      rewrite Es in P; apply plain_text_app in P as [_ Pr].
      split; [apply (words_atom w); exact Hw|exact Pr].
    + destruct (span is_number_char (c :: s)) as [tok r'] eqn:Sp.
      destruct (number_value tok) as [v|] eqn:NV; [|discriminate].
      inversion H; subst.
      apply span_spec in Sp as [Es _].
      rewrite Es in P; apply plain_text_app in P as [_ Pr].
      split; [apply (number_value_atom tok); exact NV|exact Pr].
Qed.

Lemma lex_plain (fuel : nat) (s : str) (ts : list token) :
  plain_text s -> lex fuel s = Some ts -> Forall token_bracketless ts.
Proof.
  revert s ts; induction fuel as [|f IH]; intros s ts P H.
  - destruct s; [inversion H; constructor|discriminate].
  - destruct s as [|c s]; [inversion H; constructor|].
    cbn [lex] in H.
    destruct (lex_one (c :: s)) as [[t r]|] eqn:L1; [|discriminate].
    destruct (lex f r) as [ts'|] eqn:L; [|discriminate].
    apply (lex_one_plain _ _ _ P) in L1 as [Pt Pr].
    apply (IH _ _ Pr) in L.
    inversion H; subst; destruct t; [constructor; assumption|assumption].
Qed.

Lemma bracketless_dict (d : list (str * pyval)) :
  bracketless (PDict d) <-> Forall (fun kv => bracketless (snd kv)) d.
Proof.
  induction d as [|[k x] d IH]; cbn [bracketless].
  - split; [constructor|exact (fun _ => I)].
  - split.
    + intros [Hx Hd]; constructor; [exact Hx|apply IH; exact Hd].
    + intros H; inversion H; subst; split; [assumption|apply IH; assumption].
Qed.

Lemma bracketless_set (d : dict) (k : str) (v : pyval) :
  bracketless (PDict d) -> bracketless v -> bracketless (PDict (dict_set d k v)).
Proof.
  rewrite !bracketless_dict; intros Hd Hv.
  induction d as [|[k' v'] d IH]; cbn [dict_set].
  - constructor; [exact Hv|constructor].
  - inversion Hd; subst.
    destruct (str_eqb k' k); constructor; auto.
Qed.

Lemma bracketless_lookup (d : dict) (k : str) (v : pyval) :
  bracketless (PDict d) -> dict_lookup d k = Some v -> bracketless v.
Proof.
  rewrite bracketless_dict; intros Hd H.
  induction d as [|[k' v'] d IH]; [discriminate|].
  inversion Hd; subst; cbn [dict_lookup] in H.
  destruct (str_eqb k' k); [inversion H; subst; assumption|auto].
Qed.

Lemma parse_bracketless (fuel : nat) :
  (forall ts v r,
      Forall token_bracketless ts -> parse_value fuel ts = Some (v, r) ->
      bracketless v /\ Forall token_bracketless r)
  /\ (forall ts acc v r,
        Forall token_bracketless ts -> bracketless (PDict acc) ->
        parse_members fuel ts acc = Some (v, r) ->
        bracketless v /\ Forall token_bracketless r).
Proof.
  induction fuel as [|f (IHv & IHm)].
  - split; intros; discriminate.
  - split.
    + intros ts v r P H; cbn [parse_value] in H.
      destruct ts as [|t ts]; [discriminate|].
      inversion P as [|? ? Pt Pts]; subst.
      destruct t; try discriminate; try contradiction.
      * destruct ts as [|t' ts'];
          [apply (IHm [] [] v r) in H; auto; exact I|].
        destruct t'; try (apply (IHm _ [] v r) in H; auto; exact I).
        inversion H; subst; split; [exact I|inversion Pts; assumption].
      * inversion H; subst; split; assumption.
      * inversion H; subst; split; assumption.
    + intros ts acc v r P A H; cbn [parse_members] in H.
      destruct ts as [|t ts]; [discriminate|].
      destruct t; try discriminate.
      destruct ts as [|t' ts]; [discriminate|].
      destruct t'; try discriminate.
      inversion P as [|? ? _ P1]; subst; inversion P1 as [|? ? _ P2]; subst.
      destruct (parse_value f ts) as [[x r']|] eqn:V; [|discriminate].
      destruct (IHv ts x r' P2 V) as [Px Pr'].
      destruct r' as [|t r'']; [discriminate|].
      inversion Pr'; subst.
      destruct t; try discriminate.
      * inversion H; subst; split; [apply bracketless_set; assumption|assumption].
      * apply (IHm r'' (dict_set acc s x) v r); auto.
        apply bracketless_set; assumption.
Qed.

Lemma json_decode_bracketless (s : str) (v : pyval) :
  plain_text s -> json_decode s = Some v -> bracketless v.
Proof.
  intros P H; unfold json_decode in H.
  destruct (lex (length s) s) as [ts|] eqn:L; [|discriminate].
  apply (lex_plain _ _ _ P) in L.
  destruct (parse_value (2 * length ts + 2) ts) as [[x r]|] eqn:V; [|discriminate].
  destruct r; [|discriminate]; inversion H; subst.
  destruct (parse_bracketless (2 * length ts + 2)) as [PV _].
  apply (PV ts v [] L V).
Qed.

Lemma bracketless_unwrapped (v : pyval) :
  bracketless v -> score_of (unwrapped v) = (-1, 0) /\ top_array v = None.
Proof.
  intros B; destruct v as [| | | | |l|d]; try (split; reflexivity).
  - destruct B.
  - cbn [unwrapped top_array].
    destruct (dict_lookup d (py "findings")) as [[]|] eqn:E;
      try (split; reflexivity).
    apply (bracketless_lookup d _ _ B) in E; destruct E.
Qed.

Lemma bracketless_candidate (c : pyval) :
  bracketless c -> candidate_score json_decode c = (-1, 0).
Proof.
  intros B; unfold candidate_score, candidate_array.
  destruct c as [| | | |s|l|d]; try reflexivity.
  - cbn [candidate_value].
    destruct (json_decode s) as [v|] eqn:D; [|reflexivity].
    apply json_decode_bracketless in D; [|exact B].
    apply bracketless_unwrapped; exact D.
  - destruct B.
  - apply (bracketless_unwrapped (PDict d)); exact B.
Qed.

Lemma envelope_bracketless (d : dict) (k : str) (c : pyval) :
  bracketless (PDict d) -> In c (envelope_of d k) -> bracketless c.
Proof.
  intros B H; unfold envelope_of in H.
  destruct (dict_lookup d k) as [v|] eqn:E; [|destruct H].
  apply (bracketless_lookup d _ _ B) in E.
  destruct v as [| | | |s|l|d']; try solve [destruct H].
  - destruct H as [<-|[]]; exact E.
  - destruct (dict_lookup d' (py "content")) as [[]|] eqn:E';
      try solve [destruct H].
    destruct H as [<-|[]].
    apply (bracketless_lookup d' _ _ E E').
Qed.

Lemma best_findings_none (json_loads : str -> option pyval) (text : str) :
  (forall c, In c (candidates json_loads text) ->
             fst (candidate_score json_loads c) <= 0) ->
  best_findings json_loads text = Ok [].
Proof.
  intros H; rewrite best_findings_spec.
  pose proof (fold_primary_nonpos json_loads (candidates json_loads text)
                (PNone, (-1, 0)) ltac:(cbn; lia) H) as P.
  unfold accepted.
  destruct (fst (fold_left _ _ _)); try reflexivity.
  destruct (0 <? _) eqn:Q; [apply Z.ltb_lt in Q; lia | reflexivity].
Qed.

Lemma first_string_bracketless (d : dict) (ks : list str) (x : str) :
  bracketless (PDict d) -> first_string d ks = Some x -> plain_text x.
Proof.
  intros B; induction ks as [|k ks IH]; [discriminate|].
  cbn [first_string].
  destruct (dict_lookup d k) as [[]|] eqn:E; auto.
  intros H; inversion H; subst.
  apply (bracketless_lookup d _ _ B E).
Qed.

Lemma ok_inj {A} (a b : A) : Ok a = Ok b -> a = b.
Proof. intros H; inversion H; reflexivity. Qed.

Lemma message_bracketless (s x : str) (v : pyval) :
  json_decode s = Some v -> bracketless v ->
  try_message_content json_decode s = Ok (Some x) -> plain_text x.
Proof.
  intros D B; unfold try_message_content; cbn [py_json_loads]; rewrite D.
  cbn [bind].
  destruct v as [| | | | | |d]; try discriminate.
  cbn [isinstance_dict py_get bind].
  set (m := match dict_lookup d (py "message") with Some x0 => x0 | None => PNone end).
  assert (Bm : bracketless (if truthy m then m else PDict [])).
  { destruct (truthy m); [|exact I].
    unfold m; destruct (dict_lookup d (py "message")) eqn:E; [|exact I].
    apply (bracketless_lookup d _ _ B E). }
  destruct (if truthy m then m else PDict []) as [| | | | | |md];
    try discriminate.
  cbn [py_get bind].
  destruct (dict_lookup md (py "content")) as [c|] eqn:E.
  - apply (bracketless_lookup md _ _ Bm) in E.
    destruct c; cbn [try_except]; rewrite ?first_str_value_spec;
      intros H; cbn [try_except] in H; apply ok_inj in H;
      try (apply (first_string_bracketless d _ _ B H)).
    inversion H; subst; exact E.
  - rewrite first_str_value_spec; intros H; cbn [try_except] in H.
    apply ok_inj in H.
    apply (first_string_bracketless d _ _ B H).
Qed.

(** X14.  A text with no opening square bracket and no backslash holds
    no findings for either engine: the strict engine returns the empty
    list and the lenient engine prints the empty array, whatever the
    text parses to. *)
Theorem X14_no_bracket_no_findings (text : str) :
  ~ In LBRACK text -> ~ In BACKSLASH text ->
  best_findings json_decode text = Ok []
  /\ main_json json_decode text = Ok [py "[]"].
Proof.
  intros NL NB; assert (P : plain_text text) by (split; assumption).
  split.
  - apply best_findings_none; intros c Hc.
    rewrite bracketless_candidate; [cbn; lia|].
    unfold candidates in Hc.
    apply in_app_or in Hc as [Hc|Hc]; [|apply in_app_or in Hc as [Hc|Hc]].
    + unfold whole_text_candidates in Hc.
      destruct (json_decode text) as [v|] eqn:D; [|destruct Hc].
      destruct Hc as [<-|[]]; apply (json_decode_bracketless text); assumption.
    + unfold envelope_candidates in Hc.
      destruct (json_decode text) as [v|] eqn:D; [|destruct Hc].
      apply json_decode_bracketless in D; [|exact P].
      destruct v; try solve [destruct Hc].
      apply in_flat_map in Hc as (k & _ & Hc).
      apply (envelope_bracketless d k); assumption.
    + apply fragments_cut in Hc as (pre & f & post & -> & E).
      rewrite E in P; apply plain_text_app in P as [_ P].
      apply plain_text_app in P as [P _]; exact P.
  - assert (L : forall s, plain_text s -> last_array json_decode s = Ok None).
    { intros s [Hs _]; unfold last_array.
      rewrite last_span_no_open by exact Hs; reflexivity. }
    assert (T : forall s, plain_text s -> try_top_struct json_decode s = Ok None).
    { intros s Ps; rewrite try_top_struct_spec.
      destruct (json_decode s) as [v|] eqn:D; [|reflexivity].
      apply json_decode_bracketless in D; [|exact Ps].
      f_equal; apply bracketless_unwrapped; exact D. }
    unfold main_json; rewrite (T text P); cbn [bind].
    assert (Em : exists i, try_message_content json_decode text = Ok i)
      by (unfold try_message_content; apply try_except_ok).
    destruct Em as [inner Em]; rewrite Em; cbn [bind].
    destruct inner as [[|c i']|]; cbn [bind]; try (rewrite (L text P); reflexivity).
    assert (Pi : plain_text (c :: i')).
    { destruct (json_decode text) as [v|] eqn:D.
      - apply (message_bracketless text _ v D); [|exact Em].
        apply (json_decode_bracketless text); assumption.
      - unfold try_message_content in Em; cbn [py_json_loads] in Em.
        rewrite D in Em; discriminate Em. }
    rewrite (T _ Pi); cbn [bind or_else]; rewrite (L _ Pi); cbn [bind].
    rewrite (L text P); reflexivity.
Qed.

Lemma X14_no_bracket_witness :
  best_findings json_decode (text_of "{'output':'none', 'n': 0}") = Ok []
  /\ main_json json_decode (text_of "{'output':'none', 'n': 0}") = Ok [py "[]"].
Proof.
  apply X14_no_bracket_no_findings;
    vm_compute; intuition discriminate.
Defined.

(** Without the second hypothesis the property fails: a text can hold
    its brackets as escapes inside a string. *)
Example escaped_brackets_found :
  ~ In LBRACK escaped_brackets_text
  /\ (exists r, best_findings json_decode escaped_brackets_text = Ok [r]
                /\ valid_finding r = true).
Proof.
  split; [vm_compute; intuition discriminate|].
  eexists; split; vm_compute; reflexivity.
Qed.

(** ** The selection keeps the best candidate *)





(** ** Printing and reading back *)

Lemma digits_acc (u : Decimal.uint) (acc : positive) :
  fold_left (fun a d => (a * 10 + (d - 48))%N) (uint_chars u) (Npos acc)
  = Npos (Pos.of_uint_acc u acc).
Proof.
  revert acc; induction u; intros acc; cbn [uint_chars fold_left Pos.of_uint_acc];
    [reflexivity|..];
    match goal with
    | |- fold_left _ _ ?a = _ =>
        match goal with
        | |- _ = Npos (Pos.of_uint_acc _ ?b) =>
            replace a with (Npos b) by lia
        end
    end; apply IHu.
Qed.

Lemma digits_of_uint (u : Decimal.uint) :
  digits_value (uint_chars u) = N.of_uint u.
Proof.
  unfold digits_value, N.of_uint.
  induction u; cbn [uint_chars fold_left Pos.of_uint]; [reflexivity|exact IHu|..];
    match goal with
    | |- fold_left _ _ ?a = Npos (Pos.of_uint_acc _ ?b) =>
        replace a with (Npos b) by lia
    end; apply digits_acc.
Qed.

Lemma digits_repr_nat (n : N) : digits_value (repr_nat n) = n.
Proof.
  unfold repr_nat; rewrite digits_of_uint.
  apply DecimalN.Unsigned.of_to.
Qed.

Lemma span_app_stop (p : N -> bool) (a rest : str) :
  all_in p a ->
  match rest with c :: _ => p c = false | [] => True end ->
  span p (a ++ rest) = (a, rest).
Proof.
  intros Ha Hr; induction Ha as [|c a Hc Ha IH]; cbn [app span].
  - destruct rest as [|c r]; cbn [span]; [reflexivity|rewrite Hr; reflexivity].
  - rewrite Hc, IH; reflexivity.
Qed.

Ltac number_sign neg ip H :=
  unfold number_value;
  destruct neg;
  [ change (py "-") with [45%N]; cbn [app];
    replace ((45 =? ch "-")%N) with true by reflexivity
  | let d := fresh "d" in
    let r := fresh "r" in
    let Hd := fresh "Hd" in
    destruct ip as [|d r] eqn:Hd; [discriminate H|];
    cbn [app];
    let E := fresh "E" in
    destruct (N.eqb_spec d (ch "-")) as [E|E];
    [ rewrite E in H; discriminate H |];
    change (d :: r ++ ?x) with ((d :: r) ++ x); rewrite <- Hd in * ].

Lemma number_value_int (neg : bool) (ip : str) :
  is_int_part ip = true ->
  number_value ((if neg then py "-" else []) ++ ip)
  = Some (PInt (if neg then - Z.of_N (digits_value ip)
                else Z.of_N (digits_value ip))).
Proof.
  intros H.
  assert (E : number_value ((if neg then py "-" else []) ++ ip ++ [])
              = Some (PInt (if neg then - Z.of_N (digits_value ip)
                            else Z.of_N (digits_value ip)))).
  { number_sign neg ip H;
      (rewrite span_app_stop by (try exact I; apply is_int_part_digits; exact H));
      rewrite H; reflexivity. }
  rewrite app_nil_r in E; exact E.
Qed.

Lemma repr_int_value (z : Z) : number_value (repr_int z) = Some (PInt z).
Proof.
  unfold repr_int.
  rewrite (number_value_int (z <? 0) (repr_nat (Z.abs_N z)))
    by apply repr_nat_int_part.
  rewrite digits_repr_nat.
  destruct (z <? 0) eqn:E; do 2 f_equal;
    [apply Z.ltb_lt in E|apply Z.ltb_ge in E]; lia.
Qed.


Lemma exponent_of_repr (e : Z) :
  exponent_value (py "e" ++ repr_int e) = Some (Some e).
Proof.
  unfold repr_int.
  pose proof (repr_nat_digits (Z.abs_N e)) as [Hne Hd].
  apply forallb_all_in in Hd.
  pose proof (digits_repr_nat (Z.abs_N e)) as Hv.
  destruct (repr_nat (Z.abs_N e)) as [|d ds] eqn:R; [congruence|].
  change (py "e" ++ ?x) with (101%N :: x).
  cbn [exponent_value]; change (ch "e") with 101%N; cbn [N.eqb Pos.eqb orb].
  destruct (e <? 0) eqn:E.
  - change (py "-" ++ d :: ds) with (45%N :: d :: ds).
    change (ch "-") with 45%N; cbn [N.eqb Pos.eqb].
    cbn [nonempty andb]; rewrite Hd, Hv.
    apply Z.ltb_lt in E; do 2 f_equal; lia.
  - cbn [app].
    assert (Dd : is_digit d = true)
      by (cbn [forallb] in Hd; apply andb_true_iff in Hd; tauto).
    destruct (N.eqb_spec d (ch "-")) as [->|_]; [discriminate Dd|].
    destruct (N.eqb_spec d (ch "+")) as [->|_]; [discriminate Dd|].
    cbn [nonempty andb]; rewrite Hd, Hv.
    apply Z.ltb_ge in E; do 2 f_equal; lia.
Qed.

Lemma repr_float_value (neg : bool) (m : N) (e : Z) :
  overflows m e = false ->
  number_value (repr_float (FFinite neg m e))
  = Some (PFloat (canon_float (FFinite neg m e))).
Proof.
  intros Ov; unfold repr_float, canon_float.
  destruct (rounds_to_zero m e).
  - destruct neg; vm_compute; reflexivity.
  - pose proof (repr_nat_int_part m) as H.
    pose proof (exponent_of_repr e) as Ex.
    pose proof (digits_repr_nat m) as Dv.
    set (ip := repr_nat m) in *.
    number_sign neg ip H;
      (rewrite span_app_stop
         by (try reflexivity; apply is_int_part_digits; exact H));
      rewrite H;
      change (py "e" ++ repr_int e) with (101%N :: repr_int e) at 1;
      change (ch ".") with 46%N; cbn [N.eqb Pos.eqb];
      change (101%N :: repr_int e) with (py "e" ++ repr_int e);
      rewrite Ex, app_nil_r, Dv;
      cbn [length Z.of_nat]; rewrite Z.sub_0_r, Ov; reflexivity.
Qed.

Lemma hex_value_digit (n : N) : (n < 16)%N -> hex_value (hex_digit n) = Some n.
Proof.
  intros H; rewrite <- (N2Nat.id n).
  assert (K : (N.to_nat n < 16)%nat) by lia.
  revert K; generalize (N.to_nat n); intros k K.
  do 16 (destruct k as [|k]; [reflexivity|]); lia.
Qed.

Lemma hex4_value_hex4 (c : N) (r : str) :
  (c < 65536)%N ->
  exists h1 h2 h3 h4,
    hex4 c ++ r = h1 :: h2 :: h3 :: h4 :: r
    /\ hex4_value h1 h2 h3 h4 = Some c.
Proof.
  intros H; unfold hex4; do 4 eexists; split; [reflexivity|].
  unfold hex4_value.
  rewrite !hex_value_digit;
    try apply land_15_lt;
    [|rewrite N.shiftr_div_pow2; apply N.Div0.div_lt_upper_bound; exact H].
  f_equal.
  change 15%N with (N.ones 4); rewrite !N.land_ones, !N.shiftr_div_pow2.
  change (2 ^ 12)%N with 4096%N; change (2 ^ 8)%N with 256%N;
    change (2 ^ 4)%N with 16%N.
  zify; Z.to_euclidean_division_equations; lia.
Qed.

Lemma lor_low_bits (base t : N) :
  N.land base 1023 = 0%N ->
  N.lor base (N.land t 1023) = (base + N.land t 1023)%N.
Proof.
  intros H.
  assert (Z0 : N.land base (N.land t 1023) = 0%N).
  { rewrite (N.land_comm t 1023), N.land_assoc, H; apply N.land_0_l. }
  rewrite <- N.lxor_lor by exact Z0.
  symmetry; apply N.add_nocarry_lxor; exact Z0.
Qed.

(** The two escapes written for a code point above the basic plane
    read back as that code point. *)
Lemma surrogates_join (c : N) :
  (65536 <= c < 1114112)%N ->
  let n := (c - 65536)%N in
  let hs := N.lor 55296 (N.land (N.shiftr n 10) 1023) in
  let ls := N.lor 56320 (N.land n 1023) in
  (hs < 65536)%N /\ (ls < 65536)%N
  /\ is_low_surrogate hs = false
  /\ forall h1 h2 h3 h4,
       hex4_value h1 h2 h3 h4 = Some ls ->
       joined_surrogates hs BACKSLASH (ch "u") h1 h2 h3 h4 = Some c.
Proof.
  intros H n hs ls.
  assert (Eh : hs = (55296 + N.land (N.shiftr n 10) 1023)%N)
    by (apply lor_low_bits; reflexivity).
  assert (El : ls = (56320 + N.land n 1023)%N)
    by (apply lor_low_bits; reflexivity).
  assert (Bh : (N.land (N.shiftr n 10) 1023 = n / 1024)%N).
  { change 1023%N with (N.ones 10); rewrite N.land_ones, N.shiftr_div_pow2.
    change (2 ^ 10)%N with 1024%N.
    apply N.mod_small, N.Div0.div_lt_upper_bound; subst n; lia. }
  assert (Bl : (N.land n 1023 = n mod 1024)%N)
    by (change 1023%N with (N.ones 10); apply N.land_ones).
  rewrite Bh in Eh; rewrite Bl in El.
  assert (Hq : (n / 1024 < 1024)%N)
    by (apply N.Div0.div_lt_upper_bound; subst n; lia).
  assert (Hr : (n mod 1024 < 1024)%N) by (apply N.mod_lt; discriminate).
  assert (Hn : n = (1024 * (n / 1024) + n mod 1024)%N)
    by (apply N.div_mod; discriminate).
  split; [lia|]; split; [lia|]; split.
  - unfold is_low_surrogate; rewrite Eh.
    apply andb_false_iff; left; apply N.leb_gt; lia.
  - intros h1 h2 h3 h4 Hv; unfold joined_surrogates.
    assert (is_high_surrogate hs = true) as ->.
    { unfold is_high_surrogate; rewrite Eh.
      apply andb_true_iff; split; apply N.leb_le; lia. }
    rewrite !N.eqb_refl, Hv; cbn [andb].
    assert (is_low_surrogate ls = true) as ->.
    { unfold is_low_surrogate; rewrite El.
      apply andb_true_iff; split; apply N.leb_le; lia. }
    f_equal; rewrite Eh, El; subst n; lia.
Qed.

Lemma scan_escape (c : N) (tail acc : str) :
  (c < 1114112)%N -> not_joined c tail ->
  scan_string (escape_char c ++ tail) acc = scan_string tail (c :: acc).
Proof.
  intros Hc Hj; unfold escape_char.
  destruct (N.eqb_spec c QUOTE) as [->|NQ]; [reflexivity|].
  destruct (N.eqb_spec c BACKSLASH) as [->|NB]; [reflexivity|].
  destruct (N.eqb_spec c 8) as [->|N8]; [reflexivity|].
  destruct (N.eqb_spec c 12) as [->|N12]; [reflexivity|].
  destruct (N.eqb_spec c 10) as [->|N10]; [reflexivity|].
  destruct (N.eqb_spec c 13) as [->|N13]; [reflexivity|].
  destruct (N.eqb_spec c 9) as [->|N9]; [reflexivity|].
  destruct ((32 <=? c) && (c <=? 126))%N eqn:P.
  - apply andb_true_iff in P as [P1 P2]; apply N.leb_le in P1.
    cbn [app scan_string].
    apply N.eqb_neq in NQ, NB; rewrite NQ, NB.
    replace (c <? 32)%N with false by (symmetry; apply N.ltb_ge; exact P1).
    reflexivity.
  - destruct (c <? 65536)%N eqn:L.
    + apply N.ltb_lt in L.
      change (py "\u" ++ hex4 c) with (BACKSLASH :: ch "u" :: hex4 c).
      cbn [app].
      destruct (hex4_value_hex4 c tail L) as (h1 & h2 & h3 & h4 & -> & Hv).
      cbn [scan_string].
      replace (N.eqb BACKSLASH QUOTE) with false by reflexivity.
      rewrite !N.eqb_refl, Hv.
      unfold not_joined in Hj.
      destruct tail as [|b [|u [|k1 [|k2 [|k3 [|k4 r6]]]]]]; try reflexivity.
      rewrite Hj; reflexivity.
    + apply N.ltb_ge in L.
      destruct (surrogates_join c (conj L Hc)) as (Hh & Hl & _ & J).
      set (hs := N.lor 55296 _) in *; set (ls := N.lor 56320 _) in *.
      change (py "\u" ++ hex4 hs ++ py "\u" ++ hex4 ls)
        with (BACKSLASH :: ch "u" :: hex4 hs ++ BACKSLASH :: ch "u" :: hex4 ls).
      cbn [app]; rewrite <- app_assoc; cbn [app].
      destruct (hex4_value_hex4 ls tail Hl) as (l1 & l2 & l3 & l4 & -> & Hvl).
      destruct (hex4_value_hex4 hs
                  (BACKSLASH :: ch "u" :: l1 :: l2 :: l3 :: l4 :: tail) Hh)
        as (h1 & h2 & h3 & h4 & -> & Hvh).
      cbn [scan_string].
      replace (N.eqb BACKSLASH QUOTE) with false by reflexivity.
      rewrite !N.eqb_refl, Hvh, (J _ _ _ _ Hvl); reflexivity.
Qed.

Lemma joined_none (c b u k1 k2 k3 k4 : N) :
  (is_high_surrogate c && N.eqb b BACKSLASH && N.eqb u (ch "u"))%bool = false ->
  joined_surrogates c b u k1 k2 k3 k4 = None.
Proof. intros H; unfold joined_surrogates; rewrite H; reflexivity. Qed.

Lemma not_joined_short (c b u : N) (tail : str) :
  (N.eqb b BACKSLASH && N.eqb u (ch "u"))%bool = false ->
  not_joined c (b :: u :: tail).
Proof.
  intros H; unfold not_joined.
  destruct tail as [|k1 [|k2 [|k3 [|k4 r]]]]; try exact I.
  apply joined_none; rewrite <- andb_assoc, H; apply andb_false_r.
Qed.

Lemma not_joined_single (c b : N) (tail : str) :
  b <> BACKSLASH -> not_joined c (b :: tail).
Proof.
  intros H; unfold not_joined.
  destruct tail as [|u [|k1 [|k2 [|k3 [|k4 r]]]]]; try exact I.
  apply joined_none; apply N.eqb_neq in H; rewrite H, andb_false_r; reflexivity.
Qed.

Lemma not_joined_escape (c c' : N) (tail : str) :
  (is_high_surrogate c && is_low_surrogate c')%bool = false ->
  (c' < 1114112)%N ->
  not_joined c (escape_char c' ++ tail).
Proof.
  intros H Hc; unfold escape_char.
  destruct (N.eqb_spec c' QUOTE) as [->|NQ];
    [apply not_joined_short; reflexivity|].
  destruct (N.eqb_spec c' BACKSLASH) as [->|NB];
    [apply not_joined_short; reflexivity|].
  destruct (N.eqb c' 8); [apply not_joined_short; reflexivity|].
  destruct (N.eqb c' 12); [apply not_joined_short; reflexivity|].
  destruct (N.eqb c' 10); [apply not_joined_short; reflexivity|].
  destruct (N.eqb c' 13); [apply not_joined_short; reflexivity|].
  destruct (N.eqb c' 9); [apply not_joined_short; reflexivity|].
  destruct ((32 <=? c') && (c' <=? 126))%N;
    [apply not_joined_single; exact NB|].
  destruct (c' <? 65536)%N eqn:L.
  - apply N.ltb_lt in L.
    change (py "\u" ++ hex4 c') with (BACKSLASH :: ch "u" :: hex4 c').
    cbn [app].
    destruct (hex4_value_hex4 c' tail L) as (h1 & h2 & h3 & h4 & -> & Hv).
    unfold not_joined, joined_surrogates; rewrite Hv.
    destruct (is_high_surrogate c); [|reflexivity].
    cbn [andb] in H; rewrite H.
    match goal with |- (if ?b then _ else _) = _ => destruct b end; reflexivity.
  - apply N.ltb_ge in L.
    destruct (surrogates_join c' (conj L Hc)) as (Hh & _ & Lo & _).
    set (hs := N.lor 55296 _) in *.
    match goal with
    | |- not_joined c ((py "\u" ++ hex4 hs ++ ?x) ++ tail) =>
        change (not_joined c (BACKSLASH :: ch "u" :: (hex4 hs ++ x) ++ tail));
        rewrite <- app_assoc
    end.
    destruct (hex4_value_hex4 hs
                ((py "\u" ++ hex4 (N.lor 56320 (N.land (c' - 65536) 1023))) ++ tail) Hh)
      as (h1 & h2 & h3 & h4 & -> & Hv).
    unfold not_joined, joined_surrogates; rewrite Hv, Lo.
    match goal with |- (if ?b then _ else _) = _ => destruct b end; reflexivity.
Qed.

(** The body [encode_str] writes for a string reads back as that
    string. *)
Lemma scan_encoded (s rest acc : str) :
  wellformed_str s ->
  scan_string (flat_map escape_char s ++ QUOTE :: rest) acc
  = Some (rev acc ++ s, rest).
Proof.
  revert acc; induction s as [|c s IH]; intros acc W.
  - cbn [flat_map app scan_string]; rewrite N.eqb_refl, app_nil_r; reflexivity.
  - destruct W as (Hc & Hn & W).
    cbn [flat_map]; rewrite <- app_assoc.
    rewrite scan_escape; [|exact Hc|].
    + rewrite (IH (c :: acc) W); cbn [rev]; rewrite <- app_assoc; reflexivity.
    + destruct s as [|c' s'].
      * apply not_joined_single; discriminate.
      * cbn [flat_map]; rewrite <- app_assoc.
        apply not_joined_escape; [exact Hn|apply W].
Qed.

Lemma lex_one_shrinks (s r : str) (t : option token) :
  lex_one s = Some (t, r) -> (length r < length s)%nat.
Proof.
  intros H; destruct s as [|c s]; [discriminate|].
  cbn [lex_one] in H.
  repeat match type of H with
         | (if ?b then _ else _) = _ =>
             destruct b; [try (inversion H; subst; cbn [length]; lia)|]
         end.
  - destruct (scan_string s []) as [[x r']|] eqn:S; [|discriminate].
    inversion H; subst.
    apply (scan_string_guarded (length s)) in S as (body & -> & _); [|lia].
    cbn [length]; rewrite length_app; cbn [length]; lia.
  - destruct (match_word words (c :: s)) as [[v r']|] eqn:MW.
    + inversion H; subst.
      apply match_word_spec in MW as (w & Hw & Es).
      apply words_plain in Hw as (Ne & _).
      rewrite Es, length_app; destruct w; [congruence|cbn [length]; lia].
    + destruct (span is_number_char (c :: s)) as [tok r'] eqn:Sp.
      destruct (number_value tok) as [v|] eqn:NV; [|discriminate].
      inversion H; subst.
      apply span_spec in Sp as [Es _].
      apply number_value_plain in NV as [Ne _].
      rewrite Es, length_app; destruct tok; [congruence|cbn [length]; lia].
Qed.

Lemma lexes_lex (s : str) (ts : list token) :
  lexes s ts -> forall fuel, (length s <= fuel)%nat -> lex fuel s = Some ts.
Proof.
  induction 1 as [|s r ts H1 _ IH|s r t ts H1 _ IH]; intros fuel Hf.
  - destruct fuel; reflexivity.
  - pose proof (lex_one_shrinks _ _ _ H1) as L.
    destruct s as [|c s]; [discriminate|].
    destruct fuel as [|f]; [cbn [length] in Hf; lia|].
    cbn [lex]; rewrite H1, IH by (cbn [length] in *; lia); reflexivity.
  - pose proof (lex_one_shrinks _ _ _ H1) as L.
    destruct s as [|c s]; [discriminate|].
    destruct fuel as [|f]; [cbn [length] in Hf; lia|].
    cbn [lex]; rewrite H1, IH by (cbn [length] in *; lia); reflexivity.
Qed.

Lemma lexes_ws (w rest : str) (ts : list token) :
  all_in is_json_ws w -> lexes rest ts -> lexes (w ++ rest) ts.
Proof.
  intros Hw Hr; induction Hw as [|c w Hc _ IH]; [exact Hr|].
  apply (lexes_skip _ (w ++ rest)); [|exact IH].
  cbn [app lex_one]; rewrite Hc; reflexivity.
Qed.

Lemma lexes_string (s rest : str) (ts : list token) :
  wellformed_str s -> lexes rest ts ->
  lexes (encode_str s ++ rest) (TStr s :: ts).
Proof.
  intros W Hr; apply (lexes_token _ rest); [|exact Hr].
  unfold encode_str; cbn [app]; rewrite <- app_assoc; cbn [app].
  cbn [lex_one]; replace (is_json_ws QUOTE) with false by reflexivity.
  replace (N.eqb QUOTE LBRACE) with false by reflexivity.
  replace (N.eqb QUOTE RBRACE) with false by reflexivity.
  replace (N.eqb QUOTE LBRACK) with false by reflexivity.
  replace (N.eqb QUOTE RBRACK) with false by reflexivity.
  replace (N.eqb QUOTE COLON) with false by reflexivity.
  replace (N.eqb QUOTE COMMA) with false by reflexivity.
  rewrite N.eqb_refl, scan_encoded by exact W; reflexivity.
Qed.

Ltac not_this_char c Hd :=
  repeat match goal with
         | |- context [N.eqb c ?k] =>
             let E := fresh "E" in
             destruct (N.eqb_spec c k) as [E|_];
             [rewrite E in Hd; discriminate Hd|]
         | |- context [N.eqb ?k c] =>
             let E := fresh "E" in
             destruct (N.eqb_spec k c) as [E|_];
             [rewrite <- E in Hd; discriminate Hd|]
         end.

Lemma digit_not_ws (c : N) : is_digit c = true -> is_json_ws c = false.
Proof.
  intros Hd; unfold is_json_ws.
  not_this_char c Hd; reflexivity.
Qed.

Lemma prefixb_head (x c : N) (w s : str) :
  x <> c -> prefixb (x :: w) (c :: s) = false.
Proof.
  intros H; cbn [prefixb]; apply N.eqb_neq in H; rewrite H; reflexivity.
Qed.

Lemma prefixb_second (x1 x2 c1 c2 : N) (w s : str) :
  x2 <> c2 -> prefixb (x1 :: x2 :: w) (c1 :: c2 :: s) = false.
Proof.
  intros H; cbn [prefixb]; apply N.eqb_neq in H; rewrite H.
  apply andb_false_r.
Qed.

Lemma lex_one_number (tok rest : str) (v : pyval) :
  number_value tok = Some v ->
  all_in is_number_char tok ->
  starts_number tok ->
  ends_number rest ->
  lex_one (tok ++ rest) = Some (Some (TAtom v), rest).
Proof.
  intros NV Hn Hs He.
  assert (Sp : span is_number_char (tok ++ rest) = (tok, rest))
    by (apply span_app_stop; assumption).
  destruct tok as [|c tok']; [destruct Hs|].
  cbn [app] in *; cbn [lex_one]; rewrite Sp, NV.
  assert (W : match_word words (c :: tok' ++ rest) = None).
  { unfold words; cbn [match_word].
    change (py "true") with [116; 114; 117; 101]%N.
    change (py "false") with [102; 97; 108; 115; 101]%N.
    change (py "null") with [110; 117; 108; 108]%N.
    change (py "NaN") with [78; 97; 78]%N.
    change (py "Infinity") with [73; 110; 102; 105; 110; 105; 116; 121]%N.
    change (py "-Infinity") with [45; 73; 110; 102; 105; 110; 105; 116; 121]%N.
    destruct Hs as [Hd|[-> Hd]].
    - rewrite !prefixb_head
        by (let E := fresh in intros E; rewrite <- E in Hd; discriminate Hd).
      reflexivity.
    - destruct tok' as [|d tok'']; [destruct Hd|].
      cbn [app].
      rewrite !prefixb_head by discriminate.
      rewrite prefixb_second
        by (let E := fresh in intros E; rewrite <- E in Hd; discriminate Hd).
      reflexivity. }
  rewrite W.
  destruct Hs as [Hd|[-> Hd]].
  - rewrite (digit_not_ws c Hd).
    not_this_char c Hd; reflexivity.
  - reflexivity.
Qed.

Lemma digits_number_chars (ds : str) :
  all_in is_digit ds -> all_in is_number_char ds.
Proof.
  intros H; induction H as [|c ds Hc _ IH]; constructor;
    [apply digit_number_char; exact Hc|exact IH].
Qed.

Lemma signed_starts (neg : bool) (ds rest : str) :
  is_digits ds -> starts_number ((if neg then py "-" else []) ++ ds ++ rest).
Proof.
  intros [Hne Hd]; destruct ds as [|d ds]; [congruence|].
  inversion Hd; subst.
  destruct neg; [right; split; [reflexivity|assumption]|left; assumption].
Qed.

Lemma repr_int_chars (z : Z) :
  all_in is_number_char (repr_int z) /\ starts_number (repr_int z).
Proof.
  unfold repr_int; pose proof (repr_nat_digits (Z.abs_N z)) as D.
  split.
  - apply Forall_app; split;
      [destruct (z <? 0); repeat constructor
      |apply digits_number_chars, D].
  - rewrite <- (app_nil_r (repr_nat _)); apply signed_starts; exact D.
Qed.

Lemma repr_float_chars (neg : bool) (m : N) (e : Z) :
  all_in is_number_char (repr_float (FFinite neg m e))
  /\ starts_number (repr_float (FFinite neg m e)).
Proof.
  unfold repr_float.
  destruct (rounds_to_zero m e).
  - split; [destruct neg; repeat constructor|].
    destruct neg; [right; split; reflexivity|left; reflexivity].
  - pose proof (repr_nat_digits m) as D.
    split; [|apply signed_starts; exact D].
    apply Forall_app; split; [destruct neg; repeat constructor|].
    apply Forall_app; split; [apply digits_number_chars, D|].
    apply Forall_app; split; [repeat constructor|apply repr_int_chars].
Qed.

(** What is printed for an object that is not a string, a list or a
    mapping is read as one token. *)
Lemma lexes_atom (v : pyval) (level : nat) (rest : str) (ts : list token) :
  printable v ->
  match v with PStr _ | PList _ | PDict _ => False | _ => True end ->
  ends_number rest -> lexes rest ts ->
  lexes (dumps_at level v ++ rest) (TAtom (canon v) :: ts).
Proof.
  intros P A He Hr; apply (lexes_token _ rest); [|exact Hr].
  destruct v as [|[|]|z|f| | |]; try destruct A; try reflexivity.
  - cbn [dumps_at canon].
    destruct (repr_int_chars z) as [C S].
    exact (lex_one_number _ rest _ (repr_int_value z) C S He).
  - cbn [dumps_at canon].
    destruct f as [neg m e| | |]; [|reflexivity..].
    destruct (repr_float_chars neg m e) as [C S].
    exact (lex_one_number _ rest _ (repr_float_value neg m e P) C S He).
Qed.

Lemma printable_list (l : list pyval) :
  printable (PList l) <-> Forall printable l.
Proof.
  induction l as [|x l IH]; cbn [printable].
  - split; [constructor|exact (fun _ => I)].
  - split.
    + intros [Hx Hl]; constructor; [exact Hx|apply IH; exact Hl].
    + intros H; inversion H; subst; split; [assumption|apply IH; assumption].
Qed.

Lemma printable_dict (d : list (str * pyval)) :
  printable (PDict d)
  <-> NoDup (map fst d)
      /\ Forall (fun kv => wellformed_str (fst kv) /\ printable (snd kv)) d.
Proof.
  cbn [printable]; apply and_iff_compat_l.
  induction d as [|[k x] d IH].
  - split; [constructor|exact (fun _ => I)].
  - split.
    + intros (Hk & Hx & Hd); constructor; [split; assumption|apply IH; exact Hd].
    + intros H; inversion H as [|? ? [Hk Hx] Hd]; subst.
      split; [exact Hk|]; split; [exact Hx|apply IH; exact Hd].
Qed.

Lemma ends_number_indent (level : nat) (rest : str) :
  ends_number (newline_indent level ++ rest).
Proof. reflexivity. Qed.

Lemma ends_number_array_tail (level : nat) (r : list pyval) (rest : str) :
  ends_number (array_tail level r ++ newline_indent level ++ rest).
Proof. destruct r; reflexivity. Qed.

Lemma ends_number_object_tail (level : nat) (r : list (str * pyval)) (rest : str) :
  ends_number (object_tail level r ++ newline_indent level ++ rest).
Proof. destruct r as [|[k y] r]; reflexivity. Qed.

Ltac lex_token := cbn [app]; eapply lexes_token; [reflexivity|].
Ltac lex_space := cbn [app]; eapply lexes_skip; [reflexivity|].
Ltac lex_indent :=
  rewrite <- ?app_assoc; apply lexes_ws; [apply newline_indent_ws|].

(** What [json.dumps] prints is cut by the lexer into the tokens of the
    object. *)
Lemma lexes_dumps (v : pyval) :
  printable v ->
  forall (level : nat) (rest : str) (ts : list token),
    ends_number rest -> lexes rest ts ->
    lexes (dumps_at level v ++ rest) (tokens_of v ++ ts).
Proof.
  induction v as [| | | | |l IH|d IH] using pyval_nested_ind;
    intros P level rest ts He Hr;
    try (apply lexes_atom; (assumption || exact I)).
  - apply lexes_string; assumption.
  - apply printable_list in P.
    destruct l as [|x r].
    + change (dumps_at level (PList [])) with [LBRACK; RBRACK].
      cbn [tokens_of]; lex_token; lex_token; exact Hr.
    + rewrite dumps_list_eq.
      inversion P as [|? ? Px Pr]; inversion IH as [|? ? IHx IHr]; subst.
      cbn [tokens_of]; lex_token; lex_indent.
      rewrite <- ?app_assoc.
      apply (IHx Px); [apply ends_number_array_tail|].
      assert (T : forall rest2 ts2,
                 ends_number rest2 -> lexes rest2 ts2 ->
                 lexes (array_tail level r ++ rest2)
                   (flat_map (fun y => TComma :: tokens_of y) r ++ ts2)).
      { clear - Pr IHr; induction r as [|y r IHt]; intros rest2 ts2 He2 Hr2;
          [exact Hr2|].
        inversion Pr as [|? ? Py Pr']; inversion IHr as [|? ? IHy IHr']; subst.
        cbn [array_tail flat_map]; lex_token; lex_indent.
        rewrite <- ?app_assoc.
        apply (IHy Py).
        - destruct r; [exact He2|reflexivity].
        - apply IHt; assumption. }
      apply T; [reflexivity|].
      lex_indent; lex_token; exact Hr.
  - apply printable_dict in P as [_ P].
    destruct d as [|[k x] r].
    + change (dumps_at level (PDict [])) with [LBRACE; RBRACE].
      cbn [tokens_of]; lex_token; lex_token; exact Hr.
    + rewrite dumps_dict_eq.
      inversion P as [|? ? [Pk Px] Pr]; inversion IH as [|? ? IHx IHr]; subst.
      cbn [fst snd] in *.
      cbn [tokens_of]; lex_token; lex_indent.
      rewrite <- ?app_assoc.
      apply lexes_string; [exact Pk|].
      lex_token; lex_space.
      rewrite <- ?app_assoc.
      apply (IHx Px); [apply ends_number_object_tail|].
      assert (T : forall rest2 ts2,
                 ends_number rest2 -> lexes rest2 ts2 ->
                 lexes (object_tail level r ++ rest2)
                   (flat_map (fun ky => TComma :: TStr (fst ky) :: TColon
                                          :: tokens_of (snd ky)) r ++ ts2)).
      { clear - Pr IHr; induction r as [|[k' y] r IHt]; intros rest2 ts2 He2 Hr2;
          [exact Hr2|].
        inversion Pr as [|? ? [Pk' Py] Pr']; inversion IHr as [|? ? IHy IHr']; subst.
        cbn [fst snd] in *.
        cbn [object_tail flat_map fst snd]; lex_token; lex_indent.
        rewrite <- ?app_assoc.
        apply lexes_string; [exact Pk'|].
        lex_token; lex_space.
        rewrite <- ?app_assoc.
        apply (IHy Py).
        - destruct r as [|[k2 y2] r]; [exact He2|reflexivity].
        - apply IHt; assumption. }
      apply T; [reflexivity|].
      lex_indent; lex_token; exact Hr.
Qed.

(** ** The parser on the tokens of an object *)

Lemma tokens_start (v : pyval) :
  exists t ts, tokens_of v = t :: ts /\ t <> TRBrack.
Proof.
  destruct v as [| | | | |[|x l]|[|[k x] d]]; cbn [tokens_of];
    do 2 eexists; (split; [reflexivity|discriminate]).
Qed.

Lemma parse_value_open (f : nat) (ts : list token) :
  match ts with TRBrack :: _ => False | _ => True end ->
  parse_value (S f) (TLBrack :: ts) = parse_elems f ts [].
Proof.
  intros H; destruct ts as [|[] ts]; try reflexivity; destruct H.
Qed.

Lemma dict_set_fresh (acc : dict) (k : str) (v : pyval) :
  ~ In k (map fst acc) -> dict_set acc k v = acc ++ [(k, v)].
Proof.
  induction acc as [|[k' v'] acc IH]; intros H; [reflexivity|].
  cbn [dict_set app map fst In] in *.
  destruct (str_eqb k' k) eqn:E.
  - apply str_eqb_eq in E; exfalso; apply H; left; exact E.
  - rewrite IH; [reflexivity|]; intros K; apply H; right; exact K.
Qed.

Lemma parse_tokens (v : pyval) :
  printable v ->
  forall (fuel : nat) (r : list token),
    (length (tokens_of v) < fuel)%nat ->
    parse_value fuel (tokens_of v ++ r) = Some (canon v, r).
Proof.
  induction v as [| | | | |l IH|d IH] using pyval_nested_ind;
    intros P fuel r Hf;
    try (destruct fuel; [inversion Hf|]; reflexivity).
  - apply printable_list in P.
    destruct fuel as [|f]; [inversion Hf|].
    destruct l as [|x l']; [reflexivity|].
    cbn [tokens_of app]; rewrite <- !app_assoc.
    rewrite parse_value_open.
    2:{ destruct (tokens_start x) as (t & ts & -> & Ht).
        cbn [app]; destruct t; (exact I || congruence). }
    assert (E : forall l' x acc f,
               Forall printable (x :: l') ->
               Forall (fun v => printable v ->
                                forall fuel r,
                                  (length (tokens_of v) < fuel)%nat ->
                                  parse_value fuel (tokens_of v ++ r)
                                  = Some (canon v, r)) (x :: l') ->
               (S (length (tokens_of x
                           ++ flat_map (fun y => TComma :: tokens_of y) l')) < f)%nat ->
               parse_elems f (tokens_of x
                              ++ flat_map (fun y => TComma :: tokens_of y) l'
                              ++ [TRBrack] ++ r) acc
               = Some (PList (acc ++ map canon (x :: l')), r)).
    { clear; induction l' as [|y l' IHl]; intros x acc f Pl IHs Hlen.
      - inversion Pl as [|? ? Px _]; inversion IHs as [|? ? IHx _]; subst.
        destruct f as [|f']; [inversion Hlen|].
        cbn [flat_map app] in *; rewrite app_nil_r in Hlen.
        cbn [parse_elems]; rewrite (IHx Px) by lia; reflexivity.
      - inversion Pl as [|? ? Px Pl']; inversion IHs as [|? ? IHx IHs']; subst.
        destruct f as [|f']; [inversion Hlen|].
        cbn [flat_map] in *; cbn [app] in *.
        rewrite length_app in Hlen; cbn [length] in Hlen.
        cbn [parse_elems]; rewrite (IHx Px) by lia.
        rewrite <- app_assoc.
        rewrite (IHl y (acc ++ [canon x]) f' Pl' IHs') by lia.
        cbn [map]; rewrite <- app_assoc; reflexivity. }
    rewrite (E l' x [] f P IH); [reflexivity|].
    cbn [tokens_of length] in Hf.
    rewrite !length_app in Hf; rewrite length_app; cbn [length] in Hf; lia.
  - apply printable_dict in P as [ND P].
    destruct fuel as [|f]; [inversion Hf|].
    destruct d as [|[k x] d']; [reflexivity|].
    cbn [tokens_of app]; rewrite <- !app_assoc.
    change (parse_value (S f) (TLBrace :: TStr k :: ?ts))
      with (parse_members f (TStr k :: ts) []).
    assert (E : forall d' k x acc f,
               NoDup (map fst ((k, x) :: d')) ->
               (forall k', In k' (map fst ((k, x) :: d')) -> ~ In k' (map fst acc)) ->
               Forall (fun kv => wellformed_str (fst kv) /\ printable (snd kv))
                 ((k, x) :: d') ->
               Forall (fun kv => printable (snd kv) ->
                                 forall fuel r,
                                   (length (tokens_of (snd kv)) < fuel)%nat ->
                                   parse_value fuel (tokens_of (snd kv) ++ r)
                                   = Some (canon (snd kv), r)) ((k, x) :: d') ->
               (length (TStr k :: TColon :: tokens_of x
                        ++ flat_map (fun ky => TComma :: TStr (fst ky) :: TColon
                                               :: tokens_of (snd ky)) d') < f)%nat ->
               parse_members f (TStr k :: TColon :: tokens_of x
                                ++ flat_map (fun ky => TComma :: TStr (fst ky) :: TColon
                                                       :: tokens_of (snd ky)) d'
                                ++ [TRBrace] ++ r) acc
               = Some (PDict (acc ++ map (fun kv => (fst kv, canon (snd kv)))
                                     ((k, x) :: d')), r)).
    { clear; induction d' as [|[k2 y] d' IHd]; intros k x acc f ND Fr Pl IHs Hlen.
      - inversion Pl as [|? ? [_ Px] _]; inversion IHs as [|? ? IHx _]; subst.
        cbn [fst snd] in *.
        destruct f as [|f']; [inversion Hlen|].
        cbn [flat_map app length] in *; rewrite app_nil_r in Hlen.
        cbn [parse_members]; rewrite (IHx Px) by lia.
        rewrite dict_set_fresh by (apply Fr; left; reflexivity).
        reflexivity.
      - inversion Pl as [|? ? [_ Px] Pl']; inversion IHs as [|? ? IHx IHs']; subst.
        cbn [fst snd] in *.
        destruct f as [|f']; [inversion Hlen|].
        cbn [flat_map fst snd] in *; cbn [app length] in *.
        rewrite length_app in Hlen; cbn [length] in Hlen.
        cbn [parse_members]; rewrite (IHx Px) by lia.
        rewrite dict_set_fresh by (apply Fr; left; reflexivity).
        rewrite <- app_assoc.
        inversion ND as [|? ? Hk ND']; subst.
        rewrite (IHd k2 y (acc ++ [(k, canon x)]) f' ND'); [| |exact Pl'|exact IHs'|lia].
        + cbn [map fst snd]; rewrite <- app_assoc; reflexivity.
        + intros k' Hk' Hin.
          rewrite map_app in Hin; apply in_app_or in Hin as [Hin|[<-|[]]].
          * apply (Fr k'); [right; exact Hk'|exact Hin].
          * apply Hk; exact Hk'. }
    rewrite (E d' k x [] f ND); [reflexivity|intros ? ? []|exact P|exact IH|].
    cbn [tokens_of length] in Hf.
    rewrite !length_app in Hf; cbn [length] in *; rewrite length_app; cbn [length] in Hf; lia.
Qed.

(** ** Printing, then reading *)

Lemma decode_dumps (v : pyval) :
  printable v -> json_decode (json_dumps v) = Some (canon v).
Proof.
  intros P; unfold json_decode, json_dumps.
  pose proof (lexes_dumps v P 0 [] [] I lexes_nil) as L.
  rewrite !app_nil_r in L.
  rewrite (lexes_lex _ _ L _ (le_n _)).
  pose proof (parse_tokens v P (2 * length (tokens_of v) + 2) []) as R.
  rewrite app_nil_r in R; rewrite R by lia; reflexivity.
Qed.

Lemma repr_canon_float (f : pyfloat) : repr_float (canon_float f) = repr_float f.
Proof.
  destruct f as [neg m e| | |]; try reflexivity.
  unfold canon_float; destruct (rounds_to_zero m e) eqn:R; [|reflexivity].
  unfold repr_float; rewrite R; reflexivity.
Qed.

Lemma dumps_canon (v : pyval) :
  forall level, dumps_at level (canon v) = dumps_at level v.
Proof.
  induction v as [| | | | |l IH|d IH] using pyval_nested_ind; intros level;
    try reflexivity.
  - apply repr_canon_float.
  - destruct l as [|x r]; [reflexivity|].
    cbn [canon map]; rewrite !dumps_list_eq.
    inversion IH as [|? ? IHx IHr]; subst.
    assert (T : array_tail level (map canon r) = array_tail level r).
    { clear - IHr; induction IHr as [|y r Hy _ IHt]; [reflexivity|].
      cbn [map array_tail]; rewrite Hy, IHt; reflexivity. }
    rewrite IHx, T; reflexivity.
  - destruct d as [|[k x] r]; [reflexivity|].
    cbn [canon map fst snd]; rewrite !dumps_dict_eq.
    inversion IH as [|? ? IHx IHr]; subst; cbn [snd] in IHx.
    assert (T : object_tail level (map (fun kv => (fst kv, canon (snd kv))) r)
                = object_tail level r).
    { clear - IHr; induction IHr as [|[k' y] r Hy _ IHt]; [reflexivity|].
      cbn [map object_tail fst snd] in *; rewrite Hy, IHt; reflexivity. }
    rewrite IHx, T; reflexivity.
Qed.

(** ** What the decoder builds prints and reads back *)

Lemma wellformed_snoc (a : str) (c : N) :
  wellformed_str a -> (c < 1114112)%N ->
  (a <> [] -> (is_high_surrogate (last a 0%N) && is_low_surrogate c)%bool = false) ->
  wellformed_str (a ++ [c]).
Proof.
  induction a as [|x a IH]; intros W Hc Hl.
  - cbn; auto.
  - destruct W as (Hx & Hn & W); cbn [app wellformed_str].
    split; [exact Hx|]; split.
    + destruct a as [|y a']; [apply Hl; discriminate|exact Hn].
    + apply IH; [exact W|exact Hc|].
      intros Ha; destruct a as [|y a']; [congruence|].
      apply Hl; discriminate.
Qed.

Lemma last_rev_cons (h : N) (acc : str) : last (rev (h :: acc)) 0%N = h.
Proof. cbn [rev]; apply last_last. Qed.

Lemma wellformed_push (acc : str) (c : N) :
  wellformed_str (rev acc) -> (c < 1114112)%N ->
  match acc with
  | h :: _ => (is_high_surrogate h && is_low_surrogate c)%bool = false
  | [] => True
  end ->
  wellformed_str (rev (c :: acc)).
Proof.
  intros W Hc Hl; cbn [rev]; apply wellformed_snoc; [exact W|exact Hc|].
  destruct acc as [|h acc]; [intros K; exfalso; apply K; reflexivity|].
  intros _; rewrite last_rev_cons; exact Hl.
Qed.

Lemma hex_value_lt (h x : N) : hex_value h = Some x -> (x < 16)%N.
Proof.
  unfold hex_value, is_digit; intros H.
  repeat match type of H with
         | (if ?b then _ else _) = _ =>
             let E := fresh "E" in
             destruct b eqn:E;
             [apply andb_true_iff in E as [E1 E2];
              apply N.leb_le in E1, E2; inversion H; subst; lia|]
         end.
  discriminate.
Qed.

Lemma hex4_value_lt (a b c d x : N) :
  hex4_value a b c d = Some x -> (x < 65536)%N.
Proof.
  unfold hex4_value; intros H.
  destruct (hex_value a) as [xa|] eqn:A; [|discriminate].
  destruct (hex_value b) as [xb|] eqn:B; [|discriminate].
  destruct (hex_value c) as [xc|] eqn:C; [|discriminate].
  destruct (hex_value d) as [xd|] eqn:D; [|discriminate].
  apply hex_value_lt in A, B, C, D; inversion H; subst; lia.
Qed.

Lemma joined_is_astral (c1 b u k1 k2 k3 k4 j : N) :
  joined_surrogates c1 b u k1 k2 k3 k4 = Some j ->
  (65536 <= j < 1114112)%N.
Proof.
  unfold joined_surrogates, is_high_surrogate, is_low_surrogate; intros H.
  destruct (_ && _ && _)%bool eqn:E; [|discriminate].
  apply andb_true_iff in E as [E _]; apply andb_true_iff in E as [E _].
  apply andb_true_iff in E as [E1 E2]; apply N.leb_le in E1, E2.
  destruct (hex4_value k1 k2 k3 k4) as [c2|]; [|discriminate].
  destruct (_ && _)%bool eqn:L; [|discriminate].
  apply andb_true_iff in L as [L1 L2]; apply N.leb_le in L1, L2.
  apply (f_equal (fun o => match o with Some y => y | None => 0%N end)) in H.
  cbv beta iota in H; lia.
Qed.

Lemma not_high_not_joined (c : N) (s : str) :
  is_high_surrogate c = false -> not_joined c s.
Proof.
  intros H; unfold not_joined.
  destruct s as [|b [|u [|k1 [|k2 [|k3 [|k4 r]]]]]]; try exact I.
  apply joined_none; rewrite H; reflexivity.
Qed.

Lemma astral_not_surrogate (j : N) :
  (65536 <= j)%N -> is_high_surrogate j = false /\ is_low_surrogate j = false.
Proof.
  intros H; unfold is_high_surrogate, is_low_surrogate.
  split; apply andb_false_iff; right; apply N.leb_gt; lia.
Qed.

Lemma push_plain (acc : str) (c : N) (s : str) :
  wellformed_str (rev acc) -> (c < 1114112)%N ->
  is_high_surrogate c = false -> is_low_surrogate c = false ->
  wellformed_str (rev (c :: acc)) /\ not_joined c s.
Proof.
  intros W Hc Hh Hl; split; [|apply not_high_not_joined; exact Hh].
  apply wellformed_push; [exact W|exact Hc|].
  destruct acc; [exact I|rewrite Hl; apply andb_false_r].
Qed.

Lemma simple_escape_plain (e x : N) :
  simple_escape e = Some x ->
  (x < 1114112)%N /\ is_high_surrogate x = false /\ is_low_surrogate x = false.
Proof.
  unfold simple_escape; intros H.
  repeat match type of H with
         | (if ?b then _ else _) = _ =>
             destruct b; [inversion H; subst; repeat split; reflexivity|]
         end.
  discriminate.
Qed.

Lemma clean_tail (n : nat) (s : str) : clean_text s -> clean_text (skipn n s).
Proof.
  intros H; rewrite <- (firstn_skipn n s) in H.
  apply Forall_app in H; tauto.
Qed.

(** The strings the decoder reads from a text of scalar values are well
    formed. *)
Lemma scan_string_wellformed (n : nat) (s acc x r : str) :
  (length s <= n)%nat ->
  clean_text s ->
  wellformed_str (rev acc) ->
  match acc with h :: _ => not_joined h s | [] => True end ->
  scan_string s acc = Some (x, r) ->
  wellformed_str x /\ clean_text r.
Proof.
  revert s acc; induction n as [|n IH]; intros s acc Hn Cs W G H;
    (destruct s as [|c s]; [discriminate|]); [cbn [length] in Hn; lia|].
  cbn [scan_string] in H; cbn [length] in Hn.
  inversion Cs as [|? ? (Hc & Hh & Hl) Cs']; subst.
  destruct (N.eqb c QUOTE); [inversion H; subst; split; assumption|].
  destruct (N.eqb_spec c BACKSLASH) as [->|NB].
  - destruct s as [|e s']; [discriminate|].
    inversion Cs' as [|? ? _ Cs'']; subst.
    destruct (N.eqb_spec e (ch "u")) as [->|NU].
    + destruct s' as [|h1 [|h2 [|h3 [|h4 s4]]]]; try discriminate.
      destruct (hex4_value h1 h2 h3 h4) as [c1|] eqn:Hv; [|discriminate].
      pose proof (hex4_value_lt _ _ _ _ _ Hv) as L1.
      assert (C4 : clean_text s4).
      { exact (clean_tail 4 _ Cs''). }
      assert (W1 : wellformed_str (rev (c1 :: acc))).
      { apply wellformed_push; [exact W|lia|].
        destruct acc as [|h acc']; [exact I|].
        unfold not_joined, joined_surrogates in G; rewrite Hv in G.
        destruct (is_high_surrogate h); [|reflexivity].
        rewrite !N.eqb_refl in G; cbn [andb] in G |- *.
        destruct (is_low_surrogate c1); [discriminate G|reflexivity]. }
      destruct s4 as [|b [|u [|k1 [|k2 [|k3 [|k4 s6]]]]]];
        try (refine (IH _ (c1 :: acc) _ C4 W1 _ H);
             [cbn [length] in *; lia|exact I]).
      destruct (joined_surrogates c1 b u k1 k2 k3 k4) as [j|] eqn:J.
      * pose proof (joined_is_astral _ _ _ _ _ _ _ _ J) as [J1 J2].
        destruct (astral_not_surrogate j J1) as [Jh Jl].
        destruct (push_plain acc j s6 W J2 Jh Jl) as [Wj Gj].
        refine (IH s6 (j :: acc) _ (clean_tail 6 _ C4) Wj Gj H).
        cbn [length] in *; lia.
      * refine (IH _ (c1 :: acc) _ C4 W1 J H).
        cbn [length] in *; lia.
    + destruct (simple_escape e) as [y|] eqn:Se; [|discriminate].
      destruct (simple_escape_plain e y Se) as (Y1 & Y2 & Y3).
      destruct (push_plain acc y s' W Y1 Y2 Y3) as [Wy Gy].
      refine (IH _ (y :: acc) _ Cs'' Wy Gy H).
      cbn [length] in *; lia.
  - destruct (c <? 32)%N; [discriminate|].
    destruct (push_plain acc c s W Hc Hh Hl) as [Wc Gc].
    refine (IH _ (c :: acc) _ Cs' Wc Gc H); lia.
Qed.

Lemma number_value_printable (tok : str) (v : pyval) :
  number_value tok = Some v -> printable v.
Proof.
  intros H; unfold number_value in H.
  repeat match type of H with
         | (let (_, _) := ?x in _) = _ => destruct x
         | match ?x with _ => _ end = _ => destruct x eqn:?
         | (if ?x then _ else _) = _ => destruct x eqn:?
         | Some (PFloat (if ?x then _ else _)) = _ => destruct x eqn:?
         end; try discriminate; inversion H; subst; cbn;
    try exact I; try assumption; destruct b; exact I.
Qed.

Lemma words_printable (w : str) (v : pyval) : In (w, v) words -> printable v.
Proof.
  unfold words; cbn [In].
  intros H; repeat destruct H as [H|H]; try contradiction;
    inversion H; subst; exact I.
Qed.

Lemma clean_suffix (a b : str) : clean_text (a ++ b) -> clean_text b.
Proof. intros H; apply Forall_app in H; tauto. Qed.

Lemma lex_one_printable (s r : str) (t : option token) :
  clean_text s -> lex_one s = Some (t, r) ->
  match t with Some x => token_printable x | None => True end /\ clean_text r.
Proof.
  intros C H; destruct s as [|c s]; [discriminate|].
  inversion C as [|? ? _ Cs]; subst.
  cbn [lex_one] in H.
  destruct (is_json_ws c); [inversion H; subst; split; [exact I|exact Cs]|].
  destruct (N.eqb c LBRACE); [inversion H; subst; split; [exact I|exact Cs]|].
  destruct (N.eqb c RBRACE); [inversion H; subst; split; [exact I|exact Cs]|].
  destruct (N.eqb c LBRACK); [inversion H; subst; split; [exact I|exact Cs]|].
  destruct (N.eqb c RBRACK); [inversion H; subst; split; [exact I|exact Cs]|].
  destruct (N.eqb c COLON); [inversion H; subst; split; [exact I|exact Cs]|].
  destruct (N.eqb c COMMA); [inversion H; subst; split; [exact I|exact Cs]|].
  destruct (N.eqb c QUOTE).
  - destruct (scan_string s []) as [[x r']|] eqn:S; [|discriminate].
    inversion H; subst.
    exact (scan_string_wellformed (length s) s [] x r (le_n _) Cs I I S).
  - destruct (match_word words (c :: s)) as [[v r']|] eqn:MW.
    + inversion H; subst.
      apply match_word_spec in MW as (w & Hw & Es).
      rewrite Es in C; apply clean_suffix in C.
      split; [apply (words_printable w); exact Hw|exact C].
    + destruct (span is_number_char (c :: s)) as [tok r'] eqn:Sp.
      destruct (number_value tok) as [v|] eqn:NV; [|discriminate].
      inversion H; subst.
      apply span_spec in Sp as [Es _].
      rewrite Es in C; apply clean_suffix in C.
      split; [apply (number_value_printable tok); exact NV|exact C].
Qed.

Lemma lex_printable (fuel : nat) (s : str) (ts : list token) :
  clean_text s -> lex fuel s = Some ts -> Forall token_printable ts.
Proof.
  revert s ts; induction fuel as [|f IH]; intros s ts C H.
  - destruct s; [inversion H; constructor|discriminate].
  - destruct s as [|c s]; [inversion H; constructor|].
    cbn [lex] in H.
    destruct (lex_one (c :: s)) as [[t r]|] eqn:L1; [|discriminate].
    destruct (lex f r) as [ts'|] eqn:L; [|discriminate].
    apply (lex_one_printable _ _ _ C) in L1 as [Pt Cr].
    apply (IH _ _ Cr) in L.
    inversion H; subst; destruct t; [constructor; assumption|assumption].
Qed.

Lemma dict_set_printable (d : dict) (k : str) (v : pyval) :
  printable (PDict d) -> wellformed_str k -> printable v ->
  printable (PDict (dict_set d k v)).
Proof.
  rewrite !printable_dict; intros [ND F] Wk Pv.
  assert (K : (map fst (dict_set d k v) = map fst d
               \/ (~ In k (map fst d) /\ dict_set d k v = d ++ [(k, v)]))
              /\ Forall (fun kv => wellformed_str (fst kv) /\ printable (snd kv))
                   (dict_set d k v)).
  { clear ND; induction d as [|[k' v'] d IH].
    - split; [right; split; [intros []|reflexivity]|].
      repeat constructor; assumption.
    - inversion F as [|? ? [Wk' Pv'] F']; subst; cbn [fst snd] in *.
      destruct (IH F') as [IHk IHf].
      cbn [dict_set]; destruct (str_eqb k' k) eqn:E.
      + split; [left; reflexivity|].
        constructor; [split; assumption|exact F'].
      + apply str_eqb_neq in E; split.
        * destruct IHk as [IHk|[Nin IHk]].
          -- left; cbn [map fst]; rewrite IHk; reflexivity.
          -- right; split; [|rewrite IHk; reflexivity].
             cbn [map fst In]; intros [K|K]; [congruence|contradiction].
        * constructor; [split; assumption|exact IHf]. }
  destruct K as [[K|[Nin K]] Fs]; split; try exact Fs.
  - rewrite K; exact ND.
  - rewrite K, map_app; cbn [map fst].
    apply NoDup_app; [exact ND|repeat constructor; intros []|].
    intros x Hx [<-|[]]; contradiction.
Qed.

Lemma parse_printable (fuel : nat) :
  (forall ts v r,
      Forall token_printable ts -> parse_value fuel ts = Some (v, r) ->
      printable v /\ Forall token_printable r)
  /\ (forall ts acc v r,
        Forall token_printable ts -> Forall printable acc ->
        parse_elems fuel ts acc = Some (v, r) ->
        printable v /\ Forall token_printable r)
  /\ (forall ts acc v r,
        Forall token_printable ts -> printable (PDict acc) ->
        parse_members fuel ts acc = Some (v, r) ->
        printable v /\ Forall token_printable r).
Proof.
  induction fuel as [|f (IHv & IHe & IHm)].
  - repeat split; intros; discriminate.
  - split; [|split].
    + intros ts v r P H; cbn [parse_value] in H.
      destruct ts as [|t ts]; [discriminate|].
      inversion P as [|? ? Pt Pts]; subst.
      destruct t; try discriminate.
      * destruct ts as [|t' ts'];
          [apply (IHm [] [] v r) in H; auto; split; [constructor|exact I]|].
        destruct t';
          try (apply (IHm _ [] v r) in H; auto; split; [constructor|exact I]).
        inversion H; subst; split; [split; [constructor|exact I]|].
        inversion Pts; assumption.
      * destruct ts as [|t' ts'];
          [apply (IHe [] [] v r) in H; auto|].
        destruct t'; try (apply (IHe _ [] v r) in H; auto).
        inversion H; subst; split; [exact I|inversion Pts; assumption].
      * inversion H; subst; split; assumption.
      * inversion H; subst; split; assumption.
    + intros ts acc v r P A H; cbn [parse_elems] in H.
      destruct (parse_value f ts) as [[x r']|] eqn:V; [|discriminate].
      destruct (IHv ts x r' P V) as [Px Pr'].
      assert (A' : Forall printable (acc ++ [x]))
        by (apply Forall_app; split; [exact A|constructor; [exact Px|constructor]]).
      destruct r' as [|t r'']; [discriminate|].
      inversion Pr'; subst.
      destruct t; try discriminate.
      * inversion H; subst; split; [apply printable_list; exact A'|assumption].
      * apply (IHe r'' (acc ++ [x]) v r); assumption.
    + intros ts acc v r P A H; cbn [parse_members] in H.
      destruct ts as [|t ts]; [discriminate|].
      destruct t; try discriminate.
      destruct ts as [|t' ts]; [discriminate|].
      destruct t'; try discriminate.
      inversion P as [|? ? Pk P1]; subst; inversion P1 as [|? ? _ P2]; subst.
      destruct (parse_value f ts) as [[x r']|] eqn:V; [|discriminate].
      destruct (IHv ts x r' P2 V) as [Px Pr'].
      destruct r' as [|t r'']; [discriminate|].
      inversion Pr'; subst.
      destruct t; try discriminate.
      * inversion H; subst; split; [apply dict_set_printable; assumption|assumption].
      * apply (IHm r'' (dict_set acc s x) v r); auto.
        apply dict_set_printable; assumption.
Qed.

(** What [json.loads] builds from a text of scalar values prints and
    reads back. *)
Lemma json_decode_printable (s : str) (v : pyval) :
  clean_text s -> json_decode s = Some v -> printable v.
Proof.
  intros C H; unfold json_decode in H.
  destruct (lex (length s) s) as [ts|] eqn:L; [|discriminate].
  apply (lex_printable _ _ _ C) in L.
  destruct (parse_value (2 * length ts + 2) ts) as [[x r]|] eqn:V; [|discriminate].
  destruct r; [|discriminate]; inversion H; subst.
  destruct (parse_printable (2 * length ts + 2)) as [PV _].
  apply (PV ts v [] L V).
Qed.

Lemma clean_text_checked (s : str) : forallb scalarb s = true -> clean_text s.
Proof.
  intros H; apply Forall_forall; intros c Hc.
  rewrite forallb_forall in H; specialize (H c Hc).
  unfold scalarb in H; apply andb_true_iff in H as [H H3].
  apply andb_true_iff in H as [H1 H2].
  apply N.ltb_lt in H1; apply negb_true_iff in H2, H3.
  repeat split; assumption.
Qed.

Lemma printable_lookup (d : dict) (k : str) (v : pyval) :
  printable (PDict d) -> dict_lookup d k = Some v -> printable v.
Proof.
  rewrite printable_dict; intros [_ F] H.
  induction d as [|[k' v'] d IH]; [discriminate|].
  inversion F as [|? ? [_ Pv] F']; subst; cbn [dict_lookup] in H.
  destruct (str_eqb k' k); [inversion H; subst; exact Pv|auto].
Qed.

Lemma printable_top_array (v : pyval) (l : list pyval) :
  printable v -> top_array v = Some l -> printable (PList l).
Proof.
  intros P H; destruct v as [| | | | |l'|d]; try discriminate.
  - inversion H; subst; exact P.
  - cbn [top_array] in H.
    destruct (dict_lookup d (py "findings")) as [[]|] eqn:E; try discriminate.
    inversion H; subst; apply (printable_lookup d _ _ P E).
Qed.

Lemma printed_array_reads_back (arr : list pyval) :
  printable (PList arr) ->
  json_decode (json_dumps (PList arr)) = Some (PList (map canon arr))
  /\ json_dumps (PList (map canon arr)) = json_dumps (PList arr).
Proof.
  intros P; split; [exact (decode_dumps (PList arr) P)|].
  exact (dumps_canon (PList arr) 0).
Qed.

(** X16.  The document the strict engine prints reads back: when the
    result holds no finite float too large to be one, no string with a
    high surrogate right before a low one and no mapping with a key
    twice, [json.loads] on the printed document gives the result again
    (a float that rounds to zero as [0.0]), and printing that gives the
    same document. *)
Theorem X16_strict_document_reads_back (text : str) (arr : list pyval) :
  best_findings json_decode text = Ok arr ->
  printable (PList arr) ->
  exists doc,
    main_findings json_decode text = Ok [doc]
    /\ json_decode doc = Some (PList (map canon arr))
    /\ json_dumps (PList (map canon arr)) = doc.
Proof.
  intros H P; exists (json_dumps (PList arr)).
  split; [unfold main_findings; rewrite H; reflexivity|].
  apply printed_array_reads_back; exact P.
Qed.

Lemma X16_reads_back_witness :
  exists doc,
    main_findings json_decode wrapper_text = Ok [doc]
    /\ json_decode doc = Some (PList (map canon [record_value]))
    /\ json_dumps (PList (map canon [record_value])) = doc.
Proof.
  apply (X16_strict_document_reads_back wrapper_text [record_value]).
  - vm_compute; reflexivity.
  - apply (json_decode_printable (LBRACK :: record_text ++ [RBRACK])).
    + apply clean_text_checked; vm_compute; reflexivity.
    + vm_compute; reflexivity.
Defined.

(** X17.  The lenient engine is idempotent on a text of Unicode scalar
    values that parses to an array or to a mapping with a [findings]
    array: run on the document it printed, it prints the same document,
    and [json.loads] reads the array back from it. *)
Theorem X17_lenient_idempotent (text : str) (v : pyval) (l : list pyval) :
  clean_text text ->
  json_decode text = Some v ->
  top_array v = Some l ->
  exists doc,
    main_json json_decode text = Ok [doc]
    /\ main_json json_decode doc = Ok [doc]
    /\ json_decode doc = Some (PList (map canon l)).
Proof.
  intros C D T; exists (json_dumps (PList l)).
  assert (P : printable (PList l))
    by (apply (printable_top_array v); [apply (json_decode_printable text)|];
        assumption).
  destruct (printed_array_reads_back l P) as [R S].
  split; [|split; [|exact R]].
  - unfold main_json; rewrite try_top_struct_spec, D, T; reflexivity.
  - unfold main_json; rewrite try_top_struct_spec, R; cbn [top_array bind].
    rewrite S; reflexivity.
Qed.

Lemma X17_idempotent_witness :
  exists doc,
    main_json json_decode long_text = Ok [doc]
    /\ main_json json_decode doc = Ok [doc]
    /\ json_decode doc
       = Some (PList (map canon [PDict (long_record_fields long_snippet)])).
Proof.
  apply (X17_lenient_idempotent long_text
           (PList [PDict (long_record_fields long_snippet)])).
  - apply clean_text_checked; vm_compute; reflexivity.
  - vm_compute; reflexivity.
  - reflexivity.
Defined.

(** Without the condition on surrogates the document does not read
    back: the escapes of a high and a low surrogate that are two code
    points of a string are read as one code point. *)
Example surrogate_pair_is_joined :
  json_decode (json_dumps (PList [PStr [55357; 56832]%N]))
  = Some (PList [PStr [128512%N]]).
Proof. vm_compute; reflexivity. Qed.

(** X18.  When the whole text parses to a mapping without a [findings]
    array and the non-empty string [try_message_content] finds gives no
    array or an empty one at its top, the lenient engine prints the last
    array of that string if [last_array] finds one there (an empty one
    too), and only otherwise scans the outer text. *)
Theorem X18_lenient_inner_then_outer (json_loads : str -> option pyval)
  (s inner : str) (d : dict) :
  json_loads s = Some (PDict d) ->
  top_array (PDict d) = None ->
  try_message_content json_loads s = Ok (Some inner) ->
  inner <> [] ->
  match json_loads inner with
  | Some v => top_array v = None \/ top_array v = Some []
  | None => True
  end ->
  exists found,
    last_array json_loads inner = Ok found
    /\ main_json json_loads s
       = Ok [match found with
             | Some l => json_dumps (PList l)
             | None => fallback_document json_loads s
             end].
Proof.
  intros Hs Hd Hm Hn Hi.
  destruct (last_array_ok json_loads inner) as [found Hf].
  exists found; split; [exact Hf|].
  unfold main_json.
  rewrite try_top_struct_spec, Hs, Hd; cbn [bind]; rewrite Hm; cbn [bind].
  destruct inner as [|c i']; [congruence|].
  rewrite try_top_struct_spec.
  assert (E : or_else (match json_loads (c :: i') with
                       | Some v => top_array v
                       | None => None
                       end) (last_array json_loads (c :: i')) = Ok found).
  { destruct (json_loads (c :: i')) as [v|]; [|exact Hf].
    destruct Hi as [-> | ->]; exact Hf. }
  cbn [bind]; rewrite E; cbn [bind].
  destruct found as [l|]; [reflexivity|].
  unfold last_array, fallback_document; rewrite last_span_spec.
  destruct (last_top_span s) as [[a b]|]; [|reflexivity].
  cbn [py_json_loads].
  destruct (json_loads (slice s a b)) as [[]|]; reflexivity.
Qed.

Lemma X18_inner_witness :
  exists found,
    last_array json_decode (py " [ ] ") = Ok found
    /\ main_json json_decode empty_inner_text
       = Ok [match found with
             | Some l => json_dumps (PList l)
             | None => fallback_document json_decode empty_inner_text
             end].
Proof.
  apply (X18_lenient_inner_then_outer json_decode empty_inner_text (py " [ ] ")
           [(py "output", PStr (py " [ ] "));
            (py "data", PList [PInt 1; PInt 2])]);
    try (vm_compute; reflexivity).
  - vm_compute; discriminate.
  - vm_compute; right; reflexivity.
Defined.

(** An empty array in the inner text stops the search; an inner text
    without an array lets the scan of the outer text run. *)
Example inner_empty_array_wins :
  main_json json_decode empty_inner_text = Ok [py "[]"]
  /\ main_json json_decode prose_inner_text
     = Ok [json_dumps (PList [PInt 1; PInt 2])].
Proof. split; vm_compute; reflexivity. Qed.

(** ** One array in prose *)

Lemma last_step_no_open (w : str) (i : nat)
  (start : option nat) (lst : option (nat * nat)) :
  ~ In LBRACK w ->
  fold_left last_step (combine (seq i (length w)) w) (start, 0%nat, lst)
  = (start, 0%nat, lst).
Proof.
  revert i; induction w as [|c w IH]; intros i H; [reflexivity|].
  cbn [length seq combine fold_left last_step].
  assert (c <> LBRACK) as Hc by (intros ->; apply H; left; reflexivity).
  apply N.eqb_neq in Hc; rewrite Hc.
  destruct (N.eqb c RBRACK); apply IH; intros Hin; apply H; right; exact Hin.
Qed.

Lemma last_span_single (p m q : str) :
  ~ In LBRACK p -> ~ In LBRACK q -> balanced m ->
  last_span (p ++ LBRACK :: m ++ RBRACK :: q)
  = Some (length p, (length p + length m + 2)%nat).
Proof.
  intros Hp Hq Hm; unfold last_span, enumerate.
  rewrite enumerate_app, fold_left_app, last_step_no_open by exact Hp.
  cbn [length seq combine fold_left].
  unfold last_step at 2; rewrite N.eqb_refl; cbn [Nat.eqb].
  rewrite enumerate_app, fold_left_app, last_step_balanced by exact Hm.
  cbn [length seq combine fold_left].
  unfold last_step at 2.
  replace (N.eqb RBRACK LBRACK) with false by reflexivity.
  rewrite N.eqb_refl.
  rewrite last_step_no_open by exact Hq.
  cbn [snd Nat.add]; do 2 f_equal; lia.
Qed.

Lemma last_array_single (json_loads : str -> option pyval) (p m q : str) :
  ~ In LBRACK p -> ~ In LBRACK q -> balanced m ->
  last_array json_loads (p ++ LBRACK :: m ++ RBRACK :: q)
  = Ok (match json_loads (LBRACK :: m ++ [RBRACK]) with
        | Some (PList l) => Some l
        | _ => None
        end).
Proof.
  intros Hp Hq Hm.
  unfold last_array; rewrite last_span_single by assumption.
  replace (slice (p ++ LBRACK :: m ++ RBRACK :: q) (length p)
             (length p + length m + 2))
    with (LBRACK :: m ++ [RBRACK]).
  - cbn [py_json_loads].
    destruct (json_loads (LBRACK :: m ++ [RBRACK])) as [[]|]; reflexivity.
  - symmetry.
    replace (p ++ LBRACK :: m ++ RBRACK :: q)
      with (p ++ (LBRACK :: m ++ [RBRACK]) ++ q)
      by (cbn [app]; rewrite <- app_assoc; reflexivity).
    replace (length p + length m + 2)%nat
      with (length p + length (LBRACK :: m ++ [RBRACK]))%nat
      by (cbn [length]; rewrite length_app; cbn [length]; lia).
    apply slice_app_exact.
Qed.

(** X19.  On a text that is not JSON and is made of one bracketed span,
    its brackets matched, between two stretches of text without an
    opening bracket, [last_array] returns the parse of that span if it
    is a list and [None] otherwise, and the lenient engine prints that
    list, or the empty array. *)
Theorem X19_one_array_in_prose (json_loads : str -> option pyval)
  (p m q : str) :
  ~ In LBRACK p -> ~ In LBRACK q -> balanced m ->
  json_loads (p ++ LBRACK :: m ++ RBRACK :: q) = None ->
  exists found,
    found = match json_loads (LBRACK :: m ++ [RBRACK]) with
            | Some (PList l) => Some l
            | _ => None
            end
    /\ last_array json_loads (p ++ LBRACK :: m ++ RBRACK :: q) = Ok found
    /\ main_json json_loads (p ++ LBRACK :: m ++ RBRACK :: q)
       = Ok [match found with
             | Some l => json_dumps (PList l)
             | None => py "[]"
             end].
Proof.
  intros Hp Hq Hm Hn; eexists; split; [reflexivity|].
  pose proof (last_array_single json_loads p m q Hp Hq Hm) as L.
  split; [exact L|].
  unfold main_json.
  rewrite try_top_struct_spec, Hn; cbn [bind].
  unfold try_message_content; cbn [py_json_loads]; rewrite Hn.
  cbn [bind try_except]; rewrite L; cbn [bind].
  destruct (json_loads (LBRACK :: m ++ [RBRACK])) as [[]|]; reflexivity.
Qed.

Lemma X19_prose_witness :
  exists found,
    found = Some [PInt 1; PInt 2; PInt 3]
    /\ last_array json_decode prose_with_span = Ok found
    /\ main_json json_decode prose_with_span
       = Ok [match found with
             | Some l => json_dumps (PList l)
             | None => py "[]"
             end].
Proof.
  apply (X19_one_array_in_prose json_decode
           (py "The values are ") (py "1,2,3") (py " as said.")).
  - vm_compute; intuition discriminate.
  - vm_compute; intuition discriminate.
  - apply balanced_plain; vm_compute; reflexivity.
  - vm_compute; reflexivity.
Defined.

(** ** Every bracketed span is found *)

Lemma closings_app (a b : str) : closings (a ++ b) = (closings a + closings b)%nat.
Proof. unfold closings; rewrite filter_app, length_app; reflexivity. Qed.

Lemma closings_wrap (m : str) :
  closings (LBRACK :: m ++ [RBRACK]) = S (closings m).
Proof.
  unfold closings; cbn [filter].
  replace (N.eqb RBRACK LBRACK) with false by reflexivity.
  rewrite filter_app, length_app; cbn [filter length].
  rewrite N.eqb_refl; cbn [length]; lia.
Qed.

Lemma scan_prefix (p rest : str) (i : nat) (st : list nat) :
  exists spans st',
    stack_scan (p ++ rest) i st = spans ++ stack_scan rest (i + length p) st'
    /\ (length spans <= closings p)%nat.
Proof.
  revert i st; induction p as [|c p IH]; intros i st.
  - exists [], st; cbn [app length]; rewrite Nat.add_0_r; split; [reflexivity|lia].
  - cbn [app stack_scan length]; unfold closings; cbn [filter].
    rewrite (N.eqb_sym RBRACK c).
    replace (i + S (length p))%nat with (S i + length p)%nat by lia.
    destruct (N.eqb_spec c LBRACK) as [->|NL].
    + replace (N.eqb LBRACK RBRACK) with false by reflexivity.
      destruct (IH (S i) (i :: st)) as (spans & st' & E & L).
      exists spans, st'; split; [exact E|exact L].
    + destruct (N.eqb c RBRACK).
      * destruct st as [|start st0].
        -- destruct (IH (S i) []) as (spans & st' & E & L).
           exists spans, st'; split; [exact E|cbn [length]; unfold closings in L; lia].
        -- destruct (IH (S i) st0) as (spans & st' & E & L).
           exists ((start, (i + 1)%nat, length st0) :: spans), st'.
           split; [rewrite E; reflexivity|cbn [length]; unfold closings in L; lia].
      * destruct (IH (S i) st) as (spans & st' & E & L).
        exists spans, st'; split; [exact E|exact L].
Qed.

Lemma scan_balanced (m : str) :
  balanced m ->
  forall (rest : str) (i : nat) (st : list nat),
  exists spans,
    stack_scan (m ++ rest) i st = spans ++ stack_scan rest (i + length m) st
    /\ (length spans <= closings m)%nat.
Proof.
  induction 1 as [|b c Hb IHb Hc1 Hc2|b m Hb IHb Hm IHm]; intros rest i st.
  - exists []; cbn [app length]; rewrite Nat.add_0_r; split; [reflexivity|lia].
  - destruct (IHb ([c] ++ rest) i st) as (spans & E & L).
    exists spans; rewrite <- app_assoc, E; cbn [app stack_scan].
    apply N.eqb_neq in Hc1, Hc2; rewrite Hc1, Hc2.
    rewrite length_app, closings_app; cbn [length].
    split; [do 2 f_equal; lia|lia].
  - destruct (IHb ((LBRACK :: m ++ [RBRACK]) ++ rest) i st) as (s1 & E1 & L1).
    destruct (IHm ([RBRACK] ++ rest) (S (i + length b)) ((i + length b)%nat :: st))
      as (s2 & E2 & L2).
    exists (s1 ++ s2 ++ [((i + length b)%nat,
                          (S (i + length b) + length m + 1)%nat, length st)]).
    rewrite <- app_assoc, E1; cbn [app stack_scan].
    rewrite N.eqb_refl, <- app_assoc, E2; cbn [app stack_scan].
    replace (N.eqb RBRACK LBRACK) with false by reflexivity.
    rewrite N.eqb_refl, <- !app_assoc; cbn [app].
    rewrite !length_app, closings_app, closings_wrap; cbn [length].
    rewrite length_app; cbn [length].
    split; [do 4 f_equal; lia|lia].
Qed.

(** A bracketed span of the text with matched brackets inside is one of
    the spans of the stack algorithm, after at most as many others as
    there are closing brackets before its own. *)
Lemma span_is_found (p m q : str) :
  balanced m ->
  exists before d after,
    bracket_spans (p ++ LBRACK :: m ++ RBRACK :: q)
    = before ++ (length p, (length p + length m + 2)%nat, d) :: after
    /\ (length before <= closings (p ++ m))%nat.
Proof.
  intros Hm; unfold bracket_spans.
  destruct (scan_prefix p (LBRACK :: m ++ RBRACK :: q) 0 [])
    as (s1 & st' & E1 & L1).
  rewrite E1; cbn [stack_scan Nat.add]; rewrite N.eqb_refl.
  destruct (scan_balanced m Hm (RBRACK :: q) (S (length p)) (length p :: st'))
    as (s2 & E2 & L2).
  rewrite E2; cbn [stack_scan].
  replace (N.eqb RBRACK LBRACK) with false by reflexivity.
  rewrite N.eqb_refl.
  exists (s1 ++ s2), (length st'), (stack_scan q (S (S (length p) + length m)) st').
  rewrite <- app_assoc, length_app, closings_app.
  split; [|lia].
  replace (S (length p) + length m + 1)%nat with (length p + length m + 2)%nat
    by lia.
  reflexivity.
Qed.

Lemma in_firstn_early {A} (n : nat) (before after : list A) (x : A) :
  (length before < n)%nat -> In x (firstn n (before ++ x :: after)).
Proof.
  intros H; rewrite firstn_app.
  apply in_or_app; right.
  destruct (n - length before)%nat as [|k] eqn:E; [lia|].
  left; reflexivity.
Qed.

Lemma span_is_candidate (p m q : str) :
  balanced m ->
  (closings (p ++ m) < 40)%nat ->
  In (LBRACK :: m ++ [RBRACK])
    (balanced_arrays (p ++ LBRACK :: m ++ RBRACK :: q)).
Proof.
  intros Hm Hc; rewrite balanced_arrays_spec.
  destruct (span_is_found p m q Hm) as (before & d & after & E & L).
  apply in_map_iff.
  exists (length p, (length p + length m + 2)%nat, d); split.
  - unfold span_text; cbn [fst snd].
    replace (p ++ LBRACK :: m ++ RBRACK :: q)
      with (p ++ (LBRACK :: m ++ [RBRACK]) ++ q)
      by (cbn [app]; rewrite <- app_assoc; reflexivity).
    replace (length p + length m + 2)%nat
      with (length p + length (LBRACK :: m ++ [RBRACK]))%nat
      by (cbn [length]; rewrite length_app; cbn [length]; lia).
    apply slice_app_exact.
  - rewrite E; apply in_firstn_early; lia.
Qed.

(** X20.  The bracket scan of the strict engine misses no array: a
    bracketed span of the text whose inner brackets are matched is one
    of the candidates of strategy 5, provided fewer than 40 closing
    brackets come before its own. *)
Theorem X20_bracket_scan_complete (json_loads : str -> option pyval)
  (p m q : str) :
  balanced m ->
  (closings (p ++ m) < 40)%nat ->
  In (PStr (LBRACK :: m ++ [RBRACK]))
    (fst (json_candidates json_loads (p ++ LBRACK :: m ++ RBRACK :: q))).
Proof.
  intros Hm Hc; rewrite json_candidates_spec; cbn [fst].
  apply in_or_app; right; apply in_or_app; right.
  unfold fragment_candidates.
  apply in_or_app; right; apply in_or_app; right.
  unfold bracket_candidates; apply in_map.
  apply span_is_candidate; assumption.
Qed.

Lemma X20_complete_witness :
  In (PStr (LBRACK :: py "1,2,3" ++ [RBRACK]))
    (fst (json_candidates json_decode
            (py "The values are " ++ LBRACK :: py "1,2,3" ++ RBRACK :: py " as said."))).
Proof.
  apply (X20_bracket_scan_complete json_decode
           (py "The values are ") (py "1,2,3") (py " as said.")).
  - apply balanced_plain; vm_compute; reflexivity.
  - vm_compute; lia.
Defined.






Example two_arrays_text_result :
  best_findings json_decode two_arrays_text = Ok [record_value].
Proof. vm_compute; reflexivity. Qed.

(** ** An array in a fenced block, an array in a wrapper *)






